(** * Entity consolidation and bridging of the IC design knowledge graph

    A shallow embedding of [src/utils.py] ([normalize_hardware_name]),
    [src/bridger.py] (the interactive bridging path),
    [src/bridger_bulk.py] (the bulk AQL bridging path) and
    [src/consolidator.py] (the fuzzy consolidation stage).

    Strings are Stdlib strings over ASCII.  Scores, computed with Python
    floats in the source, are modelled as rationals [Q].  Python dicts are
    stdpp [gmap]s, Python sets are stdpp [gset]s.  The external
    collaborators (the ArangoSearch view, the similarity library) are
    parameters of the model. *)

From Stdlib Require Import String Ascii QArith Qminmax Lqa.
From stdpp Require Import base list gmap strings sorting.

Open Scope string_scope.

(* ------------------------------------------------------------------ *)
(** ** Python string primitives (ASCII) *)

Module Py.

(** [c.isspace()] for ASCII characters. *)
Definition is_space (c : ascii) : bool :=
  let n := nat_of_ascii c in
  Nat.eqb n 32 || (Nat.leb 9 n && Nat.leb n 13) || (Nat.leb 28 n && Nat.leb n 31).

Definition is_upper (c : ascii) : bool :=
  let n := nat_of_ascii c in Nat.leb 65 n && Nat.leb n 90.

(** [c.lower()] *)
Definition lower_char (c : ascii) : ascii :=
  if is_upper c then ascii_of_nat (nat_of_ascii c + 32) else c.

Fixpoint smap (f : ascii -> ascii) (s : string) : string :=
  match s with
  | EmptyString => EmptyString
  | String a s' => String (f a) (smap f s')
  end.

(** [s.lower()] *)
Definition lower (s : string) : string := smap lower_char s.

(** [s.lstrip()] *)
Fixpoint lstrip (s : string) : string :=
  match s with
  | EmptyString => EmptyString
  | String a s' => if is_space a then lstrip s' else s
  end.

(** [s.rstrip()] *)
Fixpoint rstrip (s : string) : string :=
  match s with
  | EmptyString => EmptyString
  | String a s' =>
      let r := rstrip s' in
      match r with
      | EmptyString => if is_space a then EmptyString else String a EmptyString
      | _ => String a r
      end
  end.

(** [s.strip()] *)
Definition strip (s : string) : string := lstrip (rstrip s).

(** [s.replace(a, b)] for one-character [a] and [b]. *)
Definition replace_char (a b : ascii) (s : string) : string :=
  smap (fun c => if ascii_dec c a then b else c) s.

(** [s.split(c)] for a one-character separator [c]. *)
Fixpoint split_char (c : ascii) (s : string) : list string :=
  match s with
  | EmptyString => [EmptyString]
  | String a s' =>
      let parts := split_char c s' in
      if ascii_dec a c then EmptyString :: parts
      else match parts with
           | p :: ps => String a p :: ps
           | [] => [String a EmptyString]
           end
  end.

(** [c in s] for a character. *)
Fixpoint has_char (c : ascii) (s : string) : bool :=
  match s with
  | EmptyString => false
  | String a s' => if ascii_dec a c then true else has_char c s'
  end.

(** [s.startswith(p)] *)
Definition startswith (p s : string) : bool := String.prefix p s.

(** [s[n:]] *)
Fixpoint sdrop (n : nat) (s : string) : string :=
  match n, s with
  | 0, _ => s
  | S n', EmptyString => EmptyString
  | S n', String _ s' => sdrop n' s'
  end.

(** Every character of [s] satisfies [P]. *)
Fixpoint all_chars (P : ascii -> bool) (s : string) : bool :=
  match s with
  | EmptyString => true
  | String a s' => P a && all_chars P s'
  end.

End Py.

(* ------------------------------------------------------------------ *)
(** ** [normalize_hardware_name] (src/utils.py) *)

Definition OR1200_PREFIX : string := "or1200_".

(** [name] is [None] for Python's [None]; the falsy test [if not name]
    covers [None] and the empty string. *)
Definition normalize_hardware_name (name : option string) : string :=
  match name with
  | None => ""
  | Some EmptyString => ""
  | Some n =>
      let s := Py.lower n in
      let s := if Py.startswith OR1200_PREFIX s then Py.sdrop 7 s else s in
      let s := if Py.has_char "." s then List.last (Py.split_char "." s) "" else s in
      Py.strip (Py.replace_char "_" " " s)
  end.

(** The normaliser applied to a string (the common case in the callers). *)
Definition normalize (s : string) : string := normalize_hardware_name (Some s).

(* ------------------------------------------------------------------ *)
(** ** More string primitives used by the bridging and consolidation code *)

Module Str.

(** [p in s] (substring test; [""] is in every string). *)
Fixpoint contains (p s : string) : bool :=
  String.prefix p s ||
  match s with
  | EmptyString => false
  | String _ s' => contains p s'
  end.

(** [s.split()] : maximal runs of non-whitespace characters. *)
Fixpoint split_ws_acc (cur : string) (s : string) : list string :=
  match s with
  | EmptyString => match cur with EmptyString => [] | _ => [cur] end
  | String a s' =>
      if Py.is_space a then
        match cur with
        | EmptyString => split_ws_acc EmptyString s'
        | _ => cur :: split_ws_acc EmptyString s'
        end
      else split_ws_acc (cur ++ String a EmptyString) s'
  end.
Definition split_ws (s : string) : list string := split_ws_acc EmptyString s.

(** [" ".join(l)] *)
Definition join_space (l : list string) : string := String.concat " " l.

(** A character of the regex class [\w] (ASCII). *)
Definition is_word (c : ascii) : bool :=
  let n := nat_of_ascii c in
  (Nat.leb 48 n && Nat.leb n 57) || (Nat.leb 65 n && Nat.leb n 90) ||
  (Nat.leb 97 n && Nat.leb n 122) || Nat.eqb n 95.

(** [re.findall(r'\w+', s)] *)
Fixpoint words_acc (cur : string) (s : string) : list string :=
  match s with
  | EmptyString => match cur with EmptyString => [] | _ => [cur] end
  | String a s' =>
      if is_word a then words_acc (cur ++ String a EmptyString) s'
      else match cur with
           | EmptyString => words_acc EmptyString s'
           | _ => cur :: words_acc EmptyString s'
           end
  end.
Definition findall_words (s : string) : list string := words_acc EmptyString s.

(** AQL [LOWER] (ASCII). *)
Definition aql_lower := Py.lower.

(** AQL [TRIM] (default characters: space, tab, CR, LF). *)
Definition is_trim_char (c : ascii) : bool :=
  let n := nat_of_ascii c in Nat.eqb n 32 || Nat.eqb n 9 || Nat.eqb n 10 || Nat.eqb n 13.
Fixpoint ltrim (s : string) : string :=
  match s with
  | EmptyString => EmptyString
  | String a s' => if is_trim_char a then ltrim s' else s
  end.
Fixpoint rtrim (s : string) : string :=
  match s with
  | EmptyString => EmptyString
  | String a s' =>
      match rtrim s' with
      | EmptyString => if is_trim_char a then EmptyString else String a EmptyString
      | r => String a r
      end
  end.
Definition aql_trim (s : string) : string := ltrim (rtrim s).

(** AQL [SUBSTITUTE(value, search, replace)] with a string [search]:
    every non-overlapping occurrence, left to right.  An empty [search]
    leaves the value unchanged. *)
Fixpoint substitute_fuel (fuel : nat) (s search repl : string) : string :=
  match fuel with
  | 0 => s
  | S fuel' =>
      match s with
      | EmptyString => EmptyString
      | String a s' =>
          if String.prefix search s then
            repl ++ substitute_fuel fuel' (Py.sdrop (String.length search) s) search repl
          else String a (substitute_fuel fuel' s' search repl)
      end
  end.
Definition aql_substitute (s search repl : string) : string :=
  match search with
  | EmptyString => s
  | _ => substitute_fuel (S (String.length s)) s search repl
  end.

(** The class [\s] of the AQL regex (ASCII). *)
Definition is_regex_space (c : ascii) : bool :=
  let n := nat_of_ascii c in Nat.eqb n 32 || (Nat.leb 9 n && Nat.leb n 13).

(** AQL [REGEX_REPLACE(s, '\\s+', ' ', true)]: each run of whitespace
    becomes one space. *)
Fixpoint collapse_ws_acc (in_run : bool) (s : string) : string :=
  match s with
  | EmptyString => EmptyString
  | String a s' =>
      if is_regex_space a then
        if in_run then collapse_ws_acc true s' else String " " (collapse_ws_acc true s')
      else String a (collapse_ws_acc false s')
  end.
Definition regex_replace_ws (s : string) : string := collapse_ws_acc false s.

(** [LEVENSHTEIN_DISTANCE] (the usual dynamic programme, row by row). *)
Fixpoint lev_next_row (a : ascii) (s2 : string) (prev : list nat) (left : nat) : list nat :=
  match s2, prev with
  | String b s2', p0 :: ((p1 :: _) as prev') =>
      let c := Nat.min (Nat.min (S p1) (S left)) (p0 + if ascii_dec a b then 0 else 1) in
      c :: lev_next_row a s2' prev' c
  | _, _ => []
  end.
Fixpoint lev_rows (s1 s2 : string) (prev : list nat) (i : nat) : list nat :=
  match s1 with
  | EmptyString => prev
  | String a s1' => lev_rows s1' s2 (S i :: lev_next_row a s2 prev (S i)) (S i)
  end.
Definition levenshtein (s1 s2 : string) : nat :=
  List.last (lev_rows s1 s2 (List.seq 0 (S (String.length s2))) 0) 0.

End Str.

(* ------------------------------------------------------------------ *)
(** ** Data model of the bridging engine (src/config.py, src/bridger.py) *)

Definition COL_MODULE : string := "RTL_Module".
Definition COL_PORT : string := "RTL_Port".
Definition COL_SIGNAL : string := "RTL_Signal".
Definition COL_LOGIC : string := "RTL_LogicChunk".
Definition COL_FSM : string := "FSM_StateMachine".
Definition COL_PARAMETER : string := "RTL_Parameter".
Definition COL_MEMORY : string := "RTL_Memory".
Definition COL_CLOCK : string := "ClockDomain".
Definition COL_BUS : string := "BusInterface".

(** A Golden entity as the search view returns it ([_id], [entity_name],
    [description], [entity_type]); a missing or null name or description
    is [""], a null type is [None]. *)
Record Entity := mkEntity {
  ent_id : string;
  ent_name : string;
  ent_desc : string;
  ent_type : option string
}.

(** A structural element: its collection and [_key] (its [_id] is
    [col/_key]), [label], [name], and the [metadata] and
    [interface_type] fields the bridging code reads; [""] stands for a
    missing field. *)
Record Item := mkItem {
  it_col : string;
  it_key : string;
  it_label : string;
  it_name : string;
  it_expanded : string;
  it_summary : string;
  it_description : string;
  it_interface : string
}.

Definition item_id (it : Item) : string := it_col it ++ "/" ++ it_key it.

(** A [RESOLVED_TO] edge. *)
Record ResEdge := mkResEdge {
  e_from : string;
  e_to : string;
  e_score : Q;
  e_method : string;
  e_graph_aware : bool
}.

(** The two query shapes sent to the ArangoSearch view: the per-item query
    of [process_item_to_entity] (bind variables [term], [combined],
    [context], [rtl_desc], the architectural flag, the candidate's
    collection filter being applied by the code) and the per-item
    sub-query of the bulk query (its [norm_label]). *)
Inductive SearchQuery :=
  | InteractiveQ (term combined context rtl_desc : string) (architectural : bool)
  | BulkQ (norm_label : string).

(** The database as the bridging code sees it.  [db_view] is the search
    collaborator: the documents of the Golden entity collection matching
    the query's SEARCH clause, ranked by BM25 ([None]: the query raises).
    [db_traversal_fails] makes the 1..2-hop traversal raise. *)
Record DB := mkDB {
  db_items : string -> list Item;
  db_resolved : list ResEdge;
  db_relations : list (string * string);
  db_view : SearchQuery -> option (list Entity);
  db_traversal_fails : bool
}.

Definition db_set_resolved (db : DB) (r : list ResEdge) : DB :=
  mkDB (db_items db) r (db_relations db) (db_view db) (db_traversal_fails db).

(** [TYPE_COMPATIBILITY] ([None] is Python's [None] / AQL [null]). *)
Definition TYPE_COMPATIBILITY (col : string) : list (option string) :=
  if String.eqb col COL_MODULE then
    [Some "processor_component"; Some "architecture_feature"; Some "memory_unit";
     Some "hardware_interface"; Some "configuration"; Some "UNKNOWN"; None]
  else if String.eqb col COL_PORT then
    [Some "register"; Some "signal"; Some "hardware_interface";
     Some "architecture_feature"; Some "UNKNOWN"; None]
  else if String.eqb col COL_SIGNAL then
    [Some "register"; Some "signal"; Some "architecture_feature"; Some "UNKNOWN"; None]
  else if String.eqb col COL_LOGIC then
    [Some "instruction"; Some "architecture_feature"; Some "configuration";
     Some "exception_type"; Some "UNKNOWN"; None]
  else if String.eqb col COL_BUS then
    [Some "hardware_interface"; Some "bus_protocol"; Some "architecture_feature";
     Some "processor_component"; Some "UNKNOWN"; None]
  else if String.eqb col COL_CLOCK then
    [Some "architecture_feature"; Some "clock_domain"; Some "processor_component";
     Some "UNKNOWN"; None]
  else if String.eqb col COL_FSM then
    [Some "architecture_feature"; Some "state_machine"; Some "processor_component";
     Some "UNKNOWN"; None]
  else if String.eqb col COL_PARAMETER then
    [Some "configuration"; Some "UNKNOWN"; None]
  else if String.eqb col COL_MEMORY then
    [Some "memory_unit"; Some "processor_component"; Some "UNKNOWN"; None]
  else [].

Definition type_compatible (col : string) (t : option string) : bool :=
  bool_decide (t ∈ TYPE_COMPATIBILITY col).

(** The part of the AQL query after SEARCH: [FILTER IS_SAME_COLLECTION]
    (the view answers with Golden entities only), [FILTER doc.entity_type
    IN @compatible_types], [SORT BM25(doc) DESC], [LIMIT 10]. *)
Definition retrieve (col : string) (hits : list Entity) : list Entity :=
  take 10 (filter (fun e => type_compatible col (ent_type e) = true) hits).

Definition is_architectural (col : string) : bool :=
  bool_decide (col ∈ [COL_BUS; COL_CLOCK; COL_FSM; COL_PARAMETER; COL_MEMORY]).

Definition is_port_or_signal (col : string) : bool :=
  bool_decide (col ∈ [COL_PORT; COL_SIGNAL]).

(** Depth 1..2 traversal [FOR v IN 1..2 ANY parent_id Golden_Relations]
    with ArangoDB's default path uniqueness for edges (an edge is not
    followed twice on one path). *)
Definition incident (p : string) (e : string * string) : list string :=
  (if String.eqb e.1 p then [e.2] else []) ++ (if String.eqb e.2 p then [e.1] else []).

Definition hop1 (rels : list (string * string)) (p : string) : list (nat * string) :=
  concat (imap (fun i e => map (fun v => (i, v)) (incident p e)) rels).

Definition traverse12 (rels : list (string * string)) (p : string) : list string :=
  let d1 := hop1 rels p in
  map snd d1 ++
  concat (map (fun iv => map snd (filter (fun jw => negb (Nat.eqb jw.1 iv.1))
                                         (hop1 rels iv.2))) d1).

Definition traverse_all (rels : list (string * string)) (ps : list string) : list string :=
  remove_dups (concat (map (traverse12 rels) ps)).

(** [get_related_entities]: the neighbourhood plus the parents; the
    parents alone when the traversal raises. *)
Definition get_related_entities (db : DB) (parent_ids : list string) : list string :=
  match parent_ids with
  | [] => []
  | _ => if db_traversal_fails db then remove_dups parent_ids
         else remove_dups (traverse_all (db_relations db) parent_ids ++ parent_ids)
  end.

(** [calculate_token_overlap] *)
Definition STOP_WORDS : gset string :=
  list_to_set ["the"; "a"; "an"; "is"; "are"; "of"; "in"; "to"; "for"; "and"; "or";
               "be"; "with"; "on"; "at"; "by"; "this"; "that"; "it"].

Definition token_set (text : string) : gset string :=
  list_to_set (Str.findall_words (Py.lower text)) ∖ STOP_WORDS.

Definition calculate_token_overlap (text1 text2 : string) : Q :=
  match text1, text2 with
  | EmptyString, _ | _, EmptyString => 0
  | _, _ =>
      let t1 := token_set text1 in
      let t2 := token_set text2 in
      if decide (t1 = ∅) then 0 else if decide (t2 = ∅) then 0 else
      let min_len := Nat.min (size t1) (size t2) in
      if Nat.eqb min_len 0 then 0
      else inject_Z (Z.of_nat (size (t1 ∩ t2))) / inject_Z (Z.of_nat min_len)
  end.

(* ------------------------------------------------------------------ *)
(** ** The interactive bridging path: [process_item_to_entity] *)

(** [x > y] on scores. *)
Definition Qgtb (x y : Q) : bool := negb (Qle_bool x y).

(** [max(l, key=len)]: the first element of greatest length. *)
Definition py_max_len (l : list string) : string :=
  match l with
  | [] => ""
  | x :: r => fold_left (fun best s => if Nat.ltb (String.length best) (String.length s)
                                       then s else best) r x
  end.

(** [set(a) <= set(b)] on token lists. *)
Definition token_subset (a b : list string) : bool :=
  forallb (fun t => existsb (String.eqb t) b) a.

(** [matches.sort(key=score, reverse=True); matches[0]]: Python's sort is
    stable, so this is the first match of greatest score. *)
Fixpoint best_match (l : list ResEdge) : option ResEdge :=
  match l with
  | [] => None
  | x :: r =>
      match best_match r with
      | None => Some x
      | Some y => if Qgtb (e_score y) (e_score x) then Some y else Some x
      end
  end.

(** Lexical boost (capped), lines 352-369. *)
Definition lexical_boost (search_terms : list string) (n_cand : string) (score : Q) : Q :=
  let lexical_match :=
    existsb (fun s_term =>
               String.eqb s_term n_cand ||
               (let s_tokens := Str.split_ws s_term in
                let c_tokens := Str.split_ws n_cand in
                token_subset s_tokens c_tokens || token_subset c_tokens s_tokens))
            search_terms in
  if lexical_match then
    Qmax score (if existsb (fun s => String.eqb s n_cand) search_terms then 19#20 else 17#20)
  else if existsb (fun s => Str.contains s n_cand || Str.contains n_cand s) search_terms then
    Qmax score (4#5)
  else score.

(** Context weighting, lines 371-381. *)
Definition context_weight (context_summary cand_desc : string) (score : Q) : Q :=
  match context_summary with
  | EmptyString => score
  | _ =>
      let overlap := calculate_token_overlap context_summary cand_desc in
      if Qgtb overlap 0 then score * (7#10) + overlap * (3#10)
      else score * (9#10)
  end.

Definition in_related (related : list string) (cid : string) : bool :=
  bool_decide (cid ∈ related).

(** Graph-aware context boost, lines 383-391. *)
Definition graph_adjust (related : list string) (cid : string) (score : Q) : Q :=
  match related with
  | [] => score
  | _ => if in_related related cid then Qmin 1 (score * (6#5)) else score * (19#20)
  end.

Section Interactive.

(** [SIMILARITY.compute(doc1, doc2)]: the weighted Jaro-Winkler similarity
    of the external entity-resolution library, on (name, description)
    documents. *)
Variable sim : string * string -> string * string -> Q.

(** The score of one candidate and its [graph_aware] flag (lines 332-402). *)
Definition score_candidate (search_terms : list string)
    (best_source_name source_description context_summary : string)
    (related : list string) (cand : Entity) : Q * bool :=
  let n_cand := normalize (ent_name cand) in
  let cand_desc := ent_desc cand in
  let doc1 := (best_source_name, source_description) in
  let doc2 := (n_cand, match cand_desc with EmptyString => n_cand | _ => cand_desc end) in
  let er_score := sim doc1 doc2 in
  let final_score := lexical_boost search_terms n_cand er_score in
  let final_score := context_weight context_summary cand_desc final_score in
  let final_score := graph_adjust related (ent_id cand) final_score in
  (final_score, in_related related (ent_id cand)).

(** The label: [item.get("label") or item.get("name", "")]. *)
Definition item_label (item : Item) : string :=
  match it_label item with EmptyString => it_name item | l => l end.

(** The search terms of lines 224-239 ([None]: the early [return []]). *)
Definition search_terms_of (item : Item) : option (list string) :=
  let label := item_label item in
  match label with
  | EmptyString => None
  | _ =>
    let search_term := normalize label in
    if Nat.ltb (String.length search_term) 2 then None else
    let terms := [search_term] in
    let terms :=
      match it_expanded item with
      | EmptyString => terms
      | ex => let en := normalize ex in
              if negb (String.eqb en "") && negb (String.eqb en search_term)
              then (terms ++ [en])%list else terms
      end in
    let terms :=
      match it_interface item with
      | EmptyString => terms
      | itf => let inn := normalize itf in
               if negb (String.eqb inn "") && negb (bool_decide (inn ∈ terms))
               then (terms ++ [inn])%list else terms
      end in
    Some terms
  end.

(** [process_item_to_entity(db, item, view, threshold, method,
    context_summary, parent_entity_ids)]; [parent_label] is the item's
    [parent_label] field.  [None]: the candidate query raised. *)
Definition process_item_to_entity (db : DB) (item : Item) (parent_label : string)
    (threshold : Q) (method context_summary : string)
    (parent_entity_ids : option (list string)) : option (list ResEdge) :=
  match search_terms_of item with
  | None => Some []
  | Some search_terms =>
    let label := item_label item in
    let search_term := hd "" search_terms in
    let rtl_description :=
      match it_summary item with EmptyString => it_description item | s => s end in
    let combined_search := Str.join_space search_terms in
    let best_source_name := py_max_len search_terms in
    let source_description :=
      label ++ (match parent_label with
                | EmptyString => "" | p => " in " ++ normalize p end)
            ++ (match rtl_description with EmptyString => "" | r => " " ++ r end) in
    let source_col := it_col item in
    let related_entities :=
      match parent_entity_ids with
      | Some ((_ :: _) as ps) => get_related_entities db ps
      | _ => []
      end in
    match db_view db (InteractiveQ search_term combined_search context_summary
                                   rtl_description (is_architectural source_col)) with
    | None => None
    | Some hits =>
      let candidates := retrieve source_col hits in
      let matches :=
        flat_map (fun cand =>
          let '(final_score, ga) :=
            score_candidate search_terms best_source_name source_description
                            context_summary related_entities cand in
          if Qgtb final_score threshold
          then [mkResEdge (item_id item) (ent_id cand) final_score method ga]
          else []) candidates in
      Some (match best_match matches with Some m => [m] | None => [] end)
    end
  end.

End Interactive.

(* ------------------------------------------------------------------ *)
(** ** [bridge_collection_parallel] and [bridge_all] (src/bridger.py) *)

(** The result of a stage: it returns normally, or raises an exception
    which propagates to the caller; in both cases the database as it is at
    that point. *)
Inductive Outcome :=
  | Done (db : DB)
  | Raised (db : DB).

Definition outcome_db (o : Outcome) : DB :=
  match o with Done db => db | Raised db => db end.

(** The pre-fetched [module_summaries] and [module_labels] (keyed by
    module label) and [module_resolved_entities] (keyed by the module's
    key). *)
Definition module_summaries (db : DB) : gmap string string :=
  fold_left (fun m it => <[it_label it := it_summary it]> m) (db_items db COL_MODULE) ∅.

Definition module_labels (db : DB) : gmap string string :=
  fold_left (fun m it => <[it_label it := it_label it]> m) (db_items db COL_MODULE) ∅.

Definition MODULE_PREFIX : string := COL_MODULE ++ "/".

Definition module_resolved_entities (db : DB) : gmap string (list string) :=
  fold_left (fun m e =>
               if String.prefix MODULE_PREFIX (e_from e) then
                 let name := List.nth 1 (Py.split_char "/" (e_from e)) "" in
                 <[name := (default [] (m !! name) ++ [e_to e])%list]> m
               else m) (db_resolved db) ∅.

(** The per-item context of lines 453-470: [(context, parent_label,
    parent_entity_ids)]. *)
Definition item_context (db : DB) (col : string) (item : Item)
    : string * string * option (list string) :=
  if is_port_or_signal col then
    match Py.split_char "." (it_key item) with
    | mod_name :: _ :: _ =>
        (default "" (module_summaries db !! mod_name),
         default "" (module_labels db !! mod_name),
         module_resolved_entities db !! mod_name)
    | _ => ("", "", None)
    end
  else ("", "", None).

Section Collections.

Variable sim : string * string -> string * string -> Q.

(** What one worker computes for [item] in [bridge_collection_parallel]. *)
Definition bridge_worker (db : DB) (col : string) (threshold : Q) (method : string)
    (item : Item) : option (list ResEdge) :=
  let '(context, parent_label, parent_entity_ids) := item_context db col item in
  process_item_to_entity sim db item parent_label threshold method context parent_entity_ids.

(** The fan-in loop [for future in as_completed(futures): results =
    future.result()]: the first failed worker re-raises.  The items are
    taken in collection order; another completion order only permutes the
    edges of the batch. *)
Fixpoint collect_results (rs : list (option (list ResEdge))) : option (list ResEdge) :=
  match rs with
  | [] => Some []
  | None :: _ => None
  | Some r :: rs' =>
      match collect_results rs' with
      | None => None
      | Some t => Some (r ++ t)%list
      end
  end.

(** Lines 488-494: nothing is written for an empty batch; otherwise the
    edge collection is truncated when asked, then the batch is appended by
    [import_bulk] (new documents, fresh keys). *)
Definition write_edges (db : DB) (truncate : bool) (edges : list ResEdge) : DB :=
  match edges with
  | [] => db
  | _ => db_set_resolved db ((if truncate then [] else db_resolved db) ++ edges)%list
  end.

Definition bridge_collection_parallel (db : DB) (col : string) (threshold : Q)
    (method : string) (truncate : bool) : Outcome :=
  match collect_results (map (bridge_worker db col threshold method) (db_items db col)) with
  | None => Raised db
  | Some edges => Done (write_edges db truncate edges)
  end.

(** The stages of [bridge_all] that write [RESOLVED_TO] (stage 4 writes
    [REFERENCES] only): collection, threshold, method, truncate. *)
Definition BRIDGE_STAGES : list (string * Q * string * bool) :=
  [(COL_BUS, 1#2, "arch_bridging_bus", true);
   (COL_CLOCK, 1#2, "arch_bridging_clock", false);
   (COL_FSM, 1#2, "arch_bridging_fsm", false);
   (COL_PARAMETER, 1#2, "arch_bridging_param", false);
   (COL_MEMORY, 1#2, "arch_bridging_mem", false);
   (COL_MODULE, 7#10, "module_bridging_v2_poly", false);
   (COL_PORT, 3#5, "deep_bridging_v2_p", false);
   (COL_SIGNAL, 3#5, "deep_bridging_v2_s", false)].

Fixpoint run_stages (stages : list (string * Q * string * bool)) (db : DB) : Outcome :=
  match stages with
  | [] => Done db
  | (col, th, meth, tr) :: rest =>
      match bridge_collection_parallel db col th meth tr with
      | Done db' => run_stages rest db'
      | Raised db' => Raised db'
      end
  end.

Definition bridge_all (db : DB) : Outcome := run_stages BRIDGE_STAGES db.

End Collections.

(* ------------------------------------------------------------------ *)
(** ** The bulk bridging path (src/bridger_bulk.py) *)

(** [normalize_name_aql(x)] as written:
    [LOWER(TRIM(SUBSTITUTE(SUBSTITUTE(x, '_', ' '),
                           REGEX_REPLACE(x, '\\s+', ' ', true), ' ')))]. *)
Definition normalize_name_aql (x : string) : string :=
  Str.aql_lower (Str.aql_trim
    (Str.aql_substitute (Str.aql_substitute x "_" " ") (Str.regex_replace_ws x) " ")).

Definition Q_of_nat (n : nat) : Q := inject_Z (Z.of_nat n).

(** [approximate_jaro_winkler_aql(a, b)] *)
Definition approximate_jaro_winkler (a b : string) : Q :=
  1 - Q_of_nat (Str.levenshtein a b) /
      Q_of_nat (Nat.max (Nat.max (String.length a) (String.length b)) 1).

(** The per-candidate part of the bulk query: [(final_score, graph_aware)]. *)
Definition bulk_score (col norm_label : string) (related : list string) (cand : Entity)
    : Q * bool :=
  let norm_cand_name := normalize_name_aql (ent_name cand) in
  let base_score := approximate_jaro_winkler norm_label norm_cand_name in
  let is_exact_match := String.eqb norm_label norm_cand_name in
  let is_substring := Str.contains norm_label norm_cand_name ||
                      Str.contains norm_cand_name norm_label in
  let lexical_boost := if is_exact_match then 19#20
                       else if is_substring then 4#5 else base_score in
  let score_with_lexical := Qmax base_score lexical_boost in
  let graph_boost : Q :=
    if is_port_or_signal col then
      match related with
      | [] => 1%Q
      | _ => if in_related related (ent_id cand) then 6#5 else 19#20
      end
    else 1%Q in
  (score_with_lexical * graph_boost, Qgtb graph_boost 1)%Q.

(** The label field of the bulk query. *)
Definition bulk_label (col : string) (item : Item) : string :=
  if is_architectural col then it_name item else it_label item.

(** The bulk query for one item: [Some None] when the item is filtered out
    or has no match, [None] when the query raises. *)
Definition bulk_item (db : DB) (col : string) (threshold : Q) (method : string)
    (item : Item) : option (option ResEdge) :=
  let item_label := bulk_label col item in
  if Nat.ltb (String.length item_label) 2 then Some None else
  let norm_label := normalize_name_aql item_label in
  let parent_entities :=
    if is_port_or_signal col then
      let module_name := hd "" (Py.split_char "." (it_key item)) in
      let module_id := MODULE_PREFIX ++ module_name in
      map e_to (filter (fun e => String.eqb (e_from e) module_id) (db_resolved db))
    else [] in
  let related :=
    match parent_entities with
    | [] => Some []
    | _ => if db_traversal_fails db then None
           else Some (traverse_all (db_relations db) parent_entities)
    end in
  match related, db_view db (BulkQ norm_label) with
  | Some related, Some hits =>
      let candidates :=
        flat_map (fun cand =>
          let '(final_score, ga) := bulk_score col norm_label related cand in
          if Qgtb final_score threshold
          then [mkResEdge (item_id item) (ent_id cand) final_score method ga]
          else []) (retrieve col hits) in
      Some (best_match candidates)
  | _, _ => None
  end.

Fixpoint collect_bulk (rs : list (option (option ResEdge))) : option (list ResEdge) :=
  match rs with
  | [] => Some []
  | None :: _ => None
  | Some o :: rs' =>
      match collect_bulk rs' with
      | None => None
      | Some t => Some (match o with Some e => e :: t | None => t end)
      end
  end.

(** [bulk_bridge_collection]: one query for the whole collection; an error
    is logged and re-raised. *)
Definition bulk_bridge_collection (db : DB) (col : string) (threshold : Q)
    (method : string) (truncate : bool) : Outcome :=
  match collect_bulk (map (bulk_item db col threshold method) (db_items db col)) with
  | None => Raised db
  | Some edges => Done (write_edges db truncate edges)
  end.

(* ------------------------------------------------------------------ *)
(** ** Concrete stores used to evaluate the code *)

Module Fixtures.

Definition G1 : Entity := mkEntity "Golden_Entities/G1" "alu" "" (Some "processor_component").
Definition G2 : Entity := mkEntity "Golden_Entities/G2" "result" "" (Some "signal").

Definition alu_module : Item := mkItem COL_MODULE "alu" "alu" "" "" "" "" "".
Definition alu_result_port : Item := mkItem COL_PORT "alu.result" "result" "" "" "" "" "".

(** Module [alu] is resolved to [G1]; [G2] is related to [G1].  The
    interactive query for ["result"] hits [G2] ([entity_name == @term]);
    the bulk query, whose [norm_label] is [""], hits every entity
    ([LIKE '%%']). *)
Definition graph_db : DB :=
  mkDB (fun col => if String.eqb col COL_MODULE then [alu_module]
                   else if String.eqb col COL_PORT then [alu_result_port] else [])
       [mkResEdge "RTL_Module/alu" (ent_id G1) 1 "module_bridging_v2_poly" false]
       [(ent_id G1, ent_id G2)]
       (fun q => match q with
                 | InteractiveQ _ _ _ _ _ => Some [G2]
                 | BulkQ _ => Some [G1; G2]
                 end)
       false.

Definition CLK : Entity := mkEntity "Golden_Entities/CLK" "clk" "" (Some "clock_domain").
Definition clk_item : Item := mkItem COL_CLOCK "top.clk" "" "clk" "" "" "" "".
Definition bad_item : Item := mkItem COL_CLOCK "top.bad" "" "bad" "" "" "" "".

(** Two clock domains; the search query for ["bad"] raises. *)
Definition failing_db : DB :=
  mkDB (fun col => if String.eqb col COL_CLOCK then [clk_item; bad_item] else [])
       []
       []
       (fun q => match q with
                 | InteractiveQ t _ _ _ _ => if String.eqb t "bad" then None else Some [CLK]
                 | BulkQ _ => Some [CLK]
                 end)
       false.

(** A store left by a previous run: [clk_item] already has its edge, and
    there is no bus interface (so stage 1 writes nothing). *)
Definition rerun_db : DB :=
  mkDB (fun col => if String.eqb col COL_CLOCK then [clk_item] else [])
       [mkResEdge (item_id clk_item) (ent_id CLK) (19#20) "arch_bridging_clock" false]
       []
       (fun _ => Some [CLK])
       false.

(** A "medication" entity named exactly like the port [alu.result],
    returned first by both searches. *)
Definition MED : Entity := mkEntity "Golden_Entities/MED" "result" "" (Some "medication").

Definition med_db : DB :=
  mkDB (db_items graph_db) (db_resolved graph_db) (db_relations graph_db)
       (fun _ => Some [MED; G2]) false.

(** Module [alu] is resolved to [G2] itself (a signal named like the
    port), which is related to [G1]; both searches hit [G2]. *)
Definition parent_db : DB :=
  mkDB (db_items graph_db)
       [mkResEdge "RTL_Module/alu" (ent_id G2) 1 "module_bridging_v2_poly" false]
       [(ent_id G2, ent_id G1)]
       (fun _ => Some [G2])
       false.

(** A processor component named "fpu", found by both searches for the
    module [alu] (e.g. through its description). *)
Definition FPU : Entity := mkEntity "Golden_Entities/FPU" "fpu" "" (Some "processor_component").

Definition collapse_db : DB :=
  mkDB (db_items graph_db) [] [] (fun _ => Some [FPU]) false.

End Fixtures.

(** What an emitted edge is made of: it leaves [src], scores above the
    threshold and points to a candidate retrieved for the collection. *)
Definition edge_from_candidate (db : DB) (col src : string) (th : Q) (e : ResEdge) : Prop :=
  e_from e = src /\ Qgtb (e_score e) th = true /\
  exists q hits cand, db_view db q = Some hits /\ cand ∈ retrieve col hits /\
                      e_to e = ent_id cand.


(** The resolution edges of the store leaving [src]. *)
Definition edges_from (db : DB) (src : string) : list ResEdge :=
  filter (fun e => String.eqb (e_from e) src) (db_resolved db).


(* ------------------------------------------------------------------ *)
(** ** Fuzzy consolidation, stage 2 (src/consolidator.py) *)

Definition COL_GOLDEN_ENTITIES : string := "Golden_Entities".

(** A golden entity; [g_merge_count] is the [fuzzy_merged_count] of its
    metadata. *)
Record GoldenEntity := mkGolden {
  g_key : string;
  g_name : string;
  g_type : option string;
  g_desc : string;
  g_aliases : list string;
  g_merge_count : option nat
}.

Definition g_id (e : GoldenEntity) : string := COL_GOLDEN_ENTITIES ++ "/" ++ g_key e.

(** The golden-entity collection (in collection order) and the
    [CONSOLIDATES] edges, as [(_from, _to)]. *)
Record GStore := mkGStore {
  gs_entities : list GoldenEntity;
  gs_consolidates : list (string * string)
}.

(** One document returned by [fuzzy_query]. *)
Record FuzzyCand := mkCand {
  c_id1 : string; c_name1 : string;
  c_id2 : string; c_name2 : string;
  c_lev : nat; c_overlap : Q; c_confidence : Q
}.

(** The [LET]s of the query computed from [norm1] and [norm2]. *)
Record PairMetrics := mkMetrics {
  pm_lev : nat; pm_overlap : Q; pm_name_length : nat; pm_confidence : Q
}.

Section Fuzzy.

(** The server's [TOKENS(x, "text_en")] analyzer and its
    [LEVENSHTEIN_DISTANCE]. *)
Variable tokens : string -> list string.
Variable edit_distance : string -> string -> nat.

(** [LOWER(TRIM(e.entity_name))] *)
Definition fuzzy_norm (name : string) : string := Str.aql_lower (Str.aql_trim name).

(** [INTERSECTION(tokens1, tokens2)]: the distinct values found in both. *)
Definition aql_intersection (l1 l2 : list string) : list string :=
  remove_dups (filter (fun t => t ∈ l2) l1).

Definition pair_metrics (norm1 norm2 : string) : PairMetrics :=
  let lev_dist := edit_distance norm1 norm2 in
  let tokens1 := tokens norm1 in
  let tokens2 := tokens norm2 in
  let token_intersection := length (aql_intersection tokens1 tokens2) in
  let min_tokens := Nat.min (length tokens1) (length tokens2) in
  let token_overlap : Q :=
    if Nat.ltb 0 min_tokens then (Q_of_nat token_intersection / Q_of_nat min_tokens)%Q
    else 0%Q in
  let name_length := Nat.min (String.length norm1) (String.length norm2) in
  let lev_score : Q := (1 - Q_of_nat lev_dist / Q_of_nat (Nat.max name_length 1))%Q in
  let confidence : Q :=
    if Nat.leb name_length 5 then lev_score
    else (lev_score * (3#5) + token_overlap * (2#5))%Q in
  mkMetrics lev_dist token_overlap name_length confidence.

(** The body of the nested [FOR e1 ... FOR e2] loop: its [FILTER]s, then
    the returned document. *)
Definition fuzzy_pair (max_distance : nat) (min_confidence : Q) (e1 e2 : GoldenEntity)
    : option FuzzyCand :=
  let norm1 := fuzzy_norm (g_name e1) in
  let norm2 := fuzzy_norm (g_name e2) in
  let m := pair_metrics norm1 norm2 in
  let is_prefix := String.prefix norm2 norm1 || String.prefix norm1 norm2 in
  let both_short := Nat.ltb (pm_name_length m) 4 in
  if String.ltb (g_key e1) (g_key e2) &&
     bool_decide (g_type e1 = g_type e2) &&
     Nat.leb (pm_lev m) max_distance && Nat.ltb 0 (pm_lev m) &&
     Qle_bool min_confidence (pm_confidence m) &&
     negb (is_prefix && both_short)
  then Some (mkCand (g_id e1) (g_name e1) (g_id e2) (g_name e2)
                    (pm_lev m) (pm_overlap m) (pm_confidence m))
  else None.

(** [SORT confidence DESC] *)
Definition conf_desc (c1 c2 : FuzzyCand) : Prop := Qle_bool (c_confidence c2) (c_confidence c1) = true.

#[global] Instance conf_desc_dec : RelDecision conf_desc.
Proof. intros c1 c2. unfold conf_desc. apply _. Defined.

Definition fuzzy_candidates (s : GStore) (max_distance : nat) (min_confidence : Q)
    : list FuzzyCand :=
  merge_sort conf_desc
    (flat_map (fun e1 =>
       flat_map (fun e2 => option_list (fuzzy_pair max_distance min_confidence e1 e2))
                (gs_entities s)) (gs_entities s)).

End Fuzzy.

(** The union-find of lines 277-291, on the dict [parent].  [find] is
    recursive with path compression; its recursion depth is bounded by the
    length of the parent chain, which never exceeds the size of [parent]
    plus one, so [S (size parent)] calls suffice (proved below). *)
Abbreviation UF := (gmap string string) (only parsing).

Fixpoint find_fuel (fuel : nat) (parent : UF) (x : string) : UF * string :=
  match fuel with
  | O => (parent, x)
  | S f =>
    let parent := match parent !! x with None => <[x := x]> parent | Some _ => parent end in
    let px := default x (parent !! x) in
    if String.eqb px x then (parent, px)
    else let '(parent', r) := find_fuel f parent px in (<[x := r]> parent', r)
  end.

Definition find (parent : UF) (x : string) : UF * string :=
  find_fuel (S (size parent)) parent x.

Definition union (parent : UF) (x y : string) : UF :=
  let '(parent1, px) := find parent x in
  let '(parent2, py) := find parent1 y in
  if String.eqb px py then parent2 else <[px := py]> parent2.

(** [for cand in candidates: union(cand['entity1_id'], cand['entity2_id'])] *)
Definition union_all (parent : UF) (cands : list FuzzyCand) : UF :=
  fold_left (fun p c => union p (c_id1 c) (c_id2 c)) cands parent.

(** [merge_groups], a [defaultdict(list)] kept in insertion order. *)
Fixpoint group_append (k : string) (vs : list string) (g : list (string * list string))
    : list (string * list string) :=
  match g with
  | [] => [(k, vs)]
  | (k', vs') :: g' =>
      if String.eqb k k' then (k', vs' ++ vs)%list :: g' else (k', vs') :: group_append k vs g'
  end.

(** [for cand in candidates: root = find(cand['entity1_id']); ...] *)
Fixpoint group_loop (parent : UF) (cands : list FuzzyCand) (g : list (string * list string))
    : UF * list (string * list string) :=
  match cands with
  | [] => (parent, g)
  | c :: cs =>
      let '(parent', root) := find parent (c_id1 c) in
      group_loop parent' cs (group_append root [c_id1 c; c_id2 c] g)
  end.

(** [{k: list(set(v)) for k, v in merge_groups.items()}] *)
Definition dedup_groups (g : list (string * list string)) : list (string * list string) :=
  (fun '(k, vs) => (k, remove_dups vs)) <$> g.

(** The key [(len(e['entity_name']), e['entity_name'])] of [max]. *)
Definition primary_key_lt (a b : GoldenEntity) : bool :=
  Nat.ltb (String.length (g_name a)) (String.length (g_name b)) ||
  (Nat.eqb (String.length (g_name a)) (String.length (g_name b)) &&
   String.ltb (g_name a) (g_name b)).

(** Python's [max(entities, key=...)]: the first maximal element; [None]
    for an empty list ([max] raises). *)
Definition py_max_primary (ents : list GoldenEntity) : option GoldenEntity :=
  match ents with
  | [] => None
  | e :: rest => Some (fold_left (fun best x => if primary_key_lt best x then x else best) rest e)
  end.

(** [fetch_query]: the entities whose [_id] is in [entity_ids], in
    collection order. *)
Definition fetch (s : GStore) (ids : list string) : list GoldenEntity :=
  filter (fun e => g_id e ∈ ids) (gs_entities s).

(** The body of the merge loop for one group: [None] when [max] raises. *)
Definition merge_group (s : GStore) (entity_ids : list string) : option (GStore * nat) :=
  if Nat.ltb (length entity_ids) 2 then Some (s, 0) else
  let entities := fetch s entity_ids in
  match py_max_primary entities with
  | None => None
  | Some primary =>
    let secondaries := filter (fun e => g_id e <> g_id primary) entities in
    let all_aliases :=
      (g_aliases primary ++ concat (map (fun sec => g_aliases sec ++ [g_name sec]) secondaries))%list in
    let all_descriptions :=
      (g_desc primary :: filter (fun d => d <> "") (map g_desc secondaries))%list in
    let all_aliases := remove_dups (filter (fun a => a <> g_name primary) all_aliases) in
    let combined_description := String.concat " | " (filter (fun d => d <> "") all_descriptions) in
    let updated e :=
      if String.eqb (g_key e) (g_key primary)
      then mkGolden (g_key e) (g_name e) (g_type e) combined_description all_aliases
                    (Some (length secondaries))
      else e in
    let repoint '(f, t) :=
      if existsb (fun sec => String.eqb f (g_id sec)) secondaries then (g_id primary, t) else (f, t) in
    let sec_keys := map g_key secondaries in
    let ents := filter (fun e => g_key e ∉ sec_keys) (map updated (gs_entities s)) in
    Some (mkGStore ents (map repoint (gs_consolidates s)), length secondaries)
  end.

Fixpoint merge_all (s : GStore) (merged : nat) (groups : list (string * list string))
    : option (GStore * nat) :=
  match groups with
  | [] => Some (s, merged)
  | (_, ids) :: gs =>
      match merge_group s ids with
      | None => None
      | Some (s', n) => merge_all s' (merged + n) gs
      end
  end.

(** Lines 277-303: the union-find over the candidate pairs, the grouping
    by root and the deduplication of each group. *)
Definition fuzzy_merge_groups (candidates : list FuzzyCand) : list (string * list string) :=
  let parent := union_all ∅ candidates in
  let '(_, merge_groups) := group_loop parent candidates [] in
  dedup_groups merge_groups.

Section FuzzyStage.

Variable tokens : string -> list string.
Variable edit_distance : string -> string -> nat.

(** [consolidate_fuzzy_stage2(db, levenshtein_distance, min_confidence,
    dry_run)]: the candidates returned, the resulting store and the number
    of merged entities; [None] when the merge loop raises. *)
Definition consolidate_fuzzy_stage2 (s : GStore) (levenshtein_distance : nat)
    (min_confidence : Q) (dry_run : bool) : option (list FuzzyCand * GStore * nat) :=
  let candidates := fuzzy_candidates tokens edit_distance s levenshtein_distance min_confidence in
  if dry_run || Nat.eqb (length candidates) 0 then Some (candidates, s, 0) else
  match merge_all s 0 (fuzzy_merge_groups candidates) with
  | None => None
  | Some (s', merged_count) => Some (candidates, s', merged_count)
  end.

End FuzzyStage.


(* ------------------------------------------------------------------ *)
(** ** Concrete golden-entity stores *)

Module FuzzyFixtures.

Definition golden (key name : string) (ty : option string) : GoldenEntity :=
  mkGolden key name ty "" [] None.

(** Two signals named "abc" and "abcd". *)
Definition abc : GoldenEntity := golden "k1" "abc" (Some "signal").
Definition abcd : GoldenEntity := golden "k2" "abcd" (Some "signal").

(** Three signals one edit apart from each other, and one consolidation
    edge out of the second. *)
Definition fuzzy_store : GStore :=
  mkGStore [golden "k1" "abcde" (Some "signal"); golden "k2" "abcdf" (Some "signal");
            golden "k3" "abcdg" (Some "signal")]
           [("Golden_Entities/k2", "Entities/e7")].

End FuzzyFixtures.


(** The root reached from [x] by following [parent] in [n] steps; a key
    absent from [parent] is a root, as [find] makes it one. *)
Inductive root_n (parent : UF) : nat -> string -> string -> Prop :=
| rn_absent x : parent !! x = None -> root_n parent 0 x x
| rn_self x : parent !! x = Some x -> root_n parent 0 x x
| rn_step n x y r : parent !! x = Some y -> y <> x -> root_n parent n y r ->
                    root_n parent (S n) x r.

Definition root_of (parent : UF) (x r : string) : Prop := exists n, root_n parent n x r.

(** Every chain of [parent] ends in a root. *)
Definition uf_wf (parent : UF) : Prop := forall x, exists r, root_of parent x r.


(** [merge_groups] keyed by roots: distinct keys, and every id listed
    under the key of its root. *)
Definition groups_rooted (parent : UF) (g : list (string * list string)) : Prop :=
  NoDup g.*1 /\ forall k vs, (k, vs) ∈ g -> forall v, v ∈ vs -> root_of parent v k.

(** The ids of the candidate pairs. *)
Definition cand_ids (cands : list FuzzyCand) (v : string) : Prop :=
  exists c, c ∈ cands /\ (v = c_id1 c \/ v = c_id2 c).



(* ------------------------------------------------------------------ *)
(** ** The other helpers of src/utils.py *)

Module Utils.

(** [sanitize_id(raw_id)], step 1: [re.sub(r'\b(reg|wire|input|output|assign)\b', '', s)].
    A keyword is removed where it starts after a non-word character (or at
    the start) and ends before a non-word character (or at the end); the
    boundaries are those of the original string, scanning left to right.
    No keyword is a prefix of another, so the first alternative that
    matches is the only one. *)
Definition KEYWORDS : list string := ["reg"; "wire"; "input"; "output"; "assign"].

Definition boundary_after (kw s : string) : bool :=
  match Py.sdrop (String.length kw) s with
  | EmptyString => true
  | String b _ => negb (Str.is_word b)
  end.

Definition keyword_at (s : string) : option string :=
  List.find (fun kw => String.prefix kw s && boundary_after kw s) KEYWORDS.

(** [skip]: characters of a removed keyword still to drop; [prev_word]:
    whether the previous character of the original string is a word
    character. *)
Fixpoint remove_keywords (skip : nat) (prev_word : bool) (s : string) : string :=
  match s with
  | EmptyString => EmptyString
  | String a s' =>
      match skip with
      | S k => remove_keywords k (Str.is_word a) s'
      | 0 =>
          match (if prev_word then None else keyword_at s) with
          | Some kw => remove_keywords (pred (String.length kw)) (Str.is_word a) s'
          | None => String a (remove_keywords 0 (Str.is_word a) s')
          end
      end
  end.

(** Step 2: [re.sub(r'[\s\t\n\r]+', '', s)]. *)
Fixpoint remove_spaces (s : string) : string :=
  match s with
  | EmptyString => EmptyString
  | String a s' => if Py.is_space a then remove_spaces s' else String a (remove_spaces s')
  end.

(** The characters kept by step 3: [a-zA-Z0-9_\-:\.]. *)
Definition is_key_char (c : ascii) : bool :=
  let n := nat_of_ascii c in
  (Nat.leb 48 n && Nat.leb n 57) || (Nat.leb 65 n && Nat.leb n 90) ||
  (Nat.leb 97 n && Nat.leb n 122) || Nat.eqb n 95 || Nat.eqb n 45 ||
  Nat.eqb n 58 || Nat.eqb n 46.

(** Step 3: [re.sub(r'[^a-zA-Z0-9_\-:\.]', '_', s)]. *)
Definition replace_illegal (s : string) : string :=
  Py.smap (fun c => if is_key_char c then c else "_"%char) s.

(** [s.lstrip(c)], [s.rstrip(c)], [s.strip(c)] for one character [c]. *)
Fixpoint lstrip_ch (c : ascii) (s : string) : string :=
  match s with
  | EmptyString => EmptyString
  | String a s' => if ascii_dec a c then lstrip_ch c s' else s
  end.

Fixpoint rstrip_ch (c : ascii) (s : string) : string :=
  match s with
  | EmptyString => EmptyString
  | String a s' =>
      match rstrip_ch c s' with
      | EmptyString => if ascii_dec a c then EmptyString else String a EmptyString
      | r => String a r
      end
  end.

Definition strip_ch (c : ascii) (s : string) : string := lstrip_ch c (rstrip_ch c s).

(** [sanitize_id(raw_id)] ([None] for Python's [None]). *)
Definition sanitize_id (raw_id : option string) : string :=
  match raw_id with
  | None | Some EmptyString => ""
  | Some raw =>
      let clean := remove_keywords 0 false raw in
      let clean := remove_spaces clean in
      let clean := replace_illegal clean in
      strip_ch "_" clean
  end.

(** [strip_comments(text)], step 1: [re.sub(r'/\*.*?\*/', '', text,
    flags=re.DOTALL)]: from the leftmost [/*], the shortest text up to the
    next [*/] is removed; a [/*] never closed is kept, and the scan goes
    on at the next character. *)
Fixpoint after_close (s : string) : option string :=
  match s with
  | EmptyString => None
  | String a s' => if String.prefix "*/" s then Some (Py.sdrop 2 s) else after_close s'
  end.

Fixpoint strip_block_fuel (fuel : nat) (s : string) : string :=
  match fuel with
  | 0 => s
  | S fuel' =>
      match s with
      | EmptyString => EmptyString
      | String a s' =>
          match (if String.prefix "/*" s then after_close (Py.sdrop 2 s) else None) with
          | Some rest => strip_block_fuel fuel' rest
          | None => String a (strip_block_fuel fuel' s')
          end
      end
  end.

Definition strip_block (s : string) : string := strip_block_fuel (S (String.length s)) s.

Definition NL : ascii := ascii_of_nat 10.

(** Step 2: [re.sub(r'//.*', '', text)]: from each [//] to the end of its
    line ([.] does not match a newline, which is kept). *)
Fixpoint strip_line (in_comment : bool) (s : string) : string :=
  match s with
  | EmptyString => EmptyString
  | String a s' =>
      if in_comment then
        if ascii_dec a NL then String a (strip_line false s') else strip_line true s'
      else if String.prefix "//" s then strip_line true s'
      else String a (strip_line false s')
  end.

Definition strip_comments (text : string) : string := strip_line false (strip_block text).

(** [expand_acronym(name, acronym_dict)].  [re.split(r'(_|(?=[A-Z]))', name)]
    cuts at every [_] (returned as a separator piece) and before every
    upper-case letter (an empty separator); the loop skips the empty
    pieces and the [_] pieces, so it sees the maximal pieces between two
    cuts, without [_], that are not empty. *)
Fixpoint split_pieces (cur : string) (s : string) : list string :=
  match s with
  | EmptyString => [cur]
  | String a s' =>
      if ascii_dec a "_" then cur :: split_pieces EmptyString s'
      else if Py.is_upper a then cur :: split_pieces (String a EmptyString) s'
      else split_pieces (cur ++ String a EmptyString) s'
  end.

Definition acronym_tokens (name : string) : list string :=
  filter (fun t => t <> "") (split_pieces EmptyString name).

(** The loop over the tokens: [(expanded_tokens, changed)]. *)
Definition expand_loop (acronym_dict : gmap string string) (tokens : list string)
    : list string * bool :=
  fold_left (fun '(acc, changed) t =>
               match acronym_dict !! Py.lower t with
               | Some v => ((acc ++ [v])%list, true)
               | None => ((acc ++ [t])%list, changed)
               end) tokens ([], false).

Definition expand_acronym (name : string) (acronym_dict : gmap string string) : option string :=
  if decide (acronym_dict = ∅) then None else
  match name with
  | EmptyString => None
  | _ =>
      let '(expanded_tokens, changed) := expand_loop acronym_dict (acronym_tokens name) in
      if changed then Some (Str.join_space expanded_tokens) else None
  end.

End Utils.

(** The shape of the pieces [expand_acronym] looks up: no [_], and an
    upper-case letter at most in first position. *)
Definition piece_ok (t : string) : Prop :=
  Py.has_char "_" t = false /\
  match t with EmptyString => True | String _ u => Py.all_chars (fun c => negb (Py.is_upper c)) u = true end.

(* ------------------------------------------------------------------ *)
(** ** [bridge_modules_only] (src/bridger_bulk.py) *)

Definition bridge_modules_only (db : DB) : Outcome :=
  bulk_bridge_collection db COL_MODULE (7#10) "bulk_module_v1" true.

(* ------------------------------------------------------------------ *)
(** ** Logic-chunk reference bridging (src/bridger.py, stage 4 of
    [bridge_all]) *)

(** A logic chunk: its [_id] and its [metadata.code] ([""] when missing). *)
Record LogicChunk := mkChunk { lc_id : string; lc_code : string }.

(** One document of the search query: [{id, score}]. *)
Record LogicHit := mkHit { h_id : string; h_score : Q }.

(** A [REFERENCES] edge. *)
Record RefEdge := mkRef { r_from : string; r_to : string; r_score : Q; r_method : string }.

(** The logic chunks, the [REFERENCES] edges, and the search view: for a
    set of terms, the chunk documents matching
    [SEARCH ANALYZER(doc.content IN @terms, "text_en")], ranked by BM25
    ([None]: the query raises).  The query only depends on the set of
    terms, so the order of [list(set(identifiers))] does not matter. *)
Record LogicDB := mkLogicDB {
  ldb_chunks : list LogicChunk;
  ldb_references : list RefEdge;
  ldb_view : gset string -> option (list LogicHit)
}.

Definition is_digit (c : ascii) : bool :=
  let n := nat_of_ascii c in Nat.leb 48 n && Nat.leb n 57.

(** [re.findall(r'\b[a-zA-Z_][a-zA-Z0-9_]{3,}\b', code)]: a match starts
    at a word boundary and the greedy [{3,}] runs to the end of the word,
    so the matches are the words ([\w+] runs) of at least four characters
    that do not start with a digit. *)
Definition is_identifier (w : string) : bool :=
  match w with
  | EmptyString => false
  | String a _ => negb (is_digit a) && Nat.leb 4 (String.length w)
  end.

Definition find_identifiers (code : string) : list string :=
  List.filter is_identifier (Str.findall_words code).

Definition LOGIC_METHOD : string := "logic_references_bm25_v2".

(** [process_logic_chunk(db, chunk, view_name)] ([None]: the query
    raises): [LIMIT 2], then the candidates scoring above 5. *)
Definition process_logic_chunk (view : gset string -> option (list LogicHit))
    (chunk : LogicChunk) : option (list RefEdge) :=
  match lc_code chunk with
  | EmptyString => Some []
  | code =>
      match find_identifiers code with
      | [] => Some []
      | identifiers =>
          let search_terms : gset string := list_to_set identifiers in
          match view search_terms with
          | None => None
          | Some candidates =>
              Some (flat_map (fun cand =>
                      if Qgtb (h_score cand) 5
                      then [mkRef (lc_id chunk) (h_id cand) (h_score cand) LOGIC_METHOD]
                      else []) (take 2 candidates))
          end
      end
  end.

(** The fan-in loop: [future.result()] re-raises the first failure. *)
Fixpoint collect_refs (rs : list (option (list RefEdge))) : option (list RefEdge) :=
  match rs with
  | [] => Some []
  | None :: _ => None
  | Some r :: rs' =>
      match collect_refs rs' with
      | None => None
      | Some t => Some (r ++ t)%list
      end
  end.

(** [bridge_logic_parallel(db, view_name)] ([None]: it raises, before
    anything is written).  [REFERENCES] is truncated and refilled only
    when some chunk produced an edge. *)
Definition bridge_logic_parallel (ldb : LogicDB) : option LogicDB :=
  match collect_refs (map (process_logic_chunk (ldb_view ldb)) (ldb_chunks ldb)) with
  | None => None
  | Some [] => Some ldb
  | Some referenced_edges => Some (mkLogicDB (ldb_chunks ldb) referenced_edges (ldb_view ldb))
  end.

(** A resolution edge out of one port, with a given target and score. *)
Definition edge_of (to : string) (s : Q) : ResEdge := mkResEdge "RTL_Port/a.b" to s "m" false.

(** Logic chunks for the reference bridging. *)
Module LogicFixtures.

(** A chunk without code, and a [REFERENCES] edge left by a previous run. *)
Definition stale_ldb : LogicDB :=
  mkLogicDB [mkChunk "RTL_LogicChunk/c5" ""]
            [mkRef "RTL_LogicChunk/c5" "RTL_LogicChunk/c2" 8 LOGIC_METHOD]
            (fun _ => None).

End LogicFixtures.

(** Every [CONSOLIDATES] edge leaves a golden entity of the store. *)
Definition consolidates_closed (s : GStore) : Prop :=
  forall f t, (f, t) ∈ gs_consolidates s -> exists e, e ∈ gs_entities s /\ g_id e = f.

(* ================================================================== *)
(** * Properties *)
(* ================================================================== *)

(** ** The normaliser *)

Example normalize_ex1 : normalize "ALU_Result" = "alu result".
Proof. reflexivity. Qed.
Example normalize_ex2 : normalize "or1200_except.ESR_Reg" = "esr reg".
Proof. reflexivity. Qed.

Module NormFacts.

Lemma all_chars_smap P f s :
  (forall c, P (f c) = true) -> Py.all_chars P (Py.smap f s) = true.
Proof. intros H. induction s as [|a s IH]; simpl; [done|]. by rewrite H, IH. Qed.

Lemma all_chars_impl (P Q : ascii -> bool) s :
  (forall c, P c = true -> Q c = true) ->
  Py.all_chars P s = true -> Py.all_chars Q s = true.
Proof.
  intros H. induction s as [|a s IH]; simpl; [done|].
  intros [Ha Hs]%andb_prop. by rewrite H, IH.
Qed.

Lemma smap_id_all f P s :
  (forall c, P c = true -> f c = c) ->
  Py.all_chars P s = true -> Py.smap f s = s.
Proof.
  intros H. induction s as [|a s IH]; simpl; [done|].
  intros [Ha Hs]%andb_prop. by rewrite H, IH.
Qed.

Lemma all_chars_lstrip P s :
  Py.all_chars P s = true -> Py.all_chars P (Py.lstrip s) = true.
Proof.
  induction s as [|a s IH]; simpl; [done|].
  intros Hs. destruct (Py.is_space a); [|done].
  apply IH. by apply andb_prop in Hs as [_ ?].
Qed.

Lemma all_chars_rstrip P s :
  Py.all_chars P s = true -> Py.all_chars P (Py.rstrip s) = true.
Proof.
  induction s as [|a s IH]; simpl; [done|].
  intros [Ha Hs]%andb_prop. specialize (IH Hs).
  destruct (Py.rstrip s) eqn:E; simpl.
  - destruct (Py.is_space a); simpl; [done|]. by rewrite Ha.
  - by rewrite Ha.
Qed.

Lemma all_chars_strip P s :
  Py.all_chars P s = true -> Py.all_chars P (Py.strip s) = true.
Proof. intros H. by apply all_chars_lstrip, all_chars_rstrip. Qed.

Lemma all_chars_sdrop P n s :
  Py.all_chars P s = true -> Py.all_chars P (Py.sdrop n s) = true.
Proof.
  revert s. induction n as [|n IH]; intros [|a s]; simpl; auto.
  intros [_ ?]%andb_prop. auto.
Qed.

Lemma split_char_parts c s :
  Forall (fun p => Py.has_char c p = false) (Py.split_char c s).
Proof.
  induction s as [|a s IH]; simpl.
  - constructor; [done|constructor].
  - destruct (ascii_dec a c) as [->|Hne].
    + constructor; [done|exact IH].
    + destruct (Py.split_char c s) as [|p ps] eqn:E.
      * constructor; [simpl; by destruct (ascii_dec a c)|constructor].
      * inversion IH; subst. constructor; [|done].
        simpl. by destruct (ascii_dec a c).
Qed.

Lemma split_char_nonempty c s : Py.split_char c s <> [].
Proof.
  induction s as [|a s IH]; simpl; [done|].
  destruct (ascii_dec a c); [done|]. by destruct (Py.split_char c s).
Qed.

Lemma has_char_all c s :
  Py.has_char c s = false <->
  Py.all_chars (fun a => if ascii_dec a c then false else true) s = true.
Proof.
  induction s as [|a s IH]; simpl; [done|].
  destruct (ascii_dec a c); simpl; [done|]. exact IH.
Qed.

Lemma last_split_no_char c s :
  Py.has_char c (List.last (Py.split_char c s) "") = false.
Proof.
  pose proof (split_char_parts c s) as HF.
  pose proof (split_char_nonempty c s) as HN.
  destruct (Py.split_char c s) as [|p ps] using rev_ind; [done|].
  rewrite List.last_last. apply Forall_app in HF as [_ HF].
  by inversion HF.
Qed.

Lemma split_char_absent c s :
  Py.has_char c s = false -> Py.split_char c s = [s].
Proof.
  induction s as [|a s IH]; simpl; [done|].
  destruct (ascii_dec a c); [done|]. intros H. by rewrite IH.
Qed.

(** Strip commutes: stripping the left then the right is the same. *)
Lemma rstrip_lstrip s : Py.rstrip (Py.lstrip s) = Py.lstrip (Py.rstrip s).
Proof.
  induction s as [|a s IH]; simpl; [done|].
  destruct (Py.is_space a) eqn:Ha.
  - rewrite IH. destruct (Py.rstrip s); simpl; [done|]. by rewrite Ha.
  - simpl. destruct (Py.rstrip s); simpl; by rewrite Ha.
Qed.

Lemma lstrip_idem s : Py.lstrip (Py.lstrip s) = Py.lstrip s.
Proof.
  induction s as [|a s IH]; simpl; [done|].
  destruct (Py.is_space a) eqn:Ha; [done|]. simpl. by rewrite Ha.
Qed.

Lemma rstrip_idem s : Py.rstrip (Py.rstrip s) = Py.rstrip s.
Proof.
  induction s as [|a s IH]; [done|].
  cbn [Py.rstrip]. destruct (Py.rstrip s) eqn:E.
  - destruct (Py.is_space a) eqn:Ha; simpl; [done|]. by rewrite Ha.
  - change (Py.rstrip (String a (String a0 s0))) with
      (match Py.rstrip (String a0 s0) with
       | EmptyString => if Py.is_space a then EmptyString else String a EmptyString
       | _ => String a (Py.rstrip (String a0 s0)) end).
    by rewrite IH.
Qed.

Lemma strip_idem s : Py.strip (Py.strip s) = Py.strip s.
Proof.
  unfold Py.strip. by rewrite rstrip_lstrip, rstrip_idem, lstrip_idem.
Qed.

Lemma split_char_all P c s :
  Py.all_chars P s = true -> Forall (fun p => Py.all_chars P p = true) (Py.split_char c s).
Proof.
  induction s as [|a s IH]; simpl.
  - intros _. constructor; [done|constructor].
  - intros [Ha Hs]%andb_prop. specialize (IH Hs).
    destruct (ascii_dec a c).
    + constructor; [done|exact IH].
    + destruct (Py.split_char c s) as [|p ps].
      * constructor; [simpl; by rewrite Ha|constructor].
      * inversion IH; subst. constructor; [|done]. simpl. by rewrite Ha.
Qed.

Lemma all_chars_last_split P c s :
  Py.all_chars P s = true -> Py.all_chars P (List.last (Py.split_char c s) "") = true.
Proof.
  intros H. pose proof (split_char_all P c s H) as HF.
  pose proof (split_char_nonempty c s) as HN.
  destruct (Py.split_char c s) as [|p ps] using rev_ind; [done|].
  rewrite List.last_last. apply Forall_app in HF as [_ HF]. by inversion HF.
Qed.

Lemma prefix_has_char p s c :
  String.prefix p s = true -> Py.has_char c p = true -> Py.has_char c s = true.
Proof.
  revert s. induction p as [|a p IH]; intros [|b s]; simpl; try done.
  destruct (ascii_dec a b) as [->|]; [|done].
  intros Hp. destruct (ascii_dec b c); [done|]. by apply IH.
Qed.

(** The characters a normalised name is made of. *)
Definition norm_char (c : ascii) : bool :=
  negb (Py.is_upper c) &&
  (if ascii_dec c "." then false else true) &&
  (if ascii_dec c "_" then false else true).

Lemma lower_char_not_upper c : Py.is_upper (Py.lower_char c) = false.
Proof.
  destruct c as [b0 b1 b2 b3 b4 b5 b6 b7].
  destruct b0, b1, b2, b3, b4, b5, b6, b7; reflexivity.
Qed.

Lemma lower_char_id c : Py.is_upper c = false -> Py.lower_char c = c.
Proof. unfold Py.lower_char. by intros ->. Qed.

Definition nu_char (c : ascii) : bool := negb (Py.is_upper c).
Definition nud_char (c : ascii) : bool :=
  negb (Py.is_upper c) && (if ascii_dec c "." then false else true).

Lemma replace_us_chars t :
  Py.all_chars nud_char t = true ->
  Py.all_chars norm_char (Py.replace_char "_" " " t) = true.
Proof.
  unfold Py.replace_char.
  induction t as [|b t IH]; simpl; [done|].
  intros [Hb Ht]%andb_prop. rewrite (IH Ht), andb_true_r.
  unfold norm_char. unfold nud_char in Hb. apply andb_prop in Hb as [Hu Hd].
  destruct (ascii_dec b "_") as [->|Hne]; [done|].
  rewrite Hu, Hd. simpl. by destruct (ascii_dec b "_").
Qed.

Lemma nud_of_no_dot t :
  Py.has_char "." t = false -> Py.all_chars nu_char t = true ->
  Py.all_chars nud_char t = true.
Proof.
  intros E H. apply has_char_all in E. revert E H.
  induction t as [|b t IH]; simpl; [done|].
  intros [Hb Ht]%andb_prop [Hb' Ht']%andb_prop. unfold nud_char, nu_char in *.
  rewrite Hb, Hb'. simpl. auto.
Qed.

Lemma normalize_chars n :
  Py.all_chars norm_char (normalize_hardware_name (Some n)) = true.
Proof.
  destruct n as [|a n]; [done|]. cbv zeta.
  apply all_chars_strip, replace_us_chars.
  assert (H0 : Py.all_chars nu_char (Py.lower (String a n)) = true).
  { apply all_chars_smap. intros c. unfold nu_char. by rewrite lower_char_not_upper. }
  assert (H1 : Py.all_chars nu_char
     (if Py.startswith OR1200_PREFIX (Py.lower (String a n))
      then Py.sdrop 7 (Py.lower (String a n)) else Py.lower (String a n)) = true).
  { destruct (Py.startswith _ _); [by apply all_chars_sdrop|done]. }
  revert H1. generalize (if Py.startswith OR1200_PREFIX (Py.lower (String a n))
      then Py.sdrop 7 (Py.lower (String a n)) else Py.lower (String a n)).
  intros s1 H1. destruct (Py.has_char "." s1) eqn:E.
  - apply nud_of_no_dot; [apply last_split_no_char|]. by apply all_chars_last_split.
  - by apply nud_of_no_dot.
Qed.

Lemma normalize_eq r : r <> "" ->
  normalize_hardware_name (Some r) =
  (let s := Py.lower r in
   let s := if Py.startswith OR1200_PREFIX s then Py.sdrop 7 s else s in
   let s := if Py.has_char "." s then List.last (Py.split_char "." s) "" else s in
   Py.strip (Py.replace_char "_" " " s)).
Proof. by destruct r. Qed.

Lemma normalize_fixed r :
  Py.all_chars norm_char r = true -> Py.strip r = r ->
  normalize_hardware_name (Some r) = r.
Proof.
  intros Hc Hs. destruct (decide (r = "")) as [->|Hne]; [done|].
  rewrite normalize_eq by done. cbv zeta.
  assert (Hl : Py.lower r = r).
  { unfold Py.lower. apply (smap_id_all _ norm_char); [|done].
    intros c Hc'. apply lower_char_id. unfold norm_char in Hc'.
    by destruct (Py.is_upper c). }
  rewrite Hl.
  assert (Hu : Py.has_char "_" r = false).
  { apply has_char_all. apply (all_chars_impl norm_char); [|done].
    intros c. unfold norm_char. by destruct (ascii_dec c "_"), (Py.is_upper c),
      (ascii_dec c "."). }
  assert (Hp : Py.startswith OR1200_PREFIX r = false).
  { destruct (Py.startswith OR1200_PREFIX r) eqn:E; [|done].
    rewrite (prefix_has_char _ _ "_" E) in Hu; [done|reflexivity]. }
  rewrite Hp.
  assert (Hd : Py.has_char "." r = false).
  { apply has_char_all. apply (all_chars_impl norm_char); [|done].
    intros c. unfold norm_char. by destruct (ascii_dec c "_"), (Py.is_upper c),
      (ascii_dec c "."). }
  rewrite Hd.
  assert (Hr : Py.replace_char "_" " " r = r).
  { unfold Py.replace_char. apply (smap_id_all _ norm_char); [|done].
    intros c. unfold norm_char. by destruct (ascii_dec c "_"), (Py.is_upper c),
      (ascii_dec c "."). }
  by rewrite Hr.
Qed.

Lemma normalize_stripped n :
  Py.strip (normalize_hardware_name (Some n)) = normalize_hardware_name (Some n).
Proof. destruct n; [done|]. cbv zeta. apply strip_idem. Qed.

Lemma lower_idem s : Py.lower (Py.lower s) = Py.lower s.
Proof.
  induction s as [|a s IH]; simpl; [done|]. unfold Py.lower in *. simpl.
  rewrite IH. by rewrite (lower_char_id (Py.lower_char a)) by apply lower_char_not_upper.
Qed.

End NormFacts.

(** C7: [normalize_hardware_name] is idempotent on every input (Python
    [None] included), case-insensitive (lower-casing the input first changes
    nothing, so ["ALU_Result"] and ["alu result"] agree), total (a function:
    no exception), and maps [None] and [""] to [""]. *)
Theorem normalize_idempotent_case_insensitive :
  (forall x : option string,
     normalize_hardware_name (Some (normalize_hardware_name x)) =
     normalize_hardware_name x) /\
  (forall s : string,
     normalize_hardware_name (Some (Py.lower s)) = normalize_hardware_name (Some s)) /\
  normalize "ALU_Result" = normalize "alu result" /\
  normalize_hardware_name None = "" /\
  normalize_hardware_name (Some "") = "".
Proof.
  split; [|split; [|split; [reflexivity|split; reflexivity]]].
  - intros [n|]; [|reflexivity].
    apply NormFacts.normalize_fixed;
      [apply NormFacts.normalize_chars|apply NormFacts.normalize_stripped].
  - intros s. destruct (decide (s = "")) as [->|Hne]; [reflexivity|].
    assert (Hl : Py.lower s <> "") by (destruct s; done).
    rewrite !NormFacts.normalize_eq by done. cbv zeta.
    by rewrite NormFacts.lower_idem.
Qed.

(** ** Bridging: shared facts *)

Module BridgeFacts.

Lemma qmin_1_gt (y : Q) : (1 < y)%Q -> Qmin 1 y = 1%Q.
Proof.
  intros H. unfold Qmin, GenericMinMax.gmin. by rewrite (proj1 (Qlt_alt 1 y) H).
Qed.

Lemma lexical_boost_exact terms n x :
  n ∈ terms -> lexical_boost terms n x = Qmax x (19#20).
Proof.
  intros Hin. unfold lexical_boost.
  assert (He : existsb (fun s => String.eqb s n) terms = true).
  { apply existsb_exists. exists n. split; [by apply list_elem_of_In|apply String.eqb_refl]. }
  rewrite He.
  match goal with |- (if existsb ?f terms then _ else _) = _ =>
    replace (existsb f terms) with true; [done|] end.
  symmetry. apply existsb_exists. exists n. split; [by apply list_elem_of_In|].
  by rewrite String.eqb_refl.
Qed.

Lemma best_match_in l m : best_match l = Some m -> m ∈ l.
Proof.
  induction l as [|x r IH]; simpl; [done|].
  destruct (best_match r) as [y|].
  - destruct (Qgtb _ _); intros [= <-]; [by constructor; apply IH|constructor].
  - intros [= <-]. constructor.
Qed.

Lemma retrieve_compatible col hits c :
  c ∈ retrieve col hits -> c ∈ hits /\ type_compatible col (ent_type c) = true.
Proof.
  unfold retrieve. intros Hc. apply elem_of_take in Hc as [i [Hi _]].
  apply list_elem_of_lookup_2 in Hi. by apply list_elem_of_filter in Hi as [? ?].
Qed.

Lemma flat_map_edges (A : Type) (f : A -> Q * bool) (cands : list A) (id : A -> string)
    src th meth e :
  e ∈ flat_map (fun c => let '(s, ga) := f c in
                         if Qgtb s th then [mkResEdge src (id c) s meth ga] else []) cands ->
  exists c, c ∈ cands /\ e_from e = src /\ e_to e = id c /\ Qgtb (e_score e) th = true /\
            (e_score e, e_graph_aware e) = f c.
Proof.
  induction cands as [|c cs IH]; simpl; [by intros ?%not_elem_of_nil|].
  rewrite elem_of_app. intros [H|H].
  - destruct (f c) as [s ga] eqn:Ef. destruct (Qgtb s th) eqn:Eg; [|by apply not_elem_of_nil in H].
    apply list_elem_of_singleton in H as ->. exists c. simpl.
    split; [constructor|]. split; [done|]. split; [done|]. split; [done|]. by rewrite Ef.
  - destruct (IH H) as (c' & ? & ?). exists c'. split; [by constructor|done].
Qed.

Lemma process_item_shape sim db item pl th meth ctx pids l :
  process_item_to_entity sim db item pl th meth ctx pids = Some l ->
  length l <= 1 /\
  Forall (fun e => edge_from_candidate db (it_col item) (item_id item) th e /\
            exists terms bsn sd related cand,
              e_to e = ent_id cand /\
              (e_score e, e_graph_aware e) =
                score_candidate sim terms bsn sd ctx related cand) l.
Proof.
  unfold process_item_to_entity. generalize (score_candidate sim) as sc. intros sc.
  destruct (search_terms_of item) as [terms|]; [|intros [= <-]; split; [simpl; lia|constructor]].
  cbv zeta.
  match goal with |- context [db_view db ?q] => destruct (db_view db q) as [hits|] eqn:Ev end;
    [|done].
  intros [= <-].
  match goal with |- context [best_match ?ms] => destruct (best_match ms) as [m|] eqn:Eb end;
    [|split; [simpl; lia|constructor]].
  split; [simpl; lia|]. constructor; [|constructor].
  apply best_match_in in Eb. apply flat_map_edges in Eb as (c & Hc & Hf & Ht & Hg & Hs).
  split.
  - split; [done|split; [done|]]. eexists _, hits, c. by split.
  - do 5 eexists. split; [exact Ht|exact Hs].
Qed.

Lemma bulk_item_shape db col th meth item e :
  bulk_item db col th meth item = Some (Some e) ->
  edge_from_candidate db col (item_id item) th e /\
  exists norm_label related cand,
    e_to e = ent_id cand /\ (e_score e, e_graph_aware e) = bulk_score col norm_label related cand.
Proof.
  unfold bulk_item. generalize (bulk_score col) as bs. intros bs.
  destruct (Nat.ltb _ 2); [done|]. cbv zeta.
  match goal with |- context [db_view db ?q] => destruct (db_view db q) as [hits|] eqn:Ev end;
    [|by destruct (match _ with [] => _ | _ => _ end)].
  destruct (match _ with [] => _ | _ => _ end) as [related|]; [|done].
  intros [= Eb]. apply best_match_in in Eb.
  apply flat_map_edges in Eb as (c & Hc & Hf & Ht & Hg & Hs).
  split.
  - split; [done|split; [done|]]. eexists _, hits, c. by split.
  - do 3 eexists. split; [exact Ht|exact Hs].
Qed.

End BridgeFacts.

(** ** C1: the bulk path and the interactive path *)

Module C1.
Import Fixtures BridgeFacts.

(** C1 (code bug).  The bulk query does not compute the interactive
    score, and the differences come from slips of the bulk code, not from
    the Levenshtein approximation of the similarity:
    - the port [alu.result] of [graph_db] and [G2], in the neighbourhood
      of its parent's entity: whatever the similarity library answers,
      the interactive path emits an edge to [G2] with score 1 (the graph
      boost is capped by [min(1.0, ...)]), the bulk path one with score
      6/5 (its boost is not capped);
    - the same port in [parent_db], whose parent module is resolved to [G2]
      itself: the interactive neighbourhood includes the parent entities
      ([# Include parents themselves]), so the edge is graph-aware with
      score 1; the bulk neighbourhood leaves them out, so [G2] gets the
      0.95 penalty and [graph_aware = false];
    - the module [alu] in [collapse_db] and a candidate named "fpu": any
      similarity up to 0.7 gives no interactive edge, while the bulk
      query emits an edge of score 1, since [normalize_name_aql] maps both
      "alu" and "fpu" to [""], an exact match. *)
Theorem C1_paths_diverge :
  ((forall sim, exists e,
      bridge_worker sim graph_db COL_PORT (3#5) "deep_bridging_v2_p" alu_result_port = Some [e] /\
      e_to e = ent_id G2 /\ (e_score e == 1)%Q /\ e_graph_aware e = true) /\
   (exists e,
      bulk_item graph_db COL_PORT (3#5) "bulk_port_graph_v1" alu_result_port = Some (Some e) /\
      e_to e = ent_id G2 /\ (e_score e == 6#5)%Q /\ e_graph_aware e = true)) /\
  ((forall sim, exists e,
      bridge_worker sim parent_db COL_PORT (3#5) "deep_bridging_v2_p" alu_result_port = Some [e] /\
      e_to e = ent_id G2 /\ (e_score e == 1)%Q /\ e_graph_aware e = true) /\
   (exists e,
      bulk_item parent_db COL_PORT (3#5) "bulk_port_graph_v1" alu_result_port = Some (Some e) /\
      e_to e = ent_id G2 /\ (e_score e == 19#20)%Q /\ e_graph_aware e = false)) /\
  ((forall sim, (forall d1 d2, (sim d1 d2 <= 7#10)%Q) ->
      bridge_worker sim collapse_db COL_MODULE (7#10) "module_bridging_v2_poly" alu_module = Some []) /\
   (exists e,
      bulk_item collapse_db COL_MODULE (7#10) "bulk_module_v1" alu_module = Some (Some e) /\
      e_to e = ent_id FPU /\ (e_score e == 1)%Q /\ e_graph_aware e = false)).
Proof.
  split; [split|split; split].
  - intros sim. unfold bridge_worker.
    assert (Hc : item_context graph_db COL_PORT alu_result_port = ("", "alu", Some [ent_id G1]))
      by (vm_compute; reflexivity).
    rewrite Hc. cbv iota beta zeta. unfold process_item_to_entity.
    assert (Hs : search_terms_of alu_result_port = Some ["result"]) by (vm_compute; reflexivity).
    rewrite Hs. cbv iota beta zeta.
    assert (Hr : get_related_entities graph_db [ent_id G1] = [ent_id G2; ent_id G1])
      by (vm_compute; reflexivity).
    rewrite Hr.
    cbn -[score_candidate Qgtb normalize item_id retrieve].
    assert (Hret : retrieve COL_PORT [G2] = [G2]) by (vm_compute; reflexivity).
    rewrite Hret. cbn [flat_map].
    assert (Hsc : forall sd, score_candidate sim ["result"] "result" sd ""
                               ["Golden_Entities/G2"; "Golden_Entities/G1"] G2 = (1%Q, true)).
    { intros sd. unfold score_candidate. cbn zeta.
      replace (normalize (ent_name G2)) with "result" by (vm_compute; reflexivity).
      rewrite lexical_boost_exact by set_solver.
      cbn [context_weight]. unfold graph_adjust.
      replace (in_related _ (ent_id G2)) with true by (vm_compute; reflexivity).
      rewrite qmin_1_gt; [reflexivity|].
      match goal with |- (1 < Qmax ?a ?b * _)%Q => pose proof (Q.le_max_r a b) end. lra. }
    rewrite Hsc. cbn -[item_id]. eexists. split; [reflexivity|]. cbn.
    split; [reflexivity|]. split; reflexivity.
  - eexists. split; [vm_compute; reflexivity|]. vm_compute. repeat split.
  - intros sim. unfold bridge_worker.
    assert (Hc : item_context parent_db COL_PORT alu_result_port = ("", "alu", Some [ent_id G2]))
      by (vm_compute; reflexivity).
    rewrite Hc. cbv iota beta zeta. unfold process_item_to_entity.
    assert (Hs : search_terms_of alu_result_port = Some ["result"]) by (vm_compute; reflexivity).
    rewrite Hs. cbv iota beta zeta.
    assert (Hr : get_related_entities parent_db [ent_id G2] = [ent_id G1; ent_id G2])
      by (vm_compute; reflexivity).
    rewrite Hr.
    cbn -[score_candidate Qgtb normalize item_id retrieve].
    assert (Hret : retrieve COL_PORT [G2] = [G2]) by (vm_compute; reflexivity).
    rewrite Hret. cbn [flat_map].
    assert (Hsc : forall sd, score_candidate sim ["result"] "result" sd ""
                               ["Golden_Entities/G1"; "Golden_Entities/G2"] G2 = (1%Q, true)).
    { intros sd. unfold score_candidate. cbn zeta.
      replace (normalize (ent_name G2)) with "result" by (vm_compute; reflexivity).
      rewrite lexical_boost_exact by set_solver.
      cbn [context_weight]. unfold graph_adjust.
      replace (in_related _ (ent_id G2)) with true by (vm_compute; reflexivity).
      rewrite qmin_1_gt; [reflexivity|].
      match goal with |- (1 < Qmax ?a ?b * _)%Q => pose proof (Q.le_max_r a b) end. lra. }
    rewrite Hsc. cbn -[item_id]. eexists. split; [reflexivity|]. cbn.
    split; [reflexivity|]. split; reflexivity.
  - eexists. split; [vm_compute; reflexivity|]. vm_compute. repeat split.
  - intros sim Hsim. unfold bridge_worker.
    assert (Hc : item_context collapse_db COL_MODULE alu_module = ("", "", None))
      by (vm_compute; reflexivity).
    rewrite Hc. cbv iota beta zeta. unfold process_item_to_entity.
    assert (Hs : search_terms_of alu_module = Some ["alu"]) by (vm_compute; reflexivity).
    rewrite Hs. cbv iota beta zeta.
    cbn -[score_candidate Qgtb normalize item_id retrieve].
    assert (Hret : retrieve COL_MODULE [FPU] = [FPU]) by (vm_compute; reflexivity).
    rewrite Hret. cbn [flat_map].
    assert (Hlb : forall x, lexical_boost ["alu"] "fpu" x = x) by (intros x; vm_compute; reflexivity).
    assert (Hsc : forall sd, score_candidate sim ["alu"] "alu" sd "" [] FPU =
                             (sim ("alu", sd) ("fpu", "fpu"), false)).
    { intros sd. unfold score_candidate. cbn zeta.
      replace (normalize (ent_name FPU)) with "fpu" by (vm_compute; reflexivity).
      rewrite Hlb. reflexivity. }
    rewrite Hsc.
    match goal with |- context [Qgtb (sim ?a ?b) ?t] =>
      assert (Hq : Qgtb (sim a b) t = false)
        by (unfold Qgtb; apply negb_false_iff, Qle_bool_iff, Hsim); rewrite Hq end.
    reflexivity.
  - eexists. split; [vm_compute; reflexivity|]. vm_compute. repeat split.
Qed.

End C1.

(** ** C2: a failed retrieval *)

Module C2.
Import Fixtures.

Lemma collect_results_none rs : None ∈ rs -> collect_results rs = None.
Proof.
  induction rs as [|r rs IH]; simpl; [by intros ?%not_elem_of_nil|].
  intros [<-|H]%elem_of_cons; [done|].
  destruct r; [by rewrite IH|done].
Qed.

Lemma collect_bulk_none rs : None ∈ rs -> collect_bulk rs = None.
Proof.
  induction rs as [|r rs IH]; simpl; [by intros ?%not_elem_of_nil|].
  intros [<-|H]%elem_of_cons; [done|].
  destruct r; [by rewrite IH|done].
Qed.

(** C2 (amended).  A candidate query that fails for one element of the
    collection is not absorbed: the worker's exception is re-raised by
    [future.result()], so the whole collection step raises and the store is
    left as it was (no edge written, those of the sibling elements
    included).  The bulk path logs and re-raises in the same way. *)
Theorem C2_retrieval_failure_aborts sim db col th meth tr item :
  item ∈ db_items db col ->
  (bridge_worker sim db col th meth item = None ->
   bridge_collection_parallel sim db col th meth tr = Raised db) /\
  (bulk_item db col th meth item = None ->
   bulk_bridge_collection db col th meth tr = Raised db).
Proof.
  intros Hin. split; intros Hn.
  - unfold bridge_collection_parallel. rewrite collect_results_none; [done|].
    rewrite <- Hn. apply list_elem_of_In, in_map. by apply list_elem_of_In.
  - unfold bulk_bridge_collection. rewrite collect_bulk_none; [done|].
    rewrite <- Hn. apply list_elem_of_In, in_map. by apply list_elem_of_In.
Qed.

Lemma C2_retrieval_failure_aborts_witness :
  bad_item ∈ db_items failing_db COL_CLOCK /\
  bridge_worker (fun _ _ => 1%Q) failing_db COL_CLOCK (1#2) "arch_bridging_clock" bad_item = None /\
  bridge_collection_parallel (fun _ _ => 1%Q) failing_db COL_CLOCK (1#2)
    "arch_bridging_clock" false = Raised failing_db.
Proof.
  assert (Hin : bad_item ∈ db_items failing_db COL_CLOCK) by (vm_compute; set_solver).
  split; [exact Hin|]. split; [vm_compute; reflexivity|].
  apply (proj1 (C2_retrieval_failure_aborts (fun _ _ => 1%Q) failing_db COL_CLOCK (1#2)
                  "arch_bridging_clock" false bad_item Hin)).
  vm_compute; reflexivity.
Defined.

(** C2 (counterexample).  In [failing_db] the candidate query of
    [bad_item] fails while [clk_item] alone yields an edge to [CLK]; the
    clock collection step nevertheless raises and writes nothing: the
    failure is neither turned into zero candidates nor kept away from the
    sibling element. *)
Lemma C2_counterexample :
  bridge_worker (fun _ _ => 1%Q) failing_db COL_CLOCK (1#2) "arch_bridging_clock" bad_item = None /\
  (exists e, bridge_worker (fun _ _ => 1%Q) failing_db COL_CLOCK (1#2) "arch_bridging_clock"
               clk_item = Some [e] /\ e_to e = ent_id CLK) /\
  bridge_collection_parallel (fun _ _ => 1%Q) failing_db COL_CLOCK (1#2)
    "arch_bridging_clock" false = Raised failing_db.
Proof.
  split; [vm_compute; reflexivity|]. split.
  - eexists. split; [vm_compute; reflexivity|]. vm_compute. reflexivity.
  - vm_compute. reflexivity.
Qed.

End C2.

(** ** C3: edges of an earlier run *)

Module C3.
Import Fixtures.

(** C3 (code bug).  [rerun_db] holds the edge of [clk_item] from a previous
    run and has no bus interface.  The bus stage, the only one run with
    [truncate=True], finds no edge and so never truncates (the truncation
    sits inside [if resolved_edges:]); the clock stage then appends a new
    edge for [clk_item].  After the re-run [clk_item] is the source of two
    resolution edges. *)
Theorem C3_rerun_keeps_old_edges :
  length (edges_from rerun_db (item_id clk_item)) = 1 /\
  exists db', bridge_all (fun _ _ => 1%Q) rerun_db = Done db' /\
              length (edges_from db' (item_id clk_item)) = 2.
Proof. split; [vm_compute; reflexivity|]. eexists. split; vm_compute; reflexivity. Qed.

End C3.

(** ** C4: the graph-aware factor *)

Module C4.
Import Fixtures.

(** C4 (counterexample).  With a similarity of 19/20, the port
    [alu.result] of [graph_db] has combined score 19/20 against [G2], which
    lies in the neighbourhood of its parent's entity [G1].  The emitted
    edge is graph-aware but its score is 1, not 19/20 * 6/5 = 57/50: the
    interactive boost is capped at 1. *)
Lemma C4_counterexample :
  (context_weight "" (ent_desc G2)
     (lexical_boost ["result"] (normalize (ent_name G2)) (19#20)) == 19#20)%Q /\
  In (ent_id G2) (get_related_entities graph_db [ent_id G1]) /\
  (exists e, bridge_worker (fun _ _ => 19#20) graph_db COL_PORT (3#5) "deep_bridging_v2_p"
               alu_result_port = Some [e] /\
             e_to e = ent_id G2 /\ e_graph_aware e = true /\ (e_score e == 1)%Q) /\
  ~ (1 == (19#20) * (6#5))%Q.
Proof.
  split; [vm_compute; reflexivity|]. split; [vm_compute; tauto|]. split.
  - eexists. split; [vm_compute; reflexivity|]. vm_compute. repeat split.
  - vm_compute. discriminate.
Qed.

(** Every edge emitted by [process_item_to_entity] is scored by
    [score_candidate] against the neighbourhood computed from
    [parent_entity_ids]. *)
Lemma process_item_edges sim db item pl th meth ctx pids l :
  process_item_to_entity sim db item pl th meth ctx pids = Some l ->
  Forall (fun e => exists terms bsn sd cand,
            e_to e = ent_id cand /\
            (e_score e, e_graph_aware e) =
              score_candidate sim terms bsn sd ctx
                (match pids with Some ((_ :: _) as ps) => get_related_entities db ps | _ => [] end)
                cand) l.
Proof.
  unfold process_item_to_entity. generalize (score_candidate sim) as sc. intros sc.
  destruct (search_terms_of item) as [terms|]; [|intros [= <-]; constructor].
  cbv zeta.
  match goal with |- context [db_view db ?q] => destruct (db_view db q) as [hits|] eqn:Ev end;
    [|done].
  intros [= <-].
  match goal with |- context [best_match ?ms] => destruct (best_match ms) as [m|] eqn:Eb end;
    [|constructor].
  constructor; [|constructor].
  apply BridgeFacts.best_match_in in Eb. apply BridgeFacts.flat_map_edges in Eb as (c & _ & _ & Ht & _ & Hs).
  do 4 eexists. split; [exact Ht|exact Hs].
Qed.

(** C4 (amended).  On the interactive path ([process_item_to_entity]),
    every emitted edge has a combined score [s] (similarity, lexical boost,
    context blend: the same [s] whatever the neighbourhood), and its score
    and flag follow from [s] and the neighbourhood [R]: inside [R] the
    score is [min(1, s * 6/5)] with [graph_aware = true]; outside a
    non-empty [R] it is [s * 19/20] with [graph_aware = false]; with [R]
    empty it is [s], [graph_aware = false].  [R] holds exactly the
    parent's resolved entities and, unless the traversal raises, their
    neighbours within two hops. *)
Theorem C4_graph_factor sim db item pl th meth ctx pids l :
  process_item_to_entity sim db item pl th meth ctx pids = Some l ->
  let R := match pids with Some ((_ :: _) as ps) => get_related_entities db ps | _ => [] end in
  Forall (fun e => exists s : Q,
     (exists terms bsn sd cand, e_to e = ent_id cand /\
        forall related, score_candidate sim terms bsn sd ctx related cand =
                        (graph_adjust related (ent_id cand) s, in_related related (ent_id cand))) /\
     (e_to e ∈ R -> (e_score e == Qmin 1 (s * (6#5)))%Q /\ e_graph_aware e = true) /\
     (R <> [] -> e_to e ∉ R -> (e_score e == s * (19#20))%Q /\ e_graph_aware e = false) /\
     (R = [] -> (e_score e == s)%Q /\ e_graph_aware e = false)) l /\
  (forall x, x ∈ R <-> exists ps, pids = Some ps /\
     (x ∈ ps \/ (db_traversal_fails db = false /\ x ∈ traverse_all (db_relations db) ps))).
Proof.
  intros Hp R. split.
  - apply process_item_edges in Hp. fold R in Hp.
    eapply Forall_impl; [exact Hp|]. intros e (terms & bsn & sd & cand & Ht & Hs).
    revert Hs. unfold score_candidate. cbv zeta.
    set (s := context_weight ctx (ent_desc cand) (lexical_boost terms (normalize (ent_name cand)) _)).
    intros Hs. injection Hs as Hsc Hga.
    exists s. split; [exists terms, bsn, sd, cand; split; [exact Ht|intros related; reflexivity]|].
    rewrite Hsc, Hga, Ht. unfold graph_adjust, in_related. split; [|split].
    + intros Hin. rewrite bool_decide_eq_true_2 by done.
      destruct R; [by apply not_elem_of_nil in Hin|]. split; [apply Qeq_refl|done].
    + intros Hne Hnin. rewrite bool_decide_eq_false_2 by done.
      destruct R; [done|]. split; [apply Qeq_refl|done].
    + intros ->. split; [apply Qeq_refl|]. apply bool_decide_eq_false_2, not_elem_of_nil.
  - intros x. unfold R. destruct pids as [[|p ps]|].
    + split; [by intros ?%not_elem_of_nil|].
      intros (ps & [= <-] & [H|(_ & H)]); [by apply not_elem_of_nil in H|].
      unfold traverse_all in H. by apply not_elem_of_nil in H.
    + unfold get_related_entities. split.
      * intros H. exists (p :: ps). split; [done|].
        destruct (db_traversal_fails db); rewrite elem_of_remove_dups in H; [by left|].
        apply elem_of_app in H as [H|H]; [by right|by left].
      * intros (ps' & [= <-] & H).
        destruct (db_traversal_fails db) eqn:Ef.
        -- apply elem_of_remove_dups. destruct H as [H|(? & _)]; [done|congruence].
        -- apply elem_of_remove_dups, elem_of_app. destruct H as [H|(_ & H)]; [by right|by left].
    + split; [by intros ?%not_elem_of_nil|]. by intros (ps & ? & _).
Qed.

(** C4 (witness).  The port [alu.result] of [graph_db] with its parent's
    entity [G1], at similarity 1/2: one edge, to [G2], in the
    neighbourhood. *)
Lemma C4_graph_factor_witness :
  exists l,
    process_item_to_entity (fun _ _ => 1#2) graph_db alu_result_port "alu" (3#5)
      "deep_bridging_v2_p" "" (Some [ent_id G1]) = Some l /\
    let R := get_related_entities graph_db [ent_id G1] in
    Forall (fun e => exists s : Q,
       (exists terms bsn sd cand, e_to e = ent_id cand /\
          forall related, score_candidate (fun _ _ => 1#2) terms bsn sd "" related cand =
                          (graph_adjust related (ent_id cand) s, in_related related (ent_id cand))) /\
       (e_to e ∈ R -> (e_score e == Qmin 1 (s * (6#5)))%Q /\ e_graph_aware e = true) /\
       (R <> [] -> e_to e ∉ R -> (e_score e == s * (19#20))%Q /\ e_graph_aware e = false) /\
       (R = [] -> (e_score e == s)%Q /\ e_graph_aware e = false)) l /\
    (forall x, x ∈ R <-> exists ps, Some [ent_id G1] = Some ps /\
       (x ∈ ps \/ (db_traversal_fails graph_db = false /\ x ∈ traverse_all (db_relations graph_db) ps))).
Proof.
  assert (Hr : is_Some (process_item_to_entity (fun _ _ => 1#2) graph_db alu_result_port "alu" (3#5)
                          "deep_bridging_v2_p" "" (Some [ent_id G1])))
    by (vm_compute; eexists; reflexivity).
  destruct (process_item_to_entity (fun _ _ => 1#2) graph_db alu_result_port "alu" (3#5)
              "deep_bridging_v2_p" "" (Some [ent_id G1])) as [l|] eqn:E;
    [|destruct Hr as [? Hr]; discriminate Hr].
  exists l. split; [reflexivity|].
  exact (C4_graph_factor _ _ _ _ _ _ _ _ _ E).
Defined.

End C4.

(** ** C5: type compatibility *)

Module C5.
Import Fixtures BridgeFacts.

(** C5.  Let [cand] be an entity whose type is outside the compatibility
    set of the element's collection, and let ids identify the entities the
    search returns.  Then [cand] is never among the candidates that get
    scored, and neither path emits an edge to it. *)
Theorem C5_incompatible_never_bridged sim db item pl th meth ctx pids l cand :
  type_compatible (it_col item) (ent_type cand) = false ->
  (forall q hs c, db_view db q = Some hs -> c ∈ hs -> ent_id c = ent_id cand -> c = cand) ->
  (forall hs, cand ∉ retrieve (it_col item) hs) /\
  (process_item_to_entity sim db item pl th meth ctx pids = Some l ->
   Forall (fun e => e_to e <> ent_id cand) l) /\
  (forall e, bulk_item db (it_col item) th meth item = Some (Some e) -> e_to e <> ent_id cand).
Proof.
  intros Hty Hid.
  assert (Hnot : forall hs, cand ∉ retrieve (it_col item) hs).
  { intros hs Hc. apply retrieve_compatible in Hc as [_ Hc]. congruence. }
  assert (Hedge : forall e, edge_from_candidate db (it_col item) (item_id item) th e ->
                            e_to e <> ent_id cand).
  { intros e (_ & _ & q & hs & c & Hq & Hc & Ht) Heq.
    pose proof Hc as Hc'. apply retrieve_compatible in Hc' as [Hin _].
    assert (c = cand) as -> by (apply (Hid q hs c); congruence).
    by apply (Hnot hs). }
  split; [exact Hnot|split].
  - intros Hl. destruct (process_item_shape _ _ _ _ _ _ _ _ _ Hl) as [_ Hall].
    eapply Forall_impl; [exact Hall|]. intros e [He _]. by apply Hedge.
  - intros e He. apply Hedge. by destruct (bulk_item_shape _ _ _ _ _ _ He).
Qed.

Lemma C5_incompatible_never_bridged_witness :
  type_compatible COL_PORT (ent_type MED) = false /\
  normalize (ent_name MED) = normalize (it_label alu_result_port) /\
  exists l, process_item_to_entity (fun _ _ => 1%Q) med_db alu_result_port "alu" (3#5)
              "deep_bridging_v2_p" "" (Some [ent_id G1]) = Some l /\ l <> [] /\
            Forall (fun e => e_to e <> ent_id MED) l.
Proof.
  assert (Hty : type_compatible (it_col alu_result_port) (ent_type MED) = false)
    by (vm_compute; reflexivity).
  assert (Hid : forall q hs c, db_view med_db q = Some hs -> c ∈ hs ->
                               ent_id c = ent_id MED -> c = MED).
  { intros q hs c [= <-] Hc Heq. apply elem_of_cons in Hc as [->|Hc]; [done|].
    apply list_elem_of_singleton in Hc as ->. vm_compute in Heq. discriminate. }
  split; [exact Hty|]. split; [vm_compute; reflexivity|].
  eexists. split; [vm_compute; reflexivity|]. split; [vm_compute; discriminate|].
  apply (proj1 (proj2 (C5_incompatible_never_bridged (fun _ _ => 1%Q) med_db alu_result_port
           "alu" (3#5) "deep_bridging_v2_p" "" (Some [ent_id G1]) _ MED Hty Hid))).
  vm_compute. reflexivity.
Defined.

End C5.

(** ** C10: the interactive score stays in [0, 1] *)

Module C10.
Import Fixtures BridgeFacts.

Lemma Q_of_size_nonneg (n : nat) : (0 <= inject_Z (Z.of_nat n))%Q.
Proof. change 0%Q with (inject_Z 0). rewrite <- Zle_Qle. lia. Qed.

Lemma token_overlap_bounds t1 t2 :
  (0 <= calculate_token_overlap t1 t2 <= 1)%Q.
Proof.
  unfold calculate_token_overlap.
  destruct t1 as [|a1 s1]; [lra|]. destruct t2 as [|a2 s2]; [lra|].
  cbv zeta.
  destruct (decide (token_set (String a1 s1) = ∅)); [lra|].
  destruct (decide (token_set (String a2 s2) = ∅)); [lra|].
  destruct (Nat.eqb _ 0) eqn:E0; [lra|]. apply Nat.eqb_neq in E0.
  set (A := token_set (String a1 s1)) in *. set (B := token_set (String a2 s2)) in *.
  assert (Hle : size (A ∩ B) <= Nat.min (size A) (size B)).
  { apply Nat.min_glb; apply subseteq_size; set_solver. }
  assert (Hpos : (0 < inject_Z (Z.of_nat (Nat.min (size A) (size B))))%Q)
    by (change 0%Q with (inject_Z 0); rewrite <- Zlt_Qlt; lia).
  split.
  - apply Qle_shift_div_l; [exact Hpos|]. rewrite Qmult_0_l. apply Q_of_size_nonneg.
  - apply Qle_shift_div_r; [exact Hpos|]. rewrite Qmult_1_l. rewrite <- Zle_Qle. lia.
Qed.

Lemma lexical_boost_bounds terms n s :
  (0 <= s <= 1)%Q -> (0 <= lexical_boost terms n s <= 1)%Q.
Proof.
  intros Hs. unfold lexical_boost.
  assert (Hm : forall c, (0 <= c <= 1)%Q -> (0 <= Qmax s c <= 1)%Q).
  { intros c Hc. split.
    - eapply Qle_trans; [apply Hs|apply Q.le_max_l].
    - apply Q.max_lub; [apply Hs|apply Hc]. }
  destruct (existsb _ terms).
  - apply Hm. destruct (existsb _ terms); lra.
  - destruct (existsb _ terms); [apply Hm; lra|exact Hs].
Qed.

Lemma context_weight_bounds ctx d s :
  (0 <= s <= 1)%Q -> (0 <= context_weight ctx d s <= 1)%Q.
Proof.
  intros Hs. unfold context_weight. destruct ctx as [|c cs]; [exact Hs|].
  pose proof (token_overlap_bounds (String c cs) d).
  destruct (Qgtb _ 0); lra.
Qed.

Lemma graph_adjust_bounds related cid s :
  (0 <= s <= 1)%Q -> (0 <= graph_adjust related cid s <= 1)%Q.
Proof.
  intros Hs. unfold graph_adjust. destruct related; [exact Hs|].
  destruct (in_related _ cid); [|lra]. split.
  - apply Q.min_glb; lra.
  - apply Q.le_min_l.
Qed.

Lemma score_candidate_bounds sim terms bsn sd ctx related cand :
  (forall a b, 0 <= sim a b <= 1)%Q ->
  (0 <= fst (score_candidate sim terms bsn sd ctx related cand) <= 1)%Q.
Proof.
  intros Hsim. unfold score_candidate. cbn [fst].
  apply graph_adjust_bounds, context_weight_bounds, lexical_boost_bounds, Hsim.
Qed.

Lemma Qgtb_lt x y : Qgtb x y = true -> (y < x)%Q.
Proof.
  unfold Qgtb. destruct (Qle_bool x y) eqn:E; [done|]. intros _.
  apply Qnot_le_lt. intros H. apply Qle_bool_iff in H. congruence.
Qed.

(** C10.  When the similarity library answers in [0, 1], every edge emitted
    by the interactive path scores strictly above the stage threshold and
    lies in [0, 1]. *)
Theorem C10_score_in_unit_interval sim db item pl th meth ctx pids l :
  (forall a b, 0 <= sim a b <= 1)%Q ->
  process_item_to_entity sim db item pl th meth ctx pids = Some l ->
  Forall (fun e => th < e_score e /\ 0 <= e_score e <= 1)%Q l.
Proof.
  intros Hsim Hl. destruct (process_item_shape _ _ _ _ _ _ _ _ _ Hl) as [_ Hall].
  eapply Forall_impl; [exact Hall|].
  intros e [(_ & Hgt & _) (terms & bsn & sd & related & cand & _ & Hs)].
  split; [by apply Qgtb_lt|].
  pose proof (score_candidate_bounds sim terms bsn sd ctx related cand Hsim) as Hb.
  rewrite <- Hs in Hb. exact Hb.
Qed.

Lemma C10_score_in_unit_interval_witness :
  exists l, process_item_to_entity (fun _ _ => 1%Q) graph_db alu_result_port "alu" (3#5)
              "deep_bridging_v2_p" "" (Some [ent_id G1]) = Some l /\ l <> [] /\
            Forall (fun e => 3#5 < e_score e /\ 0 <= e_score e <= 1)%Q l.
Proof.
  eexists. split; [vm_compute; reflexivity|]. split; [vm_compute; discriminate|].
  apply (C10_score_in_unit_interval (fun _ _ => 1%Q) graph_db alu_result_port "alu" (3#5)
           "deep_bridging_v2_p" "" (Some [ent_id G1])).
  - intros a b. lra.
  - vm_compute. reflexivity.
Defined.

End C10.

(** ** C9: the short-prefix rule of the fuzzy stage *)

Module C9.
Import FuzzyFixtures.

(** C9 (counterexample).  With [min_confidence = 0.6] and at most one edit,
    the signals "abc" and "abcd" pass every other filter of the query
    (distance 1, confidence 2/3), "abc" is a prefix of "abcd", and "abcd"
    has 4 characters, so they are not both short.  The pair is still
    rejected: the rule tests the shorter length only. *)
Lemma C9_counterexample :
  (forall tokens dist, dist "abc" "abcd" = 1 ->
     fuzzy_pair tokens dist 1 (3#5) abc abcd = None /\
     (3#5 <= pm_confidence (pair_metrics tokens dist "abc" "abcd"))%Q /\
     pm_lev (pair_metrics tokens dist "abc" "abcd") = 1) /\
  fuzzy_norm (g_name abc) = "abc" /\ fuzzy_norm (g_name abcd) = "abcd" /\
  String.ltb (g_key abc) (g_key abcd) = true /\ g_type abc = g_type abcd /\
  String.prefix "abc" "abcd" = true /\ 4 <= String.length "abcd" /\
  Str.levenshtein "abc" "abcd" = 1.
Proof.
  split; [|repeat split; vm_compute; try reflexivity; lia].
  intros tokens dist Hd.
  unfold fuzzy_pair, pair_metrics. cbn [pm_lev pm_confidence pm_name_length].
  replace (fuzzy_norm (g_name abc)) with "abc" by (vm_compute; reflexivity).
  replace (fuzzy_norm (g_name abcd)) with "abcd" by (vm_compute; reflexivity).
  rewrite Hd. vm_compute. split; [reflexivity|]. split; [discriminate|reflexivity].
Qed.

(** C9 (amended).  A pair is a candidate exactly when its keys are
    ordered, its types agree, its distance is in [1, max_distance], its
    confidence reaches [min_confidence], and it is not a prefix pair in
    which one of the two names (that is, the shorter one) has fewer than 4
    characters.  A prefix pair whose names both have 4 or more characters
    is not excluded by the prefix rule. *)
Theorem C9_prefix_rule tokens dist md mc e1 e2 :
  fuzzy_pair tokens dist md mc e1 e2 <> None <->
  String.ltb (g_key e1) (g_key e2) = true /\ g_type e1 = g_type e2 /\
  (0 < pm_lev (pair_metrics tokens dist (fuzzy_norm (g_name e1)) (fuzzy_norm (g_name e2))) <= md) /\
  (mc <= pm_confidence (pair_metrics tokens dist (fuzzy_norm (g_name e1))
                                                 (fuzzy_norm (g_name e2))))%Q /\
  ~ ((String.prefix (fuzzy_norm (g_name e2)) (fuzzy_norm (g_name e1)) = true \/
      String.prefix (fuzzy_norm (g_name e1)) (fuzzy_norm (g_name e2)) = true) /\
     (String.length (fuzzy_norm (g_name e1)) < 4 \/ String.length (fuzzy_norm (g_name e2)) < 4)).
Proof.
  unfold fuzzy_pair.
  generalize (fuzzy_norm (g_name e1)) as n1. generalize (fuzzy_norm (g_name e2)) as n2.
  intros n2 n1.
  assert (Hshort : pm_name_length (pair_metrics tokens dist n1 n2) =
                   Nat.min (String.length n1) (String.length n2)) by reflexivity.
  revert Hshort. generalize (pair_metrics tokens dist n1 n2) as m. intros m Hshort. rewrite Hshort.
  destruct (String.ltb (g_key e1) (g_key e2)) eqn:Ek; simpl;
    [|split; [done|intros (? & _); discriminate]].
  destruct (bool_decide_reflect (g_type e1 = g_type e2)) as [Ht|Ht]; simpl;
    [|split; [done|intros (_ & ? & _); contradiction]].
  destruct (Nat.leb (pm_lev m) md) eqn:El; simpl;
    [|apply Nat.leb_gt in El; split; [done|intros (_ & _ & [? ?] & _); lia]].
  apply Nat.leb_le in El.
  destruct (Nat.ltb 0 (pm_lev m)) eqn:El0; simpl;
    [|apply Nat.ltb_ge in El0; split; [done|intros (_ & _ & [? ?] & _); lia]].
  apply Nat.ltb_lt in El0.
  destruct (Qle_bool mc (pm_confidence m)) eqn:Ec; simpl;
    [|split; [done|intros (_ & _ & _ & Hc & _); apply Qle_bool_iff in Hc; congruence]].
  apply Qle_bool_iff in Ec.
  assert (Hp : (String.prefix n2 n1 || String.prefix n1 n2) = true <->
               String.prefix n2 n1 = true \/ String.prefix n1 n2 = true)
    by apply orb_true_iff.
  assert (Hl : Nat.ltb (Nat.min (String.length n1) (String.length n2)) 4 = true <->
               String.length n1 < 4 \/ String.length n2 < 4)
    by (rewrite Nat.ltb_lt; lia).
  destruct (String.prefix n2 n1 || String.prefix n1 n2) eqn:Ep;
  destruct (Nat.ltb (Nat.min (String.length n1) (String.length n2)) 4) eqn:Es; simpl.
  - split; [done|]. intros (_ & _ & _ & _ & Hn). exfalso. apply Hn. tauto.
  - split; [|done]. intros _. do 4 (split; [done || lia|]).
    intros (_ & Hs). apply Hl in Hs. discriminate.
  - split; [|done]. intros _. do 4 (split; [done || lia|]).
    intros (Hq & _). apply Hp in Hq. discriminate.
  - split; [|done]. intros _. do 4 (split; [done || lia|]).
    intros (Hq & _). apply Hp in Hq. discriminate.
Qed.

End C9.

(** ** The union-find of the fuzzy stage *)

Module UFFacts.

Lemma root_n_det p n x r m r' : root_n p n x r -> root_n p m x r' -> n = m /\ r = r'.
Proof.
  intros H. revert m r'. induction H as [x Hx|x Hx|n x y r Hx Hne H IH]; intros m r' H'.
  - inversion H'; subst; [done|congruence|congruence].
  - inversion H'; subst; [congruence|done|congruence].
  - inversion H' as [? Hx'|? Hx'|n' ? y' ? Hx' Hne' H'']; subst; try congruence.
    rewrite Hx in Hx'. injection Hx' as <-. destruct (IH _ _ H''). subst. done.
Qed.

Lemma root_of_det p x r r' : root_of p x r -> root_of p x r' -> r = r'.
Proof. intros [n H] [m H']. by destruct (root_n_det _ _ _ _ _ _ H H'). Qed.

Lemma root_n_root p n x r : root_n p n x r -> root_n p 0 r r.
Proof. induction 1; [by constructor|by constructor|done]. Qed.

(** The chain from [x] visits [n] distinct keys of [parent]. *)
Lemma root_n_chain p n x r :
  root_n p n x r ->
  exists l, length l = n /\ NoDup l /\
            forall v, v ∈ l -> v ∈ dom p /\ exists m, 0 < m <= n /\ root_n p m v r.
Proof.
  induction 1 as [x Hx|x Hx|n x y r Hx Hne H IH].
  - exists []. split; [done|split; [constructor|by intros ? ?%not_elem_of_nil]].
  - exists []. split; [done|split; [constructor|by intros ? ?%not_elem_of_nil]].
  - destruct IH as (l & Hlen & Hnd & Hl). exists (x :: l). split; [simpl; lia|split].
    + constructor; [|done]. intros Hxl. destruct (Hl x Hxl) as [_ (m & Hm & Hr)].
      assert (Hs : root_n p (S n) x r) by (econstructor; eauto).
      destruct (root_n_det _ _ _ _ _ _ Hr Hs). lia.
    + intros v [->|Hv]%elem_of_cons.
      * split; [apply elem_of_dom; by eexists|]. exists (S n). split; [lia|].
        econstructor; eauto.
      * destruct (Hl v Hv) as [Hd (m & Hm & Hr)]. split; [done|]. exists m. split; [lia|done].
Qed.

Lemma root_n_depth p n x r : root_n p n x r -> n <= size p.
Proof.
  intros H. destruct (root_n_chain _ _ _ _ H) as (l & Hlen & Hnd & Hl).
  rewrite <- Hlen, <- (size_list_to_set (C := gset string) l Hnd).
  transitivity (size (dom p : gset string)); [|apply Nat.eq_le_incl, size_dom].
  apply subseteq_size. intros v Hv. apply elem_of_list_to_set in Hv. by apply Hl.
Qed.

Lemma root_n_is_root p r : root_n p 0 r r <-> p !! r = None \/ p !! r = Some r.
Proof.
  split.
  - intros H. inversion H; subst; [by left|by right].
  - intros [H|H]; by constructor.
Qed.

(** [parent[x] = x] for an absent [x] changes no root. *)
Lemma insert_self_preserves p x :
  p !! x = None -> forall z rz, root_of p z rz -> root_of (<[x := x]> p) z rz.
Proof.
  intros Hx z rz [n H]. induction H as [z Hz|z Hz|n z y r Hz Hne H IH].
  - exists 0. destruct (decide (z = x)) as [->|Hne].
    + apply rn_self. apply lookup_insert_eq.
    + apply rn_absent. by rewrite lookup_insert_ne.
  - exists 0. apply rn_self. rewrite lookup_insert_ne; [done|]. intros ->. congruence.
  - destruct IH as [m Hm]. exists (S m). eapply rn_step; [|exact Hne|exact Hm].
    rewrite lookup_insert_ne; [done|]. intros ->. congruence.
Qed.

(** [parent[x] = r] for the root [r] of [x] changes no root. *)
Lemma compress_preserves p x r :
  root_of p x r -> forall z rz, root_of p z rz -> root_of (<[x := r]> p) z rz.
Proof.
  intros Hxr z rz [n H].
  assert (Hr : root_n p 0 r r) by (destruct Hxr as [k Hk]; by eapply root_n_root).
  assert (Hrq : r <> x -> root_n (<[x := r]> p) 0 r r).
  { intros Hne. apply root_n_is_root. rewrite lookup_insert_ne by congruence.
    by apply root_n_is_root. }
  induction H as [z Hz|z Hz|n z y rz Hz Hne H IH].
  - destruct (decide (z = x)) as [->|Hzx].
    + assert (r = x) as -> by (eapply root_of_det; [exact Hxr|exists 0; by constructor]).
      exists 0. apply rn_self, lookup_insert_eq.
    + exists 0. apply rn_absent. by rewrite lookup_insert_ne.
  - destruct (decide (z = x)) as [->|Hzx].
    + assert (r = x) as -> by (eapply root_of_det; [exact Hxr|exists 0; by constructor]).
      exists 0. apply rn_self, lookup_insert_eq.
    + exists 0. apply rn_self. by rewrite lookup_insert_ne.
  - destruct (decide (z = x)) as [->|Hzx].
    + assert (r = rz) as <-.
      { eapply root_of_det; [exact Hxr|]. exists (S n). econstructor; eauto. }
      destruct (decide (r = x)) as [->|Hrx].
      * exists 0. apply rn_self, lookup_insert_eq.
      * exists 1. eapply rn_step; [apply lookup_insert_eq|done|by apply Hrq].
    + destruct IH as [m Hm]. exists (S m). eapply rn_step; [|exact Hne|exact Hm].
      by rewrite lookup_insert_ne.
Qed.

Lemma find_fuel_spec fuel p x n r :
  root_n p n x r -> n < fuel ->
  snd (find_fuel fuel p x) = r /\
  forall z rz, root_of p z rz -> root_of (fst (find_fuel fuel p x)) z rz.
Proof.
  revert p x n r. induction fuel as [|f IH]; intros p x n r H Hn; [lia|].
  cbn [find_fuel].
  destruct (p !! x) as [y|] eqn:Hx.
  - rewrite Hx. cbn [default from_option id].
    destruct (String.eqb y x) eqn:Eyx.
    + apply String.eqb_eq in Eyx as ->. cbn [fst snd].
      inversion H; subst; [congruence|split; auto|congruence].
    + apply String.eqb_neq in Eyx.
      inversion H as [? Hx'|? Hx'|n' ? y' ? Hx' Hne' H' ]; subst; try congruence.
      rewrite Hx in Hx'. injection Hx' as <-.
      destruct (IH p y n' r H' ltac:(lia)) as [Hr Hp].
      destruct (find_fuel f p y) as [p2 r2] eqn:Ef. cbn [fst snd] in *. subst r2.
      split; [done|]. intros z rz Hz.
      apply compress_preserves; [|by apply Hp].
      apply Hp. exists (S n'). econstructor; eauto.
  - rewrite lookup_insert_eq. cbn [default from_option id]. rewrite String.eqb_refl. cbn [fst snd].
    inversion H; subst; [|congruence|congruence].
    split; [done|]. by apply insert_self_preserves.
Qed.

Lemma find_spec p x r :
  root_of p x r ->
  snd (find p x) = r /\ forall z rz, root_of p z rz -> root_of (fst (find p x)) z rz.
Proof.
  intros [n H]. apply (find_fuel_spec _ _ _ n); [done|].
  apply root_n_depth in H. lia.
Qed.

Lemma preserves_wf p p' :
  uf_wf p -> (forall z rz, root_of p z rz -> root_of p' z rz) -> uf_wf p'.
Proof. intros Hwf Hp z. destruct (Hwf z) as [r Hr]. exists r. by apply Hp. Qed.

(** [parent[px] = py] for two distinct roots moves the roots [px] to
    [py]. *)
Lemma link_roots p px py :
  root_n p 0 px px -> root_n p 0 py py -> px <> py ->
  forall z rz, root_of p z rz ->
  root_of (<[px := py]> p) z (if String.eqb rz px then py else rz).
Proof.
  intros Hpx Hpy Hne z rz [n H].
  assert (Hpyq : root_n (<[px := py]> p) 0 py py).
  { apply root_n_is_root. rewrite lookup_insert_ne by congruence. by apply root_n_is_root. }
  induction H as [z Hz|z Hz|n z y rz Hz Hzy H IH].
  - destruct (String.eqb z px) eqn:E.
    + apply String.eqb_eq in E as ->. exists 1.
      eapply rn_step; [apply lookup_insert_eq|congruence|exact Hpyq].
    + apply String.eqb_neq in E. exists 0. apply rn_absent. by rewrite lookup_insert_ne.
  - destruct (String.eqb z px) eqn:E.
    + apply String.eqb_eq in E as ->. exists 1.
      eapply rn_step; [apply lookup_insert_eq|congruence|exact Hpyq].
    + apply String.eqb_neq in E. exists 0. apply rn_self. by rewrite lookup_insert_ne.
  - assert (Hzx : z <> px).
    { intros ->. apply root_n_is_root in Hpx. destruct Hpx; congruence. }
    destruct IH as [m Hm]. exists (S m). eapply rn_step; [|exact Hzy|exact Hm].
    by rewrite lookup_insert_ne.
Qed.

Lemma union_spec p x y :
  uf_wf p ->
  exists rx ry, root_of p x rx /\ root_of p y ry /\
    forall z rz, root_of p z rz ->
      root_of (union p x y) z (if String.eqb rz rx then ry else rz).
Proof.
  intros Hwf. destruct (Hwf x) as [rx Hrx]. destruct (Hwf y) as [ry Hry].
  exists rx, ry. split; [done|split; [done|]].
  unfold union.
  destruct (find_spec p x rx Hrx) as [E1 P1].
  destruct (find p x) as [p1 px] eqn:F1. cbn [fst snd] in *. subst px.
  assert (Hry1 : root_of p1 y ry) by (by apply P1).
  destruct (find_spec p1 y ry Hry1) as [E2 P2].
  destruct (find p1 y) as [p2 py] eqn:F2. cbn [fst snd] in *. subst py.
  intros z rz Hz.
  destruct (String.eqb rx ry) eqn:Exy.
  - apply String.eqb_eq in Exy as <-. destruct (String.eqb rz rx) eqn:E.
    + apply String.eqb_eq in E as ->. by apply P2, P1.
    + by apply P2, P1.
  - apply String.eqb_neq in Exy.
    apply link_roots; [| |done|by apply P2, P1].
    + destruct (P2 _ _ (P1 _ _ Hrx)) as [k Hk]. by eapply root_n_root.
    + destruct (P2 _ _ Hry1) as [k Hk]. by eapply root_n_root.
Qed.

Lemma union_all_spec cs p :
  uf_wf p ->
  uf_wf (union_all p cs) /\
  (forall a b r, root_of p a r -> root_of p b r ->
     exists r', root_of (union_all p cs) a r' /\ root_of (union_all p cs) b r') /\
  (forall c, c ∈ cs -> exists r, root_of (union_all p cs) (c_id1 c) r /\
                                 root_of (union_all p cs) (c_id2 c) r).
Proof.
  revert p. induction cs as [|c cs IH]; intros p Hwf.
  - split; [done|split; [intros a b r ? ?; by exists r|by intros ? ?%not_elem_of_nil]].
  - unfold union_all. cbn [fold_left]. fold (union_all (union p (c_id1 c) (c_id2 c)) cs).
    destruct (union_spec p (c_id1 c) (c_id2 c) Hwf) as (rx & ry & Hrx & Hry & Hu).
    assert (Hwf' : uf_wf (union p (c_id1 c) (c_id2 c))).
    { intros z. destruct (Hwf z) as [rz Hz]. eexists. by apply Hu. }
    destruct (IH _ Hwf') as (Hwf'' & Hj & Hc).
    split; [done|split].
    + intros a b r Ha Hb. apply (Hj _ _ (if String.eqb r rx then ry else r)); by apply Hu.
    + intros c' [->|Hc']%elem_of_cons; [|by apply Hc].
      apply (Hj _ _ ry).
      * pose proof (Hu _ _ Hrx) as H. by rewrite String.eqb_refl in H.
      * pose proof (Hu _ _ Hry) as H. by destruct (String.eqb ry rx).
Qed.

Lemma group_append_keys r ws g k : k ∈ (group_append r ws g).*1 <-> k = r \/ k ∈ g.*1.
Proof.
  induction g as [|[k' vs'] g IH]; simpl.
  - rewrite elem_of_cons. tauto.
  - destruct (String.eqb r k') eqn:E.
    + apply String.eqb_eq in E as ->. csimpl. rewrite !elem_of_cons. naive_solver.
    + csimpl. rewrite !elem_of_cons, IH. naive_solver.
Qed.

Lemma group_append_nodup r ws g : NoDup g.*1 -> NoDup (group_append r ws g).*1.
Proof.
  induction g as [|[k' vs'] g IH]; simpl; intros Hnd.
  - constructor; [by intros ?%not_elem_of_nil|constructor].
  - apply NoDup_cons in Hnd as [Hk Hnd].
    destruct (String.eqb r k') eqn:E; simpl; constructor; try done.
    + rewrite group_append_keys. apply String.eqb_neq in E. intros [->|?]; done.
    + by apply IH.
Qed.

Lemma group_append_mem r ws g k vs v :
  (k, vs) ∈ group_append r ws g -> v ∈ vs ->
  (k = r /\ v ∈ ws) \/ exists vs0, (k, vs0) ∈ g /\ v ∈ vs0.
Proof.
  induction g as [|[k' vs'] g IH]; simpl.
  - intros Hk Hv. apply list_elem_of_singleton in Hk. injection Hk as -> ->. by left.
  - destruct (String.eqb r k') eqn:E.
    + apply String.eqb_eq in E as ->.
      intros [Hk|Hk]%elem_of_cons Hv.
      * injection Hk as -> ->. apply elem_of_app in Hv as [Hv|Hv]; [right|by left].
        exists vs'. split; [constructor|done].
      * right. exists vs. split; [by constructor|done].
    + intros [Hk|Hk]%elem_of_cons Hv.
      * injection Hk as -> ->. right. eexists. split; [constructor|exact Hv].
      * destruct (IH Hk Hv) as [?|(vs0 & ? & ?)]; [by left|right].
        exists vs0. split; [by constructor|done].
Qed.

Lemma group_append_new r ws g v : v ∈ ws -> exists vs, (r, vs) ∈ group_append r ws g /\ v ∈ vs.
Proof.
  intros Hv. induction g as [|[k' vs'] g IH]; simpl.
  - exists ws. split; [constructor|done].
  - destruct (String.eqb r k') eqn:E.
    + apply String.eqb_eq in E as ->. exists (vs' ++ ws)%list.
      split; [constructor|apply elem_of_app; by right].
    + destruct IH as (vs & ? & ?). exists vs. split; [by constructor|done].
Qed.

Lemma group_append_old r ws g k vs v :
  (k, vs) ∈ g -> v ∈ vs -> exists vs', (k, vs') ∈ group_append r ws g /\ v ∈ vs'.
Proof.
  induction g as [|[k' vs'] g IH]; simpl; [by intros ?%not_elem_of_nil|].
  intros [Hk|Hk]%elem_of_cons Hv.
  - injection Hk as <- <-. destruct (String.eqb r k).
    + exists (vs ++ ws)%list. split; [constructor|apply elem_of_app; by left].
    + exists vs. split; [constructor|done].
  - destruct (String.eqb r k').
    + exists vs. split; [by constructor|done].
    + destruct (IH Hk Hv) as (vs0 & ? & ?). exists vs0. split; [by constructor|done].
Qed.

Lemma group_loop_spec P cs p g :
  (forall z rz, root_of P z rz -> root_of p z rz) ->
  (forall c, c ∈ cs -> exists r, root_of P (c_id1 c) r /\ root_of P (c_id2 c) r) ->
  groups_rooted P g ->
  groups_rooted P (group_loop p cs g).2 /\
  (forall v, cand_ids cs v -> exists k vs, (k, vs) ∈ (group_loop p cs g).2 /\ v ∈ vs) /\
  (forall k vs v, (k, vs) ∈ g -> v ∈ vs ->
     exists vs', (k, vs') ∈ (group_loop p cs g).2 /\ v ∈ vs') /\
  (forall k vs v, (k, vs) ∈ (group_loop p cs g).2 -> v ∈ vs ->
     cand_ids cs v \/ exists vs0, (k, vs0) ∈ g /\ v ∈ vs0).
Proof.
  revert p g. induction cs as [|c cs IH]; intros p g Hp Hc Hg; cbn [group_loop snd].
  - split; [done|split; [|split]].
    + intros v (c & Hin & _). by apply not_elem_of_nil in Hin.
    + intros k vs v ? ?. by exists vs.
    + intros k vs v ? ?. right. by exists vs.
  - destruct (Hc c (list_elem_of_here _ _)) as (r & Hr1 & Hr2).
    destruct (find_spec p (c_id1 c) r (Hp _ _ Hr1)) as [Ef Pf].
    destruct (find p (c_id1 c)) as [p' r'] eqn:F. cbn [fst snd] in Ef, Pf. subst r'.
    set (g' := group_append r [c_id1 c; c_id2 c] g).
    assert (Hg' : groups_rooted P g').
    { destruct Hg as [Hnd Hrt]. split; [by apply group_append_nodup|].
      intros k vs Hk v Hv. destruct (group_append_mem _ _ _ _ _ _ Hk Hv) as [[-> Hw]|(vs0 & ? & ?)].
      - apply elem_of_cons in Hw as [->|Hw]; [done|].
        apply list_elem_of_singleton in Hw as ->. done.
      - by apply (Hrt k vs0). }
    destruct (IH p' g' (fun z rz H => Pf z rz (Hp z rz H))
                (fun c' H => Hc c' (list_elem_of_further _ _ _ H)) Hg')
      as (Hfin & Hall & Hold & Hmem).
    split; [done|split; [|split]].
    + intros v (c' & [->|Hc']%elem_of_cons & Hv).
      * destruct (group_append_new r [c_id1 c; c_id2 c] g v) as (vs & Hvs & Hv').
        { destruct Hv as [->| ->]; [constructor|constructor; constructor]. }
        destruct (Hold _ _ _ Hvs Hv') as (vs' & ? & ?). by exists r, vs'.
      * apply Hall. by exists c'.
    + intros k vs v Hk Hv. destruct (group_append_old r [c_id1 c; c_id2 c] g k vs v Hk Hv)
        as (vs' & ? & ?). by apply (Hold k vs').
    + intros k vs v Hk Hv. destruct (Hmem k vs v Hk Hv) as [(c' & ? & ?)|(vs0 & Hk0 & Hv0)].
      * left. exists c'. split; [by constructor|done].
      * destruct (group_append_mem _ _ _ _ _ _ Hk0 Hv0) as [[_ Hw]|?]; [|by right].
        left. exists c. split; [constructor|].
        apply elem_of_cons in Hw as [->|Hw]; [by left|].
        apply list_elem_of_singleton in Hw as ->. by right.
Qed.

Lemma dedup_groups_mem g k vs :
  (k, vs) ∈ dedup_groups g <-> exists vs0, (k, vs0) ∈ g /\ vs = remove_dups vs0.
Proof.
  unfold dedup_groups. rewrite list_elem_of_fmap. split.
  - intros ([k0 vs0] & Heq & Hin). injection Heq as -> ->. by exists vs0.
  - intros (vs0 & Hin & ->). by exists (k, vs0).
Qed.

Lemma dedup_groups_keys g : (dedup_groups g).*1 = g.*1.
Proof.
  unfold dedup_groups. induction g as [|[k vs] g IH]; [done|]. csimpl. by rewrite IH.
Qed.

Lemma nodup_keys_unique (g : list (string * list string)) k a b :
  NoDup g.*1 -> (k, a) ∈ g -> (k, b) ∈ g -> a = b.
Proof.
  induction g as [|[k' v'] g IH]; [by intros _ ?%not_elem_of_nil|].
  csimpl. intros [Hk Hnd]%NoDup_cons Ha Hb.
  apply elem_of_cons in Ha as [Ha|Ha]; apply elem_of_cons in Hb as [Hb|Hb].
  - congruence.
  - injection Ha as -> ->. exfalso. apply Hk.
    apply (list_elem_of_fmap_2 fst) in Hb. exact Hb.
  - injection Hb as -> ->. exfalso. apply Hk.
    apply (list_elem_of_fmap_2 fst) in Ha. exact Ha.
  - by apply IH.
Qed.

Lemma uf_wf_empty : uf_wf ∅.
Proof. intros x. exists x, 0. apply rn_absent, lookup_empty. Qed.

End UFFacts.

(** ** C8: the merge groups partition the ids *)

Module C8.
Import UFFacts.

(** C8.  For any list of candidate pairs (in whatever order [SORT]
    returns them), the merge groups built by the union-find have distinct
    roots as keys, contain exactly the ids of the pairs, put the two ids
    of every pair in the same group, and never list an id in two groups:
    two groups sharing an id are the same group. *)
Theorem C8_merge_groups_partition cands :
  NoDup (fuzzy_merge_groups cands).*1 /\
  (forall v, cand_ids cands v -> exists k vs, (k, vs) ∈ fuzzy_merge_groups cands /\ v ∈ vs) /\
  (forall k vs v, (k, vs) ∈ fuzzy_merge_groups cands -> v ∈ vs -> cand_ids cands v) /\
  (forall c, c ∈ cands -> exists k vs, (k, vs) ∈ fuzzy_merge_groups cands /\
                                       c_id1 c ∈ vs /\ c_id2 c ∈ vs) /\
  (forall k1 vs1 k2 vs2 v, (k1, vs1) ∈ fuzzy_merge_groups cands ->
     (k2, vs2) ∈ fuzzy_merge_groups cands -> v ∈ vs1 -> v ∈ vs2 -> k1 = k2 /\ vs1 = vs2).
Proof.
  unfold fuzzy_merge_groups.
  destruct (union_all_spec cands ∅ uf_wf_empty) as (Hwf & _ & Hj).
  set (P := union_all ∅ cands) in *.
  assert (H0 : groups_rooted P []).
  { split; [constructor|]. intros k vs H. by apply not_elem_of_nil in H. }
  destruct (group_loop_spec P cands P [] (fun _ _ H => H) Hj H0)
    as ([Hnd Hrt] & Hall & _ & Hmem).
  destruct (group_loop P cands []) as [p' g]. cbn [snd] in *.
  assert (Hpart : forall k1 vs1 k2 vs2 v, (k1, vs1) ∈ g -> (k2, vs2) ∈ g -> v ∈ vs1 -> v ∈ vs2 ->
                  k1 = k2 /\ vs1 = vs2).
  { intros k1 vs1 k2 vs2 v H1 H2 Hv1 Hv2.
    assert (k1 = k2) as <- by (eapply root_of_det; [apply (Hrt _ _ H1 _ Hv1)|apply (Hrt _ _ H2 _ Hv2)]).
    split; [done|]. by eapply nodup_keys_unique. }
  split; [by rewrite dedup_groups_keys|split; [|split; [|split]]].
  - intros v Hv. destruct (Hall v Hv) as (k & vs & Hk & Hvs).
    exists k, (remove_dups vs). split; [apply dedup_groups_mem; by exists vs|].
    by apply elem_of_remove_dups.
  - intros k vs v Hk Hv. apply dedup_groups_mem in Hk as (vs0 & Hk & ->).
    rewrite elem_of_remove_dups in Hv.
    destruct (Hmem k vs0 v Hk Hv) as [?|(vs1 & Hvs1 & _)]; [done|].
    by apply not_elem_of_nil in Hvs1.
  - intros c Hc.
    destruct (Hall (c_id1 c) (ltac:(exists c; by split; [|left]))) as (k1 & vs1 & H1 & Hv1).
    destruct (Hall (c_id2 c) (ltac:(exists c; by split; [|right]))) as (k2 & vs2 & H2 & Hv2).
    destruct (Hj c Hc) as (r & Hr1 & Hr2).
    assert (k1 = r) as -> by (eapply root_of_det; [apply (Hrt _ _ H1 _ Hv1)|exact Hr1]).
    assert (k2 = r) as -> by (eapply root_of_det; [apply (Hrt _ _ H2 _ Hv2)|exact Hr2]).
    assert (vs1 = vs2) as <- by (eapply nodup_keys_unique; eauto).
    exists r, (remove_dups vs1). split; [apply dedup_groups_mem; by exists vs1|].
    split; by apply elem_of_remove_dups.
  - intros k1 vs1 k2 vs2 v H1 H2 Hv1 Hv2.
    apply dedup_groups_mem in H1 as (w1 & H1 & ->). apply dedup_groups_mem in H2 as (w2 & H2 & ->).
    rewrite elem_of_remove_dups in Hv1, Hv2.
    destruct (Hpart _ _ _ _ _ H1 H2 Hv1 Hv2) as [-> ->]. done.
Qed.

End C8.

(** ** Facts on the fuzzy stage *)

Module FuzzyFacts.
Import UFFacts.

Lemma append_cancel_l (p a b : string) : p ++ a = p ++ b -> a = b.
Proof. induction p as [|ch p IH]; simpl; [done|]. intros H. injection H. apply IH. Qed.

Lemma g_id_key e e' : g_id e = g_id e' -> g_key e = g_key e'.
Proof. unfold g_id. intros H. do 2 apply append_cancel_l in H. exact H. Qed.

Lemma string_ltb_irrefl k : String.ltb k k = false.
Proof.
  unfold String.ltb. assert (String.compare k k = Eq) as ->; [|done].
  induction k as [|a k IH]; simpl; [done|].
  unfold Ascii.compare. by rewrite N.compare_refl.
Qed.

Lemma two_distinct_length (l : list string) x y : x ∈ l -> y ∈ l -> x <> y -> 2 <= length l.
Proof.
  destruct l as [|a [|b l]]; simpl.
  - by intros ?%not_elem_of_nil.
  - intros Hx Hy Hne. apply list_elem_of_singleton in Hx, Hy. congruence.
  - lia.
Qed.

Lemma fold_max_in (rest : list GoldenEntity) e :
  fold_left (fun best x => if primary_key_lt best x then x else best) rest e ∈ e :: rest.
Proof.
  revert e. induction rest as [|x rest IH]; intros e; simpl; [constructor|].
  destruct (primary_key_lt e x).
  - specialize (IH x). apply elem_of_cons in IH as [->|H]; [constructor; constructor|].
    by do 2 constructor.
  - specialize (IH e). apply elem_of_cons in IH as [->|H]; [constructor|]. by do 2 constructor.
Qed.

Lemma py_max_primary_in l p : py_max_primary l = Some p -> p ∈ l.
Proof. destruct l as [|e rest]; simpl; [done|]. intros [= <-]. apply fold_max_in. Qed.

Lemma filter_map_mem (K : list string) (f : GoldenEntity -> GoldenEntity) l :
  (forall e, g_key (f e) = g_key e /\ g_name (f e) = g_name e /\ g_type (f e) = g_type e) ->
  forall e', e' ∈ filter (fun e => g_key e ∉ K) (map f l) ->
  (g_key e' ∉ K) /\ (exists e, e ∈ l /\ g_key e' = g_key e /\ g_name e' = g_name e /\ g_type e' = g_type e).
Proof.
  intros Hf e' He'. apply list_elem_of_filter in He' as [Hk He'].
  split; [done|]. apply list_elem_of_In, in_map_iff in He' as (e & <- & He).
  exists e. split; [by apply list_elem_of_In|apply Hf].
Qed.

Lemma Some_pair_inv {A B} (a c : A) (b d : B) : Some (a, b) = Some (c, d) -> a = c /\ b = d.
Proof. intros H. inversion H. done. Qed.

Lemma Some_triple_inv {A B C} (a a' : A) (b b' : B) (c c' : C) :
  Some (a, b, c) = Some (a', b', c') -> a = a' /\ b = b' /\ c = c'.
Proof. intros H. inversion H. done. Qed.

(** What one merge leaves: entities of the store it started from, with
    key, name and type unchanged; and never two ids of the group. *)
Lemma merge_group_spec s ids s' n :
  merge_group s ids = Some (s', n) ->
  (forall e', e' ∈ gs_entities s' -> exists e, e ∈ gs_entities s /\
     g_key e' = g_key e /\ g_name e' = g_name e /\ g_type e' = g_type e) /\
  (forall x y, x ∈ ids -> y ∈ ids -> x <> y ->
     ~ ((exists e, e ∈ gs_entities s' /\ g_id e = x) /\
        (exists e, e ∈ gs_entities s' /\ g_id e = y))).
Proof.
  unfold merge_group.
  destruct (Nat.ltb (length ids) 2) eqn:Elen.
  - intros Heq. apply Some_pair_inv in Heq as [<- _].
    split; [intros e' He'; by exists e'|].
    intros x y Hx Hy Hne. apply Nat.ltb_lt in Elen.
    pose proof (two_distinct_length _ _ _ Hx Hy Hne). lia.
  - destruct (py_max_primary (fetch s ids)) as [pr|] eqn:Ep; [|done].
    apply py_max_primary_in in Ep.
    cbv zeta. intros Heq. apply Some_pair_inv in Heq as [Hs _]. subst s'. cbn [gs_entities].
    set (secs := filter (fun e => g_id e <> g_id pr) (fetch s ids)).
    match goal with
    | |- context [filter (fun e => g_key e ∉ ?K) (map ?f (gs_entities s))] =>
        assert (Hmem := filter_map_mem K f (gs_entities s)
                          (ltac:(intros e; simpl; by destruct (String.eqb _ _))))
    end.
    split.
    + intros e' He'. by destruct (Hmem e' He') as [_ ?].
    + intros x y Hx Hy Hne [(ex & Hex & <-) (ey & Hey & <-)].
      destruct (Hmem ex Hex) as [Hkx (ex0 & Hex0 & Hkx0 & _)].
      destruct (Hmem ey Hey) as [Hky (ey0 & Hey0 & Hky0 & _)].
      assert (Hsec : forall z z0, g_key z = g_key z0 -> z0 ∈ gs_entities s -> g_id z ∈ ids ->
                       g_key z ∉ map g_key secs -> g_id z = g_id pr).
      { intros z z0 Hz Hz0 Hid Hnot.
        assert (Hzid : g_id z = g_id z0) by (unfold g_id; by rewrite Hz).
        destruct (decide (g_id z = g_id pr)) as [?|Hn]; [done|].
        exfalso. apply Hnot. rewrite Hz. apply list_elem_of_In, in_map, list_elem_of_In.
        unfold secs, fetch. apply list_elem_of_filter. rewrite <- Hzid.
        split; [exact Hn|]. apply list_elem_of_filter. rewrite <- Hzid. by split. }
      pose proof (Hsec ex ex0 Hkx0 Hex0 Hx Hkx). pose proof (Hsec ey ey0 Hky0 Hey0 Hy Hky).
      congruence.
Qed.

Lemma merge_all_spec groups s m s' n :
  merge_all s m groups = Some (s', n) ->
  (forall e', e' ∈ gs_entities s' -> exists e, e ∈ gs_entities s /\
     g_key e' = g_key e /\ g_name e' = g_name e /\ g_type e' = g_type e) /\
  (forall k ids x y, (k, ids) ∈ groups -> x ∈ ids -> y ∈ ids -> x <> y ->
     ~ ((exists e, e ∈ gs_entities s' /\ g_id e = x) /\
        (exists e, e ∈ gs_entities s' /\ g_id e = y))).
Proof.
  revert s m. induction groups as [|[k0 ids0] groups IH]; intros s m; cbn [merge_all].
  - intros [= <- _]. split; [intros e' He'; by exists e'|]. by intros ? ? ? ? ?%not_elem_of_nil.
  - destruct (merge_group s ids0) as [[s1 n1]|] eqn:Eg; [|done]. intros Hall.
    destruct (merge_group_spec _ _ _ _ Eg) as [Hp1 Hc1].
    destruct (IH _ _ Hall) as [Hp Hc].
    assert (Hpres : forall x, (exists e, e ∈ gs_entities s' /\ g_id e = x) ->
                              exists e, e ∈ gs_entities s1 /\ g_id e = x).
    { intros x (e' & He' & <-). destruct (Hp e' He') as (e & He & Hk & _).
      exists e. split; [done|]. unfold g_id. by rewrite Hk. }
    split.
    + intros e' He'. destruct (Hp e' He') as (e1 & He1 & Hk1 & Hn1 & Ht1).
      destruct (Hp1 e1 He1) as (e & He & Hk & Hn & Ht). exists e.
      split; [done|]. split; [congruence|split; congruence].
    + intros k ids x y [Hk|Hk]%elem_of_cons Hx Hy Hne.
      * injection Hk as -> ->. intros [Px Py]. apply (Hc1 x y Hx Hy Hne).
        split; by apply Hpres.
      * by apply (Hc k ids).
Qed.

Lemma fuzzy_candidates_mem tokens dist s md mc c :
  c ∈ fuzzy_candidates tokens dist s md mc <->
  exists e1 e2, e1 ∈ gs_entities s /\ e2 ∈ gs_entities s /\
                fuzzy_pair tokens dist md mc e1 e2 = Some c.
Proof.
  unfold fuzzy_candidates. rewrite (merge_sort_Permutation _ _).
  rewrite list_elem_of_In, in_flat_map. split.
  - intros (e1 & He1 & Hc). apply in_flat_map in Hc as (e2 & He2 & Hc).
    exists e1, e2. split; [by apply list_elem_of_In|split; [by apply list_elem_of_In|]].
    destruct (fuzzy_pair _ _ _ _ e1 e2); simpl in Hc; [|done].
    destruct Hc as [->|[]]. done.
  - intros (e1 & e2 & He1 & He2 & Hc). exists e1. split; [by apply list_elem_of_In|].
    apply in_flat_map. exists e2. split; [by apply list_elem_of_In|]. rewrite Hc. by left.
Qed.

Lemma fuzzy_pair_congr tokens dist md mc e1 e2 e1' e2' :
  g_key e1' = g_key e1 -> g_name e1' = g_name e1 -> g_type e1' = g_type e1 ->
  g_key e2' = g_key e2 -> g_name e2' = g_name e2 -> g_type e2' = g_type e2 ->
  fuzzy_pair tokens dist md mc e1' e2' = fuzzy_pair tokens dist md mc e1 e2.
Proof.
  intros Hk1 Hn1 Ht1 Hk2 Hn2 Ht2. unfold fuzzy_pair, g_id.
  by rewrite Hk1, Hn1, Ht1, Hk2, Hn2, Ht2.
Qed.

Lemma fuzzy_pair_ids tokens dist md mc e1 e2 c :
  fuzzy_pair tokens dist md mc e1 e2 = Some c ->
  c_id1 c = g_id e1 /\ c_id2 c = g_id e2 /\ String.ltb (g_key e1) (g_key e2) = true.
Proof.
  unfold fuzzy_pair.
  destruct (String.ltb (g_key e1) (g_key e2)) eqn:E; simpl; [|done].
  destruct (_ && _); [|done]. by intros [= <-].
Qed.

Lemma merge_groups_pair cands c :
  c ∈ cands -> exists k vs, (k, vs) ∈ fuzzy_merge_groups cands /\ c_id1 c ∈ vs /\ c_id2 c ∈ vs.
Proof.
  intros Hc. unfold fuzzy_merge_groups.
  destruct (union_all_spec cands ∅ uf_wf_empty) as (Hwf & _ & Hj).
  set (P := union_all ∅ cands) in *.
  assert (H0 : groups_rooted P []).
  { split; [constructor|]. intros k vs H. by apply not_elem_of_nil in H. }
  destruct (group_loop_spec P cands P [] (fun _ _ H => H) Hj H0)
    as ([Hnd Hrt] & Hall & _ & _).
  destruct (group_loop P cands []) as [p' g]. cbn [snd] in *.
  destruct (Hall (c_id1 c) (ltac:(exists c; by split; [|left]))) as (k1 & vs1 & H1 & Hv1).
  destruct (Hall (c_id2 c) (ltac:(exists c; by split; [|right]))) as (k2 & vs2 & H2 & Hv2).
  destruct (Hj c Hc) as (r & Hr1 & Hr2).
  assert (k1 = r) as -> by (eapply root_of_det; [apply (Hrt _ _ H1 _ Hv1)|exact Hr1]).
  assert (k2 = r) as -> by (eapply root_of_det; [apply (Hrt _ _ H2 _ Hv2)|exact Hr2]).
  assert (vs1 = vs2) as <- by (eapply nodup_keys_unique; eauto).
  exists r, (remove_dups vs1). split; [apply dedup_groups_mem; by exists vs1|].
  split; by apply elem_of_remove_dups.
Qed.

End FuzzyFacts.

Module C6.
Import FuzzyFixtures FuzzyFacts.

(** C6.  Running [consolidate_fuzzy_stage2] (not as a dry run) and then
    running it again on the golden-entity store it produced: the second
    run finds no qualifying candidate pair and merges nothing, returning
    the store unchanged, whatever tokenizer and edit distance the search
    engine provides and whatever thresholds are used. *)
Theorem C6_rerun_fixed_point tokens edit_distance s md mc cands s' n :
  consolidate_fuzzy_stage2 tokens edit_distance s md mc false = Some (cands, s', n) ->
  fuzzy_candidates tokens edit_distance s' md mc = [] /\
  consolidate_fuzzy_stage2 tokens edit_distance s' md mc false = Some ([], s', 0).
Proof.
  unfold consolidate_fuzzy_stage2. cbn [orb].
  assert (Hempty : fuzzy_candidates tokens edit_distance s' md mc = [] ->
                   fuzzy_candidates tokens edit_distance s' md mc = [] /\
                   (if Nat.eqb (length (fuzzy_candidates tokens edit_distance s' md mc)) 0
                    then Some (fuzzy_candidates tokens edit_distance s' md mc, s', 0)
                    else match merge_all s' 0 (fuzzy_merge_groups
                                 (fuzzy_candidates tokens edit_distance s' md mc)) with
                         | Some (s'', m) => Some (fuzzy_candidates tokens edit_distance s' md mc, s'', m)
                         | None => None end) = Some ([], s', 0)).
  { intros ->. done. }
  destruct (Nat.eqb (length (fuzzy_candidates tokens edit_distance s md mc)) 0) eqn:E0.
  - intros Heq. apply Some_triple_inv in Heq as (_ & <- & _). apply Hempty.
    apply Nat.eqb_eq, length_zero_iff_nil in E0. exact E0.
  - destruct (merge_all s 0 _) as [[s1 m]|] eqn:Em; [|done].
    intros Heq. apply Some_triple_inv in Heq as (_ & <- & _). apply Hempty.
    destruct (merge_all_spec _ _ _ _ _ Em) as [Hprov Hcoll].
    destruct (fuzzy_candidates tokens edit_distance s1 md mc) as [|c rest] eqn:Ec; [done|].
    exfalso.
    assert (Hc1 : c ∈ fuzzy_candidates tokens edit_distance s1 md mc) by (rewrite Ec; left).
    apply fuzzy_candidates_mem in Hc1 as (e1' & e2' & He1' & He2' & Hp').
    destruct (Hprov e1' He1') as (e1 & He1 & Hk1 & Hn1 & Ht1).
    destruct (Hprov e2' He2') as (e2 & He2 & Hk2 & Hn2 & Ht2).
    pose proof Hp' as Hids. apply fuzzy_pair_ids in Hids as (Hid1 & Hid2 & Hlt).
    rewrite (fuzzy_pair_congr _ _ _ _ e1 e2) in Hp' by done.
    assert (Hc0 : c ∈ fuzzy_candidates tokens edit_distance s md mc)
      by (apply fuzzy_candidates_mem; eauto 6).
    destruct (merge_groups_pair _ _ Hc0) as (k & vs & Hg & Hv1 & Hv2).
    apply (Hcoll k vs (c_id1 c) (c_id2 c) Hg Hv1 Hv2).
    + rewrite Hid1, Hid2. intros Heq. apply g_id_key in Heq.
      rewrite Heq, string_ltb_irrefl in Hlt. done.
    + split; [exists e1'|exists e2']; done.
Qed.

(** C6 (witness).  On three signals "abcde", "abcdf", "abcdg" with at most
    one edit and confidence at least 3/4, the first run merges the three
    into one (two merges), and the run on its result is a no-op. *)
Lemma C6_rerun_fixed_point_witness :
  exists cands s' n,
    consolidate_fuzzy_stage2 (fun _ => []) Str.levenshtein fuzzy_store 1 (3#4) false
      = Some (cands, s', n) /\
    n = 2%nat /\ length (gs_entities s') = 1%nat /\
    fuzzy_candidates (fun _ => []) Str.levenshtein s' 1 (3#4) = [] /\
    consolidate_fuzzy_stage2 (fun _ => []) Str.levenshtein s' 1 (3#4) false = Some ([], s', 0%nat).
Proof.
  assert (Hr : option_map (fun r : list FuzzyCand * GStore * nat =>
                             let '(_, s', n) := r in (n, length (gs_entities s')))
                 (consolidate_fuzzy_stage2 (fun _ => []) Str.levenshtein fuzzy_store 1 (3#4) false)
               = Some (2%nat, 1%nat)) by (vm_compute; reflexivity).
  destruct (consolidate_fuzzy_stage2 (fun _ => []) Str.levenshtein fuzzy_store 1 (3#4) false)
    as [[[cands s'] n]|] eqn:E; [|discriminate Hr].
  cbn [option_map] in Hr. apply (f_equal (fun o => from_option id (0%nat, 0%nat) o)) in Hr.
  cbn in Hr. apply pair_equal_spec in Hr as [Hn Hl].
  exists cands, s', n. split; [reflexivity|]. split; [exact Hn|]. split; [exact Hl|].
  apply (C6_rerun_fixed_point _ _ _ _ _ _ _ _ E).
Defined.

End C6.

(* ================================================================== *)
(** * Further properties of the code *)

(** ** src/utils.py: [sanitize_id], [strip_comments], [expand_acronym] *)

Module UtilsFacts.
Import Utils.

Lemma replace_illegal_key_chars s : Py.all_chars is_key_char (replace_illegal s) = true.
Proof.
  unfold replace_illegal. induction s as [|a s IH]; simpl; [done|].
  destruct (is_key_char a) eqn:E; simpl; rewrite IH, ?E; done.
Qed.

Lemma lstrip_ch_all P c s : Py.all_chars P s = true -> Py.all_chars P (lstrip_ch c s) = true.
Proof.
  induction s as [|a s IH]; simpl; [done|].
  intros [Ha Hs]%andb_prop. destruct (ascii_dec a c); [by apply IH|]. simpl. by rewrite Ha, Hs.
Qed.

Lemma rstrip_ch_all P c s : Py.all_chars P s = true -> Py.all_chars P (rstrip_ch c s) = true.
Proof.
  induction s as [|a s IH]; simpl; [done|].
  intros [Ha Hs]%andb_prop. specialize (IH Hs).
  destruct (rstrip_ch c s) as [|b r] eqn:E.
  - destruct (ascii_dec a c); simpl; [done|]. by rewrite Ha.
  - simpl in *. by rewrite Ha, IH.
Qed.

Lemma lstrip_ch_head c s a t : lstrip_ch c s = String a t -> a <> c.
Proof.
  induction s as [|b s IH]; simpl; [done|].
  destruct (ascii_dec b c) as [->|Hn]; [apply IH|]. by intros [= <- _].
Qed.

Lemma append_cons a (s t : string) : (String a s ++ t)%string = String a (s ++ t).
Proof. reflexivity. Qed.

Lemma append_nil (t : string) : ("" ++ t)%string = t.
Proof. reflexivity. Qed.

Lemma string_app_assoc (x y z : string) : (x ++ (y ++ z))%string = ((x ++ y) ++ z)%string.
Proof. induction x as [|a x IH]; [done|]. by rewrite !append_cons, IH. Qed.

Lemma rstrip_ch_last c s t a : rstrip_ch c s = (t ++ String a EmptyString)%string -> a <> c.
Proof.
  revert t. induction s as [|b s IH]; intros t; simpl.
  - by destruct t.
  - destruct (rstrip_ch c s) as [|x r] eqn:E.
    + destruct (ascii_dec b c) as [Hb|Hb].
      * by destruct t.
      * destruct t as [|y t]; rewrite ?append_cons, ?append_nil; [by intros [= <-]|].
        intros [= _ Ht]. by destruct t.
    + destruct t as [|y t]; rewrite ?append_cons, ?append_nil.
      * by intros [=].
      * intros [= _ Hr]. by apply (IH t).
Qed.

Lemma lstrip_ch_suffix c s : exists p, s = (p ++ lstrip_ch c s)%string.
Proof.
  induction s as [|b s IH]; simpl; [by exists ""|].
  destruct (ascii_dec b c).
  - destruct IH as [p Hp]. exists (String b p). rewrite append_cons. by rewrite <- Hp.
  - by exists "".
Qed.

Lemma strip_ch_last c s t a : strip_ch c s = (t ++ String a EmptyString)%string -> a <> c.
Proof.
  unfold strip_ch. intros H. destruct (lstrip_ch_suffix c (rstrip_ch c s)) as [p Hp].
  rewrite H, string_app_assoc in Hp. by apply (rstrip_ch_last c s (p ++ t)).
Qed.

(** [strip_comments] *)
Lemma strip_line_comment_head s :
  strip_line true s = EmptyString \/ exists t, strip_line true s = String NL t.
Proof.
  induction s as [|a s IH]; simpl; [by left|].
  destruct (ascii_dec a NL) as [->|]; [right; by eexists|done].
Qed.

Lemma strip_line_false_cons a s :
  strip_line false (String a s) =
  if String.prefix "//" (String a s) then strip_line true s else String a (strip_line false s).
Proof. reflexivity. Qed.

Lemma strip_line_slash_head s t :
  strip_line false s = String "/" t ->
  exists s', s = String "/" s' /\ String.prefix "/" s' = false.
Proof.
  destruct s as [|a s]; [done|]. rewrite strip_line_false_cons.
  destruct (String.prefix "//" (String a s)) eqn:Ep.
  - intros H. destruct (strip_line_comment_head s) as [E|[u E]]; rewrite E in H; [congruence|].
    injection H as Hc _. by compute in Hc.
  - intros [= -> _]. exists s. split; [done|].
    destruct s as [|b s]; [done|]. simpl in *.
    destruct (ascii_dec "/" b); [subst; simpl in Ep|]; done.
Qed.

Lemma contains_cons p a s :
  Str.contains p (String a s) = String.prefix p (String a s) || Str.contains p s.
Proof. reflexivity. Qed.

Lemma prefix_cons a s b t :
  String.prefix (String a s) (String b t) = if ascii_dec a b then String.prefix s t else false.
Proof. reflexivity. Qed.

Lemma strip_line_true_cons a s :
  strip_line true (String a s) =
  if ascii_dec a NL then String a (strip_line false s) else strip_line true s.
Proof. reflexivity. Qed.

Lemma strip_line_no_double_slash b s : Str.contains "//" (strip_line b s) = false.
Proof.
  revert b. induction s as [|a s IH]; intros b; [done|].
  destruct b.
  - rewrite strip_line_true_cons. destruct (ascii_dec a NL) as [->|]; [|apply IH].
    rewrite contains_cons, IH, orb_false_r. reflexivity.
  - rewrite strip_line_false_cons.
    destruct (String.prefix "//" (String a s)) eqn:Ep; [apply IH|].
    rewrite contains_cons, IH, orb_false_r, prefix_cons.
    destruct (ascii_dec "/" a) as [<-|Hn]; [|done].
    destruct (strip_line false s) as [|c t] eqn:E; [done|].
    rewrite prefix_cons. destruct (ascii_dec "/" c) as [<-|Hc]; [|done].
    destruct (strip_line_slash_head _ _ E) as (s' & -> & _).
    destruct s'; discriminate Ep.
Qed.

Lemma strip_block_fuel_cons f a s :
  strip_block_fuel (S f) (String a s) =
  match (if String.prefix "/*" (String a s) then after_close (Py.sdrop 2 (String a s)) else None) with
  | Some rest => strip_block_fuel f rest
  | None => String a (strip_block_fuel f s)
  end.
Proof. reflexivity. Qed.

Lemma strip_block_fuel_no_slash f s : Py.has_char "/" s = false -> strip_block_fuel f s = s.
Proof.
  revert s. induction f as [|f IH]; intros s Hs; [done|].
  destruct s as [|a s]; [done|]. rewrite strip_block_fuel_cons. simpl in Hs.
  destruct (ascii_dec a "/") as [->|Hn]; [done|].
  rewrite prefix_cons. destruct (ascii_dec "/" a) as [<-|]; [done|].
  by rewrite IH.
Qed.

Lemma strip_line_no_slash s : Py.has_char "/" s = false -> strip_line false s = s.
Proof.
  induction s as [|a s IH]; [done|]. intros Hs. rewrite strip_line_false_cons. simpl in Hs.
  destruct (ascii_dec a "/") as [->|Hn]; [done|].
  rewrite prefix_cons. destruct (ascii_dec "/" a) as [<-|]; [done|].
  by rewrite IH.
Qed.

(** [expand_acronym] *)
Lemma expand_loop_spec (d : gmap string string) (toks acc : list string) (changed : bool) :
  fold_left (fun '(acc, changed) t =>
               match d !! Py.lower t with
               | Some v => ((acc ++ [v])%list, true)
               | None => ((acc ++ [t])%list, changed)
               end) toks (acc, changed)
  = ((acc ++ map (fun t => default t (d !! Py.lower t)) toks)%list,
     changed || existsb (fun t => match d !! Py.lower t with Some _ => true | None => false end) toks).
Proof.
  revert acc changed. induction toks as [|t toks IH]; intros acc changed; simpl.
  - by rewrite app_nil_r, orb_false_r.
  - destruct (d !! Py.lower t) eqn:E; rewrite IH; cbn [default];
      rewrite <- app_assoc; simpl; f_equal; by destruct changed.
Qed.

Lemma has_char_app c x y : Py.has_char c (x ++ y) = Py.has_char c x || Py.has_char c y.
Proof. induction x as [|a x IH]; [done|]. rewrite append_cons. simpl. by destruct (ascii_dec a c). Qed.

Lemma all_chars_app P x y : Py.all_chars P (x ++ y) = Py.all_chars P x && Py.all_chars P y.
Proof. induction x as [|a x IH]; [done|]. rewrite append_cons. simpl. by rewrite IH, andb_assoc. Qed.

Lemma split_pieces_ok cur s t : piece_ok cur -> t ∈ split_pieces cur s -> piece_ok t.
Proof.
  revert cur. induction s as [|a s IH]; intros cur Hcur; simpl.
  - by intros ->%list_elem_of_singleton.
  - destruct (ascii_dec a "_") as [->|Ha].
    + intros [->|Ht]%elem_of_cons; [done|]. apply (IH ""); [split; done|done].
    + destruct (Py.is_upper a) eqn:Hu.
      * intros [->|Ht]%elem_of_cons; [done|]. apply (IH (String a "")); [|done].
        split; simpl; [by destruct (ascii_dec a "_")|done].
      * apply IH. destruct Hcur as [H1 H2]. split.
        -- rewrite has_char_app, H1. simpl. by destruct (ascii_dec a "_").
        -- destruct cur as [|b u]; simpl; [done|].
           rewrite all_chars_app, H2. simpl. by rewrite Hu.
Qed.

End UtilsFacts.

Module XUtils.
Import Utils UtilsFacts.

(** [sanitize_id] always returns a valid ArangoDB key: every character is
    in [a-zA-Z0-9_\-:.], and the result neither starts nor ends with [_]. *)
Theorem sanitize_id_valid_key raw :
  Py.all_chars is_key_char (sanitize_id raw) = true /\
  (forall a t, sanitize_id raw = String a t -> a <> "_"%char) /\
  (forall t a, sanitize_id raw = (t ++ String a EmptyString)%string -> a <> "_"%char).
Proof.
  destruct raw as [[|c r]|].
  2: { change (sanitize_id (Some (String c r))) with
         (strip_ch "_" (replace_illegal (remove_spaces (remove_keywords 0 false (String c r))))).
       split; [|split].
       - unfold strip_ch. apply lstrip_ch_all, rstrip_ch_all, replace_illegal_key_chars.
       - intros a t. apply lstrip_ch_head.
       - intros t a. apply strip_ch_last. }
  all: split; [done|split; [intros a t H; discriminate H|intros [|b t] a H; discriminate H]].
Qed.

(** [strip_comments] never leaves a [//] in its result. *)
Theorem strip_comments_no_line_comment text : Str.contains "//" (strip_comments text) = false.
Proof. apply strip_line_no_double_slash. Qed.

(** A text without any [/] is returned unchanged by [strip_comments]. *)
Theorem strip_comments_no_slash text :
  Py.has_char "/" text = false -> strip_comments text = text.
Proof.
  intros H. unfold strip_comments, strip_block.
  rewrite strip_block_fuel_no_slash by done. by apply strip_line_no_slash.
Qed.

Lemma strip_comments_no_slash_witness :
  Py.has_char "/" "assign x = y;" = false /\ strip_comments "assign x = y;" = "assign x = y;".
Proof. split; [reflexivity|]. apply strip_comments_no_slash. reflexivity. Defined.

(** [expand_acronym name d] returns a string exactly when the dictionary
    and the name are non-empty and some token of the name (lower-cased) is
    a key; the string is then the tokens, each replaced by its expansion
    when it has one, joined by single spaces. *)
Theorem expand_acronym_spec name d r :
  expand_acronym name d = Some r <->
  d <> ∅ /\ name <> "" /\
  (exists t, t ∈ acronym_tokens name /\ is_Some (d !! Py.lower t)) /\
  r = Str.join_space (map (fun t => default t (d !! Py.lower t)) (acronym_tokens name)).
Proof.
  unfold expand_acronym, expand_loop.
  destruct (decide (d = ∅)) as [Hd|Hd].
  { split; [done|]. by intros (? & _). }
  destruct name as [|c n].
  { split; [done|]. by intros (_ & ? & _). }
  rewrite expand_loop_spec. cbn [app orb].
  set (toks := acronym_tokens (String c n)).
  destruct (existsb _ toks) eqn:E.
  - apply existsb_exists in E as (t & Ht & Hs).
    split.
    + intros [= <-]. split; [done|split; [done|split; [|done]]].
      exists t. split; [by apply list_elem_of_In|]. by destruct (d !! Py.lower t).
    + intros (_ & _ & _ & ->). done.
  - split; [done|]. intros (_ & _ & (t & Ht & [v Hv]) & _).
    assert (existsb (fun t => match d !! Py.lower t with Some _ => true | None => false end)
              toks = true) as E'.
    { apply existsb_exists. exists t. split; [by apply list_elem_of_In|]. by rewrite Hv. }
    congruence.
Qed.

(** The tokens [expand_acronym] looks up are never empty, contain no [_],
    and have an upper-case letter at most in first position: the name is
    cut at each [_] and before each upper-case letter. *)
Theorem acronym_tokens_shape name t :
  t ∈ acronym_tokens name ->
  t <> "" /\ Py.has_char "_" t = false /\
  match t with EmptyString => True | String _ u => Py.all_chars (fun c => negb (Py.is_upper c)) u = true end.
Proof.
  unfold acronym_tokens. intros [Hne Ht]%list_elem_of_filter.
  split; [done|]. apply (split_pieces_ok "" name); [split; done|done].
Qed.

Lemma acronym_tokens_shape_witness :
  "Insn" ∈ acronym_tokens "if_Insn" /\ "Insn" <> "" /\ Py.has_char "_" "Insn" = false /\
  Py.all_chars (fun c => negb (Py.is_upper c)) "nsn" = true.
Proof.
  assert (H : "Insn" ∈ acronym_tokens "if_Insn") by (vm_compute; right; left).
  split; [exact H|]. exact (acronym_tokens_shape "if_Insn" "Insn" H).
Defined.

End XUtils.

(** ** src/utils.py [normalize_hardware_name] and the bridging helpers *)

Module BridgeHelperFacts.
Import UtilsFacts.

Lemma prefix_refl s : String.prefix s s = true.
Proof. induction s as [|a s IH]; [done|]. rewrite prefix_cons. by destruct (ascii_dec a a). Qed.

Lemma sdrop_length s : Py.sdrop (String.length s) s = "".
Proof. by induction s. Qed.

Lemma substitute_fuel_nil f search repl : Str.substitute_fuel f "" search repl = "".
Proof. by destruct f. Qed.

Lemma substitute_fuel_absent f c repl s :
  Py.has_char c s = false -> Str.substitute_fuel f s (String c EmptyString) repl = s.
Proof.
  revert s. induction f as [|f IH]; intros s Hs; [done|].
  destruct s as [|a s]; [done|]. simpl in Hs.
  destruct (ascii_dec a c) as [->|Hn]; [done|].
  change (Str.substitute_fuel (S f) (String a s) (String c "") repl) with
    (if String.prefix (String c "") (String a s)
     then repl ++ Str.substitute_fuel f (Py.sdrop (String.length (String c "")) (String a s))
                                      (String c "") repl
     else String a (Str.substitute_fuel f s (String c "") repl)).
  rewrite prefix_cons. destruct (ascii_dec c a) as [<-|]; [done|]. by rewrite IH.
Qed.

Lemma collapse_ws_plain b s :
  Py.all_chars (fun c => negb (Str.is_regex_space c)) s = true -> Str.collapse_ws_acc b s = s.
Proof.
  revert b. induction s as [|a s IH]; intros b; [done|]. simpl.
  intros [Ha Hs]%andb_prop. destruct (Str.is_regex_space a); [done|]. by rewrite IH.
Qed.

Lemma qle_bool_refl (x : Q) : Qle_bool x x = true.
Proof. apply Qle_bool_iff, Qle_refl. Qed.

Lemma best_match_none l : best_match l = None <-> l = [].
Proof.
  destruct l as [|x r]; simpl; [done|]. split; [|done].
  by destruct (best_match r); [destruct (Qgtb _ _)|].
Qed.

Lemma best_match_first l m :
  best_match l = Some m ->
  exists l1 l2, l = (l1 ++ m :: l2)%list /\
    Forall (fun x => (e_score x < e_score m)%Q) l1 /\
    Forall (fun x => (e_score x <= e_score m)%Q) l2.
Proof.
  revert m. induction l as [|x r IH]; intros m; simpl; [done|].
  destruct (best_match r) as [y|] eqn:Er.
  - destruct (IH y eq_refl) as (l1 & l2 & -> & H1 & H2).
    unfold Qgtb. destruct (Qle_bool (e_score y) (e_score x)) eqn:Ey; simpl; intros [= <-].
    + apply Qle_bool_iff in Ey. exists [], (l1 ++ y :: l2)%list.
      split; [done|]. split; [constructor|].
      apply Forall_app. split; [|constructor; [exact Ey|]].
      * eapply Forall_impl; [exact H1|]. intros z Hz. apply Qlt_le_weak. exact (Qlt_le_trans _ _ _ Hz Ey).
      * eapply Forall_impl; [exact H2|]. intros z Hz. exact (Qle_trans _ _ _ Hz Ey).
    + exists (x :: l1), l2. split; [done|]. split; [|done].
      constructor; [|done]. apply Qnot_le_lt. intros Hle. apply Qle_bool_iff in Hle. congruence.
  - intros [= <-]. apply best_match_none in Er as ->. by exists [], [].
Qed.

Lemma normalize_name_aql_empty x :
  x <> "" -> Py.has_char "_" x = false ->
  Py.all_chars (fun c => negb (Str.is_regex_space c)) x = true ->
  normalize_name_aql x = "".
Proof.
  intros Hne Hu Hw. unfold normalize_name_aql, Str.regex_replace_ws.
  rewrite collapse_ws_plain by done.
  change (Str.aql_substitute x "_" " ") with (Str.substitute_fuel (S (String.length x)) x "_" " ").
  rewrite substitute_fuel_absent by done.
  destruct x as [|a s]; [done|].
  change (Str.aql_substitute (String a s) (String a s) " ") with
    (if String.prefix (String a s) (String a s)
     then " " ++ Str.substitute_fuel (String.length (String a s))
                   (Py.sdrop (String.length (String a s)) (String a s)) (String a s) " "
     else String a (Str.substitute_fuel (String.length (String a s)) s (String a s) " ")).
  rewrite prefix_refl, sdrop_length, substitute_fuel_nil. reflexivity.
Qed.

Lemma Qgtb_spec x y : Qgtb x y = true <-> (y < x)%Q.
Proof.
  unfold Qgtb. rewrite negb_true_iff. split.
  - intros H. apply Qnot_le_lt. intros Hle. apply Qle_bool_iff in Hle. congruence.
  - intros H. destruct (Qle_bool x y) eqn:E; [|done].
    apply Qle_bool_iff in E. exfalso. apply (Qlt_not_le _ _ H E).
Qed.

Lemma flat_map_edges_method (A : Type) (f : A -> Q * bool) (cands : list A) (id : A -> string)
    src th meth e :
  e ∈ flat_map (fun c => let '(s, ga) := f c in
                         if Qgtb s th then [mkResEdge src (id c) s meth ga] else []) cands ->
  e_method e = meth.
Proof.
  induction cands as [|c cs IH]; simpl; [by intros ?%not_elem_of_nil|].
  rewrite elem_of_app. intros [H|H]; [|by apply IH].
  destruct (f c) as [s ga]. destruct (Qgtb s th); [|by apply not_elem_of_nil in H].
  by apply list_elem_of_singleton in H as ->.
Qed.

Lemma bulk_item_method db col th meth item e :
  bulk_item db col th meth item = Some (Some e) -> e_method e = meth.
Proof.
  unfold bulk_item. generalize (bulk_score col) as bs. intros bs.
  destruct (Nat.ltb _ 2); [done|]. cbv zeta.
  match goal with |- context [db_view db ?q] => destruct (db_view db q) as [hits|] end;
    [|by destruct (match _ with [] => _ | _ => _ end)].
  destruct (match _ with [] => _ | _ => _ end) as [related|]; [|done].
  intros [= Eb]. apply BridgeFacts.best_match_in in Eb. by eapply flat_map_edges_method.
Qed.

Lemma collect_results_mem rs edges e :
  collect_results rs = Some edges -> e ∈ edges -> exists l, Some l ∈ rs /\ e ∈ l.
Proof.
  revert edges. induction rs as [|[r|] rs IH]; intros edges; simpl; [by intros [= <-] ?%not_elem_of_nil|..|done].
  destruct (collect_results rs) as [t|] eqn:E; [|done]. intros [= <-] [H|H]%elem_of_app.
  - exists r. split; [constructor|done].
  - destruct (IH t eq_refl H) as (l & Hl & He). exists l. split; [by constructor|done].
Qed.

Lemma bridge_collection_spec sim db col th meth tr :
  let db' := outcome_db (bridge_collection_parallel sim db col th meth tr) in
  db_items db' = db_items db /\ db_relations db' = db_relations db /\
  db_view db' = db_view db /\ db_traversal_fails db' = db_traversal_fails db /\
  forall e, e ∈ db_resolved db' -> e ∈ db_resolved db \/
    exists it, it ∈ db_items db col /\ e_from e = item_id it /\ (th < e_score e)%Q.
Proof.
  unfold bridge_collection_parallel.
  destruct (collect_results _) as [edges|] eqn:Ec; cbn [outcome_db]; [|by repeat split; auto].
  unfold write_edges. destruct edges as [|e0 es]; [by repeat split; auto|].
  cbn [db_items db_relations db_view db_traversal_fails db_resolved db_set_resolved].
  repeat split; [].
  intros e He. apply elem_of_app in He as [He|He].
  - left. destruct tr; [by apply not_elem_of_nil in He|done].
  - right. destruct (collect_results_mem _ _ _ Ec He) as (l & Hl & Hel).
    apply list_elem_of_In, in_map_iff in Hl as (it & Hw & Hit).
    exists it. split; [by apply list_elem_of_In|].
    unfold bridge_worker in Hw. destruct (item_context db col it) as [[ctx pl] pids].
    destruct (BridgeFacts.process_item_shape _ _ _ _ _ _ _ _ _ Hw) as [_ HF].
    rewrite Forall_forall in HF. destruct (HF e Hel) as [(Hf & Hg & _) _].
    split; [done|]. by apply Qgtb_spec.
Qed.

Lemma run_stages_spec sim stages db :
  let db' := outcome_db (run_stages sim stages db) in
  db_items db' = db_items db /\ db_relations db' = db_relations db /\
  db_view db' = db_view db /\ db_traversal_fails db' = db_traversal_fails db /\
  forall e, e ∈ db_resolved db' -> e ∈ db_resolved db \/
    exists col th meth tr it, (col, th, meth, tr) ∈ stages /\ it ∈ db_items db col /\
      e_from e = item_id it /\ (th < e_score e)%Q.
Proof.
  revert db. induction stages as [|[[[col th] meth] tr] stages IH]; intros db; cbn [run_stages].
  - cbn [outcome_db]. repeat split; auto.
  - pose proof (bridge_collection_spec sim db col th meth tr) as (Hi & Hr & Hv & Ht & He).
    destruct (bridge_collection_parallel sim db col th meth tr) as [db1|db1] eqn:Eb;
      cbn [outcome_db] in *.
    + destruct (IH db1) as (Hi' & Hr' & Hv' & Ht' & He').
      split; [congruence|split; [congruence|split; [congruence|split; [congruence|]]]].
      intros e Hm. destruct (He' e Hm) as [H1|(c & t & m & r & it & Hs & Hit & Hf & Hsc)].
      * destruct (He e H1) as [H0|(it & Hit & Hf & Hsc)]; [by left|].
        right. exists col, th, meth, tr, it. split; [constructor|done].
      * right. exists c, t, m, r, it. split; [by constructor|]. rewrite <- Hi. done.
    + split; [done|split; [done|split; [done|split; [done|]]]].
      intros e Hm. destruct (He e Hm) as [H0|(it & Hit & Hf & Hsc)]; [by left|].
      right. exists col, th, meth, tr, it. split; [constructor|done].
Qed.

Lemma collect_bulk_sublist (f : Item -> option (option ResEdge)) items edges :
  (forall it e, f it = Some (Some e) -> e_from e = item_id it) ->
  collect_bulk (map f items) = Some edges ->
  map e_from edges `sublist_of` map item_id items.
Proof.
  intros Hf. revert edges. induction items as [|it items IH]; intros edges; simpl.
  - intros [= <-]. constructor.
  - destruct (f it) as [[e|]|] eqn:E; [| |done];
      (destruct (collect_bulk (map f items)) as [t|]; [|done]); intros [= <-].
    + simpl. rewrite (Hf _ _ E). apply sublist_skip, IH. done.
    + apply sublist_cons, IH. done.
Qed.

Lemma collect_bulk_mem (f : Item -> option (option ResEdge)) items edges e :
  collect_bulk (map f items) = Some edges -> e ∈ edges ->
  exists it, it ∈ items /\ f it = Some (Some e).
Proof.
  revert edges. induction items as [|it items IH]; intros edges; simpl.
  - intros [= <-] ?%not_elem_of_nil. done.
  - destruct (f it) as [[e'|]|] eqn:E; [| |done];
      (destruct (collect_bulk (map f items)) as [t|]; [|done]); intros [= <-].
    + intros [->|H]%elem_of_cons; [exists it; split; [constructor|done]|].
      destruct (IH t eq_refl H) as (it' & ? & ?). exists it'. split; [by constructor|done].
    + intros H. destruct (IH t eq_refl H) as (it' & ? & ?). exists it'. split; [by constructor|done].
Qed.

End BridgeHelperFacts.

Module XBridge.
Import Fixtures BridgeHelperFacts.

(** [normalize_hardware_name] returns a name with no upper-case letter,
    no [.] and no [_], and without leading or trailing whitespace. *)
Theorem normalize_output_shape x :
  Py.all_chars NormFacts.norm_char (normalize_hardware_name x) = true /\
  Py.strip (normalize_hardware_name x) = normalize_hardware_name x.
Proof.
  destruct x as [n|]; [|done].
  split; [apply NormFacts.normalize_chars|apply NormFacts.normalize_stripped].
Qed.

(** For every name [x] that is non-empty and has no [_] and no
    whitespace, [normalize_name_aql x] is the empty string: the inner
    [SUBSTITUTE(x, '_', ' ')] leaves [x] as it is, [REGEX_REPLACE(x,
    '\\s+', ' ', true)] is [x] too, so the outer [SUBSTITUTE] searches for
    the whole of [x] in [x] and replaces it by a space, which [TRIM]
    removes. *)
Theorem normalize_name_aql_collapses x :
  x <> "" -> Py.has_char "_" x = false ->
  Py.all_chars (fun c => negb (Str.is_regex_space c)) x = true ->
  normalize_name_aql x = "".
Proof.
  intros Hne Hu Hw. unfold normalize_name_aql, Str.regex_replace_ws.
  rewrite collapse_ws_plain by exact Hw.
  change (Str.aql_substitute x "_" " ") with (Str.substitute_fuel (S (String.length x)) x "_" " ").
  rewrite substitute_fuel_absent by exact Hu.
  destruct x as [|a s]; [contradiction|].
  change (Str.aql_substitute (String a s) (String a s) " ") with
    (if String.prefix (String a s) (String a s)
     then " " ++ Str.substitute_fuel (String.length (String a s))
                   (Py.sdrop (String.length (String a s)) (String a s)) (String a s) " "
     else String a (Str.substitute_fuel (String.length (String a s)) s (String a s) " ")).
  rewrite prefix_refl, sdrop_length, substitute_fuel_nil. reflexivity.
Qed.

(** Witness: three names of different lengths and cases. *)
Lemma normalize_name_aql_collapses_witness :
  normalize_name_aql "alu" = "" /\ normalize_name_aql "RegFile" = "" /\
  normalize_name_aql "or1200except" = "".
Proof.
  split; [|split]; apply normalize_name_aql_collapses;
    solve [discriminate | reflexivity].
Defined.

(** In the bulk query, outside ports and signals, a candidate whose name
    is non-empty without [_] or whitespace gets score 1 and no graph flag
    for an item label of the same kind, whatever the two names are: both
    normalise to [""], an exact match. *)
Theorem bulk_score_collapsed col label related cand :
  label <> "" -> Py.has_char "_" label = false ->
  Py.all_chars (fun c => negb (Str.is_regex_space c)) label = true ->
  ent_name cand <> "" -> Py.has_char "_" (ent_name cand) = false ->
  Py.all_chars (fun c => negb (Str.is_regex_space c)) (ent_name cand) = true ->
  is_port_or_signal col = false ->
  (fst (bulk_score col (normalize_name_aql label) related cand) == 1)%Q /\
  snd (bulk_score col (normalize_name_aql label) related cand) = false.
Proof.
  intros H1 H2 H3 H4 H5 H6 Hc. unfold bulk_score.
  rewrite (normalize_name_aql_empty label), (normalize_name_aql_empty (ent_name cand)), Hc
    by done.
  split; reflexivity.
Qed.

Lemma bulk_score_collapsed_witness :
  (fst (bulk_score COL_MODULE (normalize_name_aql "alu") [] G2) == 1)%Q /\
  snd (bulk_score COL_MODULE (normalize_name_aql "alu") [] G2) = false.
Proof.
  apply bulk_score_collapsed; try discriminate; reflexivity.
Defined.

(** [calculate_token_overlap] is symmetric. *)
Theorem token_overlap_symmetric a b :
  (calculate_token_overlap a b == calculate_token_overlap b a)%Q.
Proof.
  unfold calculate_token_overlap.
  destruct a as [|ca a], b as [|cb b]; try reflexivity.
  cbv beta iota zeta.
  destruct (decide (token_set (String ca a) = ∅)), (decide (token_set (String cb b) = ∅));
    try reflexivity.
  rewrite (Nat.min_comm (size (token_set (String ca a)))), (intersection_comm_L (token_set (String ca a))).
  reflexivity.
Qed.

(** A text with at least one token outside the stop words overlaps itself
    completely. *)
Theorem token_overlap_self a :
  token_set a <> ∅ -> (calculate_token_overlap a a == 1)%Q.
Proof.
  intros Hne. unfold calculate_token_overlap.
  destruct a as [|c a]; [exfalso; apply Hne; reflexivity|]. cbv beta iota zeta.
  destruct (decide (token_set (String c a) = ∅)) as [E|Hn]; [done|].
  rewrite intersection_idemp_L, Nat.min_id.
  destruct (Nat.eqb (size (token_set (String c a))) 0) eqn:Ez.
  - apply Nat.eqb_eq, size_empty_inv, leibniz_equiv in Ez. contradiction.
  - apply Nat.eqb_neq in Ez. unfold Qdiv. apply Qmult_inv_r.
    intros H. unfold Qeq in H. cbn in H. lia.
Qed.

Lemma token_overlap_self_witness :
  token_set "alu result" <> ∅ /\ (calculate_token_overlap "alu result" "alu result" == 1)%Q.
Proof.
  assert (H : token_set "alu result" <> ∅).
  { intros H. apply (f_equal (fun X : gset string => size X)) in H. vm_compute in H. discriminate H. }
  split; [exact H|]. exact (token_overlap_self _ H).
Defined.

(** [matches.sort(key=score, reverse=True); matches[0]]: no match is
    chosen only for an empty list; otherwise the chosen match is the first
    one of greatest score: every match before it scores strictly less, and
    every match after it at most as much. *)
Theorem best_match_first_greatest l :
  (best_match l = None <-> l = []) /\
  (forall m, best_match l = Some m ->
     exists l1 l2, l = (l1 ++ m :: l2)%list /\
       Forall (fun x => (e_score x < e_score m)%Q) l1 /\
       Forall (fun x => (e_score x <= e_score m)%Q) l2).
Proof. split; [apply best_match_none|apply best_match_first]. Qed.

Lemma best_match_first_greatest_witness :
  best_match [edge_of "x" (1#2); edge_of "y" 1; edge_of "z" 1] = Some (edge_of "y" 1) /\
  exists l1 l2, [edge_of "x" (1#2); edge_of "y" 1; edge_of "z" 1] = (l1 ++ edge_of "y" 1 :: l2)%list /\
       Forall (fun x => (e_score x < e_score (edge_of "y" 1))%Q) l1 /\
       Forall (fun x => (e_score x <= e_score (edge_of "y" 1))%Q) l2.
Proof.
  assert (H : best_match [edge_of "x" (1#2); edge_of "y" 1; edge_of "z" 1] = Some (edge_of "y" 1))
    by reflexivity.
  split; [exact H|]. exact (proj2 (best_match_first_greatest _) _ H).
Defined.

(** The search terms of [process_item_to_entity]: the normalised label
    (at least two characters) first, then at most two more terms; none is
    empty and none is repeated. *)
Theorem search_terms_shape item terms :
  search_terms_of item = Some terms ->
  NoDup terms /\ hd "" terms = normalize (item_label item) /\
  2 <= String.length (hd "" terms) /\ Forall (fun t => t <> "") terms /\
  1 <= length terms <= 3.
Proof.
  unfold search_terms_of. destruct (item_label item) as [|c l]; [done|].
  cbv zeta. set (st := normalize (String c l)).
  destruct (Nat.ltb (String.length st) 2) eqn:Elt; [done|].
  apply Nat.ltb_ge in Elt.
  assert (Hst : st <> "") by (intros E; rewrite E in Elt; simpl in Elt; lia).
  destruct (it_expanded item) as [|e1 ex];
    [|destruct (negb (String.eqb (normalize (String e1 ex)) "") &&
                negb (String.eqb (normalize (String e1 ex)) st)) eqn:Ee;
      [apply andb_prop in Ee as [Ee1 Ee2];
       apply negb_true_iff, String.eqb_neq in Ee1, Ee2|]];
  (destruct (it_interface item) as [|i1 itf];
    [|match goal with |- context [negb (bool_decide (?x ∈ ?t))] =>
        destruct (negb (String.eqb x "") && negb (bool_decide (x ∈ t))) eqn:Ei;
        [apply andb_prop in Ei as [Ei1 Ei2];
         apply negb_true_iff, String.eqb_neq in Ei1;
         apply negb_true_iff, bool_decide_eq_false in Ei2|] end]);
  intros [= <-]; cbn [app hd length];
  (split; [repeat constructor; set_solver|]);
  (split; [done|]); (split; [done|]); (split; [repeat constructor; done|lia]).
Qed.

Lemma search_terms_shape_witness :
  search_terms_of (mkItem COL_PORT "alu.result" "ALU_Result" "" "alu output" "" "" "")
    = Some ["alu result"; "alu output"] /\
  NoDup ["alu result"; "alu output"] /\
  hd "" ["alu result"; "alu output"] = normalize (item_label (mkItem COL_PORT "alu.result" "ALU_Result" "" "alu output" "" "" "")) /\
  2 <= String.length (hd "" ["alu result"; "alu output"]) /\
  Forall (fun t => t <> "") ["alu result"; "alu output"] /\
  1 <= length ["alu result"; "alu output"] <= 3.
Proof.
  assert (H : search_terms_of (mkItem COL_PORT "alu.result" "ALU_Result" "" "alu output" "" "" "")
                = Some ["alu result"; "alu output"]) by reflexivity.
  split; [exact H|]. exact (search_terms_shape _ _ H).
Defined.

(** [get_related_entities] has no duplicates and holds exactly the parent
    entities and, unless the traversal raises, their 1..2-hop
    neighbours. *)
Theorem related_entities_spec db ps :
  NoDup (get_related_entities db ps) /\
  forall x, x ∈ get_related_entities db ps <->
    x ∈ ps \/ (db_traversal_fails db = false /\ x ∈ traverse_all (db_relations db) ps).
Proof.
  unfold get_related_entities. destruct ps as [|p ps'].
  - split; [constructor|]. intros x. split; [by intros ?%not_elem_of_nil|].
    intros [H|(_ & H)]; [by apply not_elem_of_nil in H|].
    unfold traverse_all in H. by apply not_elem_of_nil in H.
  - destruct (db_traversal_fails db).
    + split; [apply NoDup_remove_dups|]. intros x. rewrite elem_of_remove_dups. naive_solver.
    + split; [apply NoDup_remove_dups|]. intros x.
      rewrite elem_of_remove_dups, elem_of_app. naive_solver.
Qed.

(** The lexical boost never lowers a score, and raises it at most to
    [max(score, 0.95)]. *)
Theorem lexical_boost_monotone terms n s :
  (s <= lexical_boost terms n s)%Q /\ (lexical_boost terms n s <= Qmax s (19#20))%Q.
Proof.
  unfold lexical_boost.
  destruct (existsb _ terms); [destruct (existsb _ terms)|destruct (existsb _ terms)];
    (split; [apply Q.le_max_l || apply Qle_refl|]);
    first [apply Q.max_le_compat_l; apply Qle_bool_iff; reflexivity
          |apply Q.le_max_l].
Qed.

(** [bridge_all] (the interactive path), whether it completes or raises,
    changes nothing but the [RESOLVED_TO] edges, and every edge it leaves
    was there before or leaves an item of one of its eight collections
    with a score above that stage's threshold. *)
Theorem bridge_all_provenance sim db :
  let db' := outcome_db (bridge_all sim db) in
  db_items db' = db_items db /\ db_relations db' = db_relations db /\
  db_view db' = db_view db /\ db_traversal_fails db' = db_traversal_fails db /\
  forall e, e ∈ db_resolved db' -> e ∈ db_resolved db \/
    exists col th meth tr it, (col, th, meth, tr) ∈ BRIDGE_STAGES /\ it ∈ db_items db col /\
      e_from e = item_id it /\ (th < e_score e)%Q.
Proof. apply run_stages_spec. Qed.

(** [bridge_modules_only] (bulk path, [truncate=True]): when the query
    returns no edge, [RESOLVED_TO] is left as it was; otherwise it holds
    exactly the new module edges, each leaving a module with method
    [bulk_module_v1] and a score above 0.7, at most one per module when
    module ids are distinct. *)
Theorem bridge_modules_only_spec db db' :
  bridge_modules_only db = Done db' ->
  db_resolved db' = db_resolved db \/
  (db_resolved db' <> [] /\
   (forall e, e ∈ db_resolved db' -> exists it, it ∈ db_items db COL_MODULE /\
      e_from e = item_id it /\ e_method e = "bulk_module_v1" /\ (7#10 < e_score e)%Q) /\
   (NoDup (map item_id (db_items db COL_MODULE)) -> NoDup (map e_from (db_resolved db')))).
Proof.
  unfold bridge_modules_only, bulk_bridge_collection.
  destruct (collect_bulk _) as [edges|] eqn:Ec; [|done]. intros [= <-].
  unfold write_edges. destruct edges as [|e0 es] eqn:Ee; [by left|]. right.
  rewrite <- Ee in Ec |- *. cbn [db_resolved db_set_resolved app].
  split; [by subst|]. split.
  - intros e He. destruct (collect_bulk_mem _ _ _ _ Ec He) as (it & Hit & Hb).
    exists it. split; [done|].
    destruct (BridgeFacts.bulk_item_shape _ _ _ _ _ _ Hb) as [(Hf & Hg & _) _].
    split; [done|]. split; [by apply bulk_item_method in Hb|]. by apply Qgtb_spec.
  - intros Hnd. apply (sublist_NoDup _ _ Hnd).
    eapply collect_bulk_sublist; [|exact Ec].
    intros it e Hb. by destruct (BridgeFacts.bulk_item_shape _ _ _ _ _ _ Hb) as [(Hf & _) _].
Qed.

Lemma bridge_modules_only_spec_witness :
  exists db', bridge_modules_only graph_db = Done db' /\
  (db_resolved db' = db_resolved graph_db \/
  (db_resolved db' <> [] /\
   (forall e, e ∈ db_resolved db' -> exists it, it ∈ db_items graph_db COL_MODULE /\
      e_from e = item_id it /\ e_method e = "bulk_module_v1" /\ (7#10 < e_score e)%Q) /\
   (NoDup (map item_id (db_items graph_db COL_MODULE)) -> NoDup (map e_from (db_resolved db'))))).
Proof.
  destruct (bridge_modules_only graph_db) as [db'|db'] eqn:E.
  - exists db'. split; [reflexivity|]. exact (bridge_modules_only_spec _ _ E).
  - vm_compute in E. discriminate E.
Defined.

End XBridge.

(** ** Logic-chunk reference bridging (src/bridger.py) *)

Module LogicFacts.

Lemma flat_map_refs (src : string) (l : list LogicHit) :
  let r := flat_map (fun cand => if Qgtb (h_score cand) 5
                                 then [mkRef src (h_id cand) (h_score cand) LOGIC_METHOD]
                                 else []) l in
  length r <= length l /\
  Forall (fun e => r_from e = src /\ (5 < r_score e)%Q /\ r_method e = LOGIC_METHOD /\
                   exists h, h ∈ l /\ r_to e = h_id h /\ r_score e = h_score h) r.
Proof.
  induction l as [|h l [IHl IHf]]; cbn [flat_map]; [split; [simpl; lia|constructor]|].
  destruct (Qgtb (h_score h) 5) eqn:Eh; cbn [app length].
  - split; [lia|]. constructor.
    + cbn. split; [done|]. split; [by apply BridgeHelperFacts.Qgtb_spec|].
      split; [done|]. exists h. split; [constructor|done].
    + eapply Forall_impl; [exact IHf|]. intros e (? & ? & ? & h' & ? & ?).
      split; [done|]. split; [done|]. split; [done|]. exists h'. split; [by constructor|done].
  - split; [lia|]. eapply Forall_impl; [exact IHf|]. intros e (? & ? & ? & h' & ? & ?).
    split; [done|]. split; [done|]. split; [done|]. exists h'. split; [by constructor|done].
Qed.

Lemma process_logic_chunk_edges view chunk edges :
  process_logic_chunk view chunk = Some edges ->
  length edges <= 2 /\
  Forall (fun e => r_from e = lc_id chunk /\ (5 < r_score e)%Q /\ r_method e = LOGIC_METHOD /\
    exists hits h, view (list_to_set (find_identifiers (lc_code chunk))) = Some hits /\
                   h ∈ take 2 hits /\ r_to e = h_id h /\ r_score e = h_score h) edges.
Proof.
  unfold process_logic_chunk.
  destruct (lc_code chunk) as [|c code]; [intros [= <-]; split; [simpl; lia|constructor]|].
  destruct (find_identifiers (String c code)) as [|i is] eqn:Ei;
    [intros [= <-]; split; [simpl; lia|constructor]|].
  cbv zeta. destruct (view (list_to_set (i :: is))) as [hits|] eqn:Ev; [|done].
  intros [= <-]. destruct (flat_map_refs (lc_id chunk) (take 2 hits)) as [Hl Hf]. split.
  - rewrite length_take in Hl. lia.
  - eapply Forall_impl; [exact Hf|]. intros e (? & ? & ? & h & ? & ? & ?).
    split; [done|]. split; [done|]. split; [done|]. exists hits, h. done.
Qed.

Lemma collect_refs_mem rs edges e :
  collect_refs rs = Some edges -> e ∈ edges -> exists l, Some l ∈ rs /\ e ∈ l.
Proof.
  revert edges. induction rs as [|[r|] rs IH]; intros edges; simpl;
    [by intros [= <-] ?%not_elem_of_nil| |done].
  destruct (collect_refs rs) as [t|] eqn:E; [|done]. intros [= <-] [H|H]%elem_of_app.
  - exists r. split; [constructor|done].
  - destruct (IH t eq_refl H) as (l & Hl & He). exists l. split; [by constructor|done].
Qed.

Lemma collect_refs_nil rs : collect_refs rs = Some [] -> Forall (fun r => r = Some []) rs.
Proof.
  induction rs as [|[r|] rs IH]; simpl; [constructor| |done].
  destruct (collect_refs rs) as [t|]; [|done]. intros [= Hr].
  apply app_eq_nil in Hr as [-> ->]. constructor; [done|]. by apply IH.
Qed.

Lemma collect_refs_length rs edges :
  collect_refs rs = Some edges ->
  Forall (fun r => forall l, r = Some l -> length l <= 2) rs ->
  length edges <= 2 * length rs.
Proof.
  revert edges. induction rs as [|[r|] rs IH]; intros edges; simpl; [by intros [= <-]| |done].
  destruct (collect_refs rs) as [t|]; [|done]. intros [= <-] HF.
  apply Forall_cons in HF as [Hr HF]. specialize (Hr r eq_refl). specialize (IH t eq_refl HF).
  rewrite length_app. lia.
Qed.

End LogicFacts.

Module XLogic.
Import LogicFixtures LogicFacts.

(** [bridge_logic_parallel], when it completes, either leaves
    [REFERENCES] exactly as it was (every chunk yielded no edge: the edges
    of a previous run are kept), or replaces it by a non-empty set of at
    most two edges per chunk, each leaving a chunk with a score above 5. *)
Theorem bridge_logic_references ldb ldb' :
  bridge_logic_parallel ldb = Some ldb' ->
  ldb_chunks ldb' = ldb_chunks ldb /\
  ((ldb_references ldb' = ldb_references ldb /\
    Forall (fun c => process_logic_chunk (ldb_view ldb) c = Some []) (ldb_chunks ldb)) \/
   (ldb_references ldb' <> [] /\
    length (ldb_references ldb') <= 2 * length (ldb_chunks ldb) /\
    Forall (fun e => (exists c, c ∈ ldb_chunks ldb /\ r_from e = lc_id c) /\ (5 < r_score e)%Q)
           (ldb_references ldb'))).
Proof.
  unfold bridge_logic_parallel.
  destruct (collect_refs _) as [edges|] eqn:Ec; [|done].
  destruct edges as [|e0 es].
  - intros [= <-]. split; [done|]. left. split; [done|].
    apply collect_refs_nil in Ec. apply Forall_map in Ec. exact Ec.
  - intros [= <-]. cbn [ldb_chunks ldb_references].
    split; [done|]. right. split; [done|]. split.
    + rewrite <- (length_map (process_logic_chunk (ldb_view ldb)) (ldb_chunks ldb)).
      apply (collect_refs_length _ _ Ec). apply Forall_forall.
      intros r Hr l ->. apply list_elem_of_In, in_map_iff in Hr as (c & Hc & _).
      by destruct (process_logic_chunk_edges _ _ _ Hc).
    + apply Forall_forall. intros e He.
      destruct (collect_refs_mem _ _ _ Ec He) as (l & Hl & Hel).
      apply list_elem_of_In, in_map_iff in Hl as (c & Hc & Hin).
      destruct (process_logic_chunk_edges _ _ _ Hc) as [_ HF].
      rewrite Forall_forall in HF. destruct (HF e Hel)
        as (Hf & Hs & _).
      split; [|done]. exists c. split; [by apply list_elem_of_In|done].
Qed.

Lemma bridge_logic_references_witness :
  bridge_logic_parallel stale_ldb = Some stale_ldb /\
  ldb_chunks stale_ldb = ldb_chunks stale_ldb /\
  ((ldb_references stale_ldb = ldb_references stale_ldb /\
    Forall (fun c => process_logic_chunk (ldb_view stale_ldb) c = Some []) (ldb_chunks stale_ldb)) \/
   (ldb_references stale_ldb <> [] /\
    length (ldb_references stale_ldb) <= 2 * length (ldb_chunks stale_ldb) /\
    Forall (fun e => (exists c, c ∈ ldb_chunks stale_ldb /\ r_from e = lc_id c) /\ (5 < r_score e)%Q)
           (ldb_references stale_ldb))).
Proof.
  assert (H : bridge_logic_parallel stale_ldb = Some stale_ldb) by reflexivity.
  split; [exact H|]. exact (bridge_logic_references _ _ H).
Defined.

End XLogic.

(** ** src/consolidator.py: bookkeeping of the fuzzy merge *)

Module FuzzyMergeFacts.
Import FuzzyFacts.

Lemma g_id_of_key e e' : g_key e = g_key e' -> g_id e = g_id e'.
Proof. unfold g_id. by intros ->. Qed.

Lemma sublist_map {A B} (f : A -> B) l1 l2 : l1 `sublist_of` l2 -> map f l1 `sublist_of` map f l2.
Proof. induction 1; simpl; by constructor. Qed.

Lemma filter_ext_in {A} (P Q : A -> Prop) `{forall x, Decision (P x)} `{forall x, Decision (Q x)}
    (l : list A) :
  (forall x, x ∈ l -> (P x <-> Q x)) -> filter P l = filter Q l.
Proof.
  induction l as [|x l IH]; intros Hpq; [done|]. rewrite !filter_cons.
  rewrite IH by (intros y Hy; apply Hpq; by constructor).
  specialize (Hpq x (ltac:(constructor))).
  destruct (decide (P x)), (decide (Q x)); naive_solver.
Qed.

Lemma filter_in_sublist (K L : list string) :
  NoDup L -> K `sublist_of` L -> filter (fun x => x ∈ K) L = K.
Proof.
  intros Hnd Hs. induction Hs as [|x K L Hs IH|x K L Hs IH].
  - done.
  - apply NoDup_cons in Hnd as [Hx Hnd]. rewrite filter_cons_True by constructor.
    f_equal. transitivity (filter (fun y => y ∈ K) L); [|by apply IH]. apply filter_ext_in.
    intros y Hy. rewrite elem_of_cons. split; [|by right]. intros [->|?]; done.
  - apply NoDup_cons in Hnd as [Hx Hnd]. rewrite filter_cons_False; [by apply IH|].
    intros Hk. apply Hx. by apply (sublist_subseteq _ _ Hs).
Qed.

Lemma length_filter_split {A} (P : A -> Prop) `{forall x, Decision (P x)} (l : list A) :
  length (filter P l) + length (filter (fun x => ~ P x) l) = length l.
Proof.
  induction l as [|x l IH]; [done|]. rewrite !filter_cons.
  destruct (decide (P x)); [rewrite decide_False by tauto|rewrite decide_True by done];
    simpl; lia.
Qed.

Lemma map_key_filter (K : list string) (l : list GoldenEntity) :
  map g_key (filter (fun e => g_key e ∉ K) l) = filter (fun k => k ∉ K) (map g_key l).
Proof.
  induction l as [|x l IH]; [done|]. cbn [map]. rewrite !filter_cons.
  destruct (decide (g_key x ∉ K)); cbn [map]; by rewrite IH.
Qed.

Lemma primary_key_lt_len a b :
  if primary_key_lt a b then String.length (g_name a) <= String.length (g_name b)
  else String.length (g_name b) <= String.length (g_name a).
Proof.
  unfold primary_key_lt.
  destruct (Nat.ltb_spec (String.length (g_name a)) (String.length (g_name b))); simpl; [lia|].
  destruct (Nat.eqb_spec (String.length (g_name a)) (String.length (g_name b)));
    simpl; [by destruct (String.ltb _ _); lia|lia].
Qed.

Lemma fold_max_len (rest : list GoldenEntity) e x :
  x ∈ e :: rest ->
  String.length (g_name x) <=
  String.length (g_name (fold_left (fun best x => if primary_key_lt best x then x else best) rest e)).
Proof.
  revert e x. induction rest as [|y rest IH]; intros e x Hx; simpl.
  - apply list_elem_of_singleton in Hx as ->. lia.
  - set (e' := if primary_key_lt e y then y else e).
    assert (He' : String.length (g_name e) <= String.length (g_name e') /\
                  String.length (g_name y) <= String.length (g_name e')).
    { unfold e'. pose proof (primary_key_lt_len e y). destruct (primary_key_lt e y); lia. }
    pose proof (IH e' e' (ltac:(constructor))) as Hm.
    apply elem_of_cons in Hx as [->|[->|Hx]%elem_of_cons]; [lia|lia|].
    apply IH. by constructor.
Qed.

(** The parts of one merge that the properties below look at. *)
Lemma merge_group_unfold s ids s' n :
  2 <= length ids -> merge_group s ids = Some (s', n) ->
  exists pr, py_max_primary (fetch s ids) = Some pr /\
  let secs := filter (fun e => g_id e <> g_id pr) (fetch s ids) in
  let upd e := if String.eqb (g_key e) (g_key pr)
               then mkGolden (g_key e) (g_name e) (g_type e)
                      (String.concat " | " (filter (fun d => d <> "")
                         (g_desc pr :: filter (fun d => d <> "") (map g_desc secs))%list))
                      (remove_dups (filter (fun a => a <> g_name pr)
                         (g_aliases pr ++ concat (map (fun sec => g_aliases sec ++ [g_name sec]) secs))%list))
                      (Some (length secs))
               else e in
  n = length secs /\
  gs_entities s' = filter (fun e => g_key e ∉ map g_key secs) (map upd (gs_entities s)) /\
  gs_consolidates s' =
    map (fun '(f, t) => if existsb (fun sec => String.eqb f (g_id sec)) secs
                        then (g_id pr, t) else (f, t)) (gs_consolidates s).
Proof.
  intros Hl. unfold merge_group. rewrite (proj2 (Nat.ltb_ge _ _) Hl).
  destruct (py_max_primary (fetch s ids)) as [pr|]; [|done].
  intros H. apply Some_pair_inv in H as [<- <-]. exists pr. split; [done|]. done.
Qed.

Lemma merge_group_small s ids s' n :
  length ids < 2 -> merge_group s ids = Some (s', n) -> s' = s /\ n = 0.
Proof.
  intros Hl. unfold merge_group. rewrite (proj2 (Nat.ltb_lt _ _) Hl).
  intros H. by injection H as <- <-.
Qed.

Lemma merge_group_closed s ids s' n :
  consolidates_closed s -> merge_group s ids = Some (s', n) -> consolidates_closed s'.
Proof.
  intros Hc Hm. destruct (decide (length ids < 2)) as [Hl|Hl].
  { by destruct (merge_group_small _ _ _ _ Hl Hm) as [-> _]. }
  apply merge_group_unfold in Hm as (pr & Ep & Hn & He & Hr); [|lia].
  apply py_max_primary_in in Ep. unfold fetch in Ep. apply list_elem_of_filter in Ep as [_ Hpr].
  revert He Hr. cbv zeta.
  set (secs := filter (fun e => g_id e <> g_id pr) (fetch s ids)).
  match goal with |- context [map ?f (gs_entities s)] => set (upd := f) end.
  intros He Hr.
  assert (Hkey : forall e, g_key (upd e) = g_key e) by (intros e; unfold upd; by destruct (String.eqb _ _)).
  assert (Hid : forall e, g_id (upd e) = g_id e) by (intros e; apply g_id_of_key, Hkey).
  assert (Hkeep : forall e, e ∈ gs_entities s -> g_key e ∉ map g_key secs -> upd e ∈ gs_entities s').
  { intros e Hin Hk. rewrite He. apply list_elem_of_filter. rewrite Hkey. split; [done|].
    apply list_elem_of_In, in_map, list_elem_of_In. done. }
  assert (Hsec : forall e, g_key e ∈ map g_key secs -> exists sec, sec ∈ secs /\ g_id sec = g_id e).
  { intros e Hk. apply list_elem_of_In, in_map_iff in Hk as (sec & Hks & Hs).
    exists sec. split; [by apply list_elem_of_In|]. by apply g_id_of_key. }
  intros f' t' Hft. rewrite Hr in Hft.
  apply list_elem_of_In, in_map_iff in Hft as ([f t] & Hrp & Hin). apply list_elem_of_In in Hin.
  destruct (existsb (fun sec => String.eqb f (g_id sec)) secs) eqn:Ex; injection Hrp as <- <-.
  - exists (upd pr). split; [|apply Hid]. apply Hkeep; [done|].
    intros Hk. destruct (Hsec pr Hk) as (sec & Hs & Hi).
    unfold secs in Hs. apply list_elem_of_filter in Hs as [Hne _]. done.
  - destruct (Hc f t Hin) as (e & Hin_e & <-). exists (upd e). split; [|apply Hid].
    apply Hkeep; [done|]. intros Hk. destruct (Hsec e Hk) as (sec & Hs & Hi).
    assert (existsb (fun sec => String.eqb (g_id e) (g_id sec)) secs = true) as Ht.
    { apply existsb_exists. exists sec. split; [by apply list_elem_of_In|].
      rewrite Hi. apply String.eqb_refl. }
    congruence.
Qed.

Lemma merge_all_closed groups s m s' n :
  consolidates_closed s -> merge_all s m groups = Some (s', n) -> consolidates_closed s'.
Proof.
  revert s m. induction groups as [|[k ids] groups IH]; intros s m Hc; cbn [merge_all].
  - intros H. by apply Some_pair_inv in H as [<- _].
  - destruct (merge_group s ids) as [[s1 n1]|] eqn:Eg; [|done].
    apply IH. by apply (merge_group_closed s ids s1 n1).
Qed.

Lemma merge_group_count s ids s' n :
  NoDup (map g_key (gs_entities s)) -> merge_group s ids = Some (s', n) ->
  NoDup (map g_key (gs_entities s')) /\ length (gs_entities s') + n = length (gs_entities s).
Proof.
  intros Hnd Hm. destruct (decide (length ids < 2)) as [Hl|Hl].
  { destruct (merge_group_small _ _ _ _ Hl Hm) as [-> ->]. split; [done|lia]. }
  apply merge_group_unfold in Hm as (pr & _ & Hn & He & _); [|lia].
  revert Hn He. cbv zeta.
  set (secs := filter (fun e => g_id e <> g_id pr) (fetch s ids)).
  match goal with |- context [map ?f (gs_entities s)] => set (upd := f) end.
  intros -> He. rewrite He.
  assert (Hk : map g_key (map upd (gs_entities s)) = map g_key (gs_entities s)).
  { rewrite map_map. apply map_ext. intros e. unfold upd. by destruct (String.eqb _ _). }
  set (K := map g_key secs). set (L := map g_key (gs_entities s)).
  assert (HKL : K `sublist_of` L).
  { apply sublist_map. unfold secs, fetch. etrans; apply sublist_filter. }
  rewrite <- (length_map g_key (filter _ _)), map_key_filter, Hk. fold L.
  split; [by apply NoDup_filter|].
  pose proof (length_filter_split (fun x => x ∈ K) L) as Hs.
  rewrite (filter_in_sublist K L Hnd HKL) in Hs.
  unfold K, L in Hs |- *. rewrite !length_map in Hs. lia.
Qed.

Lemma merge_all_count groups s m s' n :
  NoDup (map g_key (gs_entities s)) -> merge_all s m groups = Some (s', n) ->
  NoDup (map g_key (gs_entities s')) /\ length (gs_entities s') + n = length (gs_entities s) + m.
Proof.
  revert s m. induction groups as [|[k ids] groups IH]; intros s m Hnd; cbn [merge_all].
  - intros H. apply Some_pair_inv in H as [<- <-]. split; [done|lia].
  - destruct (merge_group s ids) as [[s1 n1]|] eqn:Eg; [|done]. intros Hall.
    destruct (merge_group_count _ _ _ _ Hnd Eg) as [Hnd1 Hl1].
    destruct (IH _ _ Hnd1 Hall) as [Hnd' Hl']. split; [done|lia].
Qed.

End FuzzyMergeFacts.

Module XFuzzy.
Import FuzzyFacts FuzzyMergeFacts FuzzyFixtures.

(** Stage 2 of [consolidate_fuzzy_stage2] leaves no dangling
    [CONSOLIDATES] edge: if every edge of the store starts at a golden
    entity of the store, the same holds after the merges (edges out of a
    merged secondary are re-pointed to the primary, which is kept). *)
Theorem fuzzy_stage2_edges_closed tokens edit_distance s md mc dry cands s' n :
  consolidates_closed s ->
  consolidate_fuzzy_stage2 tokens edit_distance s md mc dry = Some (cands, s', n) ->
  consolidates_closed s'.
Proof.
  intros Hc. unfold consolidate_fuzzy_stage2.
  destruct (dry || _).
  { intros H. apply Some_triple_inv in H as (_ & <- & _). exact Hc. }
  destruct (merge_all s 0 _) as [[s1 m]|] eqn:Em; [|done].
  intros H. apply Some_triple_inv in H as (_ & <- & _).
  exact (merge_all_closed _ _ _ _ _ Hc Em).
Qed.

(** Witness: the store of three close signals, with its edge out of "k2". *)
Lemma fuzzy_stage2_edges_closed_witness :
  consolidates_closed fuzzy_store /\
  exists cands s' n,
    consolidate_fuzzy_stage2 (fun _ => []) Str.levenshtein fuzzy_store 1 (3#4) false
      = Some (cands, s', n) /\ consolidates_closed s'.
Proof.
  assert (Hc : consolidates_closed fuzzy_store).
  { intros f t H. apply list_elem_of_singleton in H. injection H as -> ->.
    exists (golden "k2" "abcdf" (Some "signal")). split; [|reflexivity].
    do 2 constructor. }
  split; [exact Hc|].
  assert (Hr : is_Some (consolidate_fuzzy_stage2 (fun _ => []) Str.levenshtein fuzzy_store 1 (3#4) false))
    by (vm_compute; eexists; reflexivity).
  destruct (consolidate_fuzzy_stage2 (fun _ => []) Str.levenshtein fuzzy_store 1 (3#4) false)
    as [[[cands s'] n]|] eqn:E; [|destruct Hr as [? Hr]; discriminate Hr].
  exists cands, s', n. split; [reflexivity|].
  exact (fuzzy_stage2_edges_closed _ _ _ _ _ _ _ _ _ Hc E).
Defined.

(** The merge count is exact: when the keys of the golden entities are
    distinct, they stay distinct, and the number of entities left plus the
    reported [merged_count] is the number of entities before the run. *)
Theorem fuzzy_stage2_count tokens edit_distance s md mc dry cands s' n :
  NoDup (map g_key (gs_entities s)) ->
  consolidate_fuzzy_stage2 tokens edit_distance s md mc dry = Some (cands, s', n) ->
  NoDup (map g_key (gs_entities s')) /\ length (gs_entities s') + n = length (gs_entities s).
Proof.
  intros Hnd. unfold consolidate_fuzzy_stage2.
  destruct (dry || _).
  { intros H. apply Some_triple_inv in H as (_ & <- & <-). split; [exact Hnd|lia]. }
  destruct (merge_all s 0 _) as [[s1 m]|] eqn:Em; [|done].
  intros H. apply Some_triple_inv in H as (_ & <- & <-).
  destruct (merge_all_count _ _ _ _ _ Hnd Em) as [Hnd' Hl]. split; [exact Hnd'|lia].
Qed.

(** Witness: three entities, two merged, one left. *)
Lemma fuzzy_stage2_count_witness :
  NoDup (map g_key (gs_entities fuzzy_store)) /\
  exists cands s' n,
    consolidate_fuzzy_stage2 (fun _ => []) Str.levenshtein fuzzy_store 1 (3#4) false
      = Some (cands, s', n) /\ n = 2%nat /\
    NoDup (map g_key (gs_entities s')) /\ length (gs_entities s') + n = length (gs_entities fuzzy_store).
Proof.
  assert (Hnd : NoDup (map g_key (gs_entities fuzzy_store))) by (apply (bool_decide_unpack _); vm_compute; reflexivity).
  split; [exact Hnd|].
  assert (Hr : option_map (fun r : list FuzzyCand * GStore * nat => let '(_, _, n) := r in n)
                 (consolidate_fuzzy_stage2 (fun _ => []) Str.levenshtein fuzzy_store 1 (3#4) false)
               = Some 2%nat) by (vm_compute; reflexivity).
  destruct (consolidate_fuzzy_stage2 (fun _ => []) Str.levenshtein fuzzy_store 1 (3#4) false)
    as [[[cands s'] n]|] eqn:E; [|discriminate Hr].
  cbn [option_map] in Hr. injection Hr as Hn.
  exists cands, s', n. split; [reflexivity|]. split; [exact Hn|].
  exact (fuzzy_stage2_count _ _ _ _ _ _ _ _ _ Hnd E).
Defined.

(** One merge of a group of at least two ids keeps a primary of the group:
    it has the longest name of the group's entities, its
    [fuzzy_merged_count] is the number of secondaries merged, its aliases
    are distinct, never its own name, and hold the name of every entity of
    the group that differs from it; it is then the only entity of the group
    left in the store. *)
Theorem merge_group_primary s ids s' n :
  2 <= length ids -> merge_group s ids = Some (s', n) ->
  exists p, p ∈ gs_entities s' /\ g_id p ∈ ids /\ g_merge_count p = Some n /\
    NoDup (g_aliases p) /\ (g_name p ∉ g_aliases p) /\
    (forall e, e ∈ gs_entities s -> g_id e ∈ ids ->
       String.length (g_name e) <= String.length (g_name p) /\
       (g_id e <> g_id p -> g_name e <> g_name p -> g_name e ∈ g_aliases p)) /\
    (forall e, e ∈ gs_entities s' -> g_id e ∈ ids -> g_id e = g_id p).
Proof.
  intros Hl Hm. apply merge_group_unfold in Hm as (pr & Ep & Hm); [|exact Hl].
  revert Hm. cbv zeta.
  set (secs := filter (fun e => g_id e <> g_id pr) (fetch s ids)).
  match goal with |- context [map ?f (gs_entities s)] => set (upd := f) end.
  intros (Hn & He & _).
  assert (Hkey : forall e, g_key (upd e) = g_key e) by (intros e; unfold upd; by destruct (String.eqb _ _)).
  assert (Hid : forall e, g_id (upd e) = g_id e) by (intros e; apply g_id_of_key, Hkey).
  assert (Hfetch : forall e, e ∈ gs_entities s -> g_id e ∈ ids -> e ∈ fetch s ids).
  { intros e Hin Hi. unfold fetch. by apply list_elem_of_filter. }
  assert (Hsec : forall e, e ∈ gs_entities s -> g_id e ∈ ids -> g_id e <> g_id pr -> e ∈ secs).
  { intros e Hin Hi Hne. unfold secs. apply list_elem_of_filter. split; [exact Hne|]. by apply Hfetch. }
  assert (Hpr : pr ∈ fetch s ids) by (by apply py_max_primary_in).
  pose proof Hpr as Hpr'. unfold fetch in Hpr'. apply list_elem_of_filter in Hpr' as [Hpr_id Hpr_in].
  assert (Hprk : g_key pr ∉ map g_key secs).
  { intros Hk. apply list_elem_of_In, in_map_iff in Hk as (sec & Hks & Hs).
    apply list_elem_of_In in Hs. unfold secs in Hs. apply list_elem_of_filter in Hs as [Hne _].
    apply Hne. by apply g_id_of_key. }
  assert (Hupr : upd pr = mkGolden (g_key pr) (g_name pr) (g_type pr)
      (String.concat " | " (filter (fun d => d <> "")
         (g_desc pr :: filter (fun d => d <> "") (map g_desc secs))%list))
      (remove_dups (filter (fun a => a <> g_name pr)
         (g_aliases pr ++ concat (map (fun sec => g_aliases sec ++ [g_name sec]) secs))%list))
      (Some (length secs))).
  { unfold upd. by rewrite String.eqb_refl. }
  exists (upd pr). rewrite Hid, Hupr. cbn [g_merge_count g_aliases g_name].
  split.
  { rewrite <- Hupr, He. apply list_elem_of_filter. rewrite Hkey. split; [exact Hprk|].
    apply list_elem_of_In, in_map, list_elem_of_In. exact Hpr_in. }
  split; [exact Hpr_id|]. split; [by rewrite Hn|].
  split; [apply NoDup_remove_dups|].
  split.
  { rewrite elem_of_remove_dups. intros Hx. apply list_elem_of_filter in Hx as [Hx _]. done. }
  split.
  - intros e Hin Hi. split.
    + assert (Hx : e ∈ fetch s ids) by (by apply Hfetch). clear - Ep Hx.
      unfold py_max_primary in Ep. destruct (fetch s ids) as [|e0 rest]; [done|].
      injection Ep as <-. by apply fold_max_len.
    + intros Hne Hname. rewrite elem_of_remove_dups. apply list_elem_of_filter.
      split; [exact Hname|]. apply elem_of_app. right.
      apply list_elem_of_In, in_concat. exists (g_aliases e ++ [g_name e])%list. split.
      * apply in_map_iff. exists e. split; [reflexivity|]. apply list_elem_of_In. by apply Hsec.
      * apply in_or_app. right. by left.
  - intros e' Hin' Hi'. rewrite He in Hin'. apply list_elem_of_filter in Hin' as [Hk Hin'].
    apply list_elem_of_In, in_map_iff in Hin' as (e & <- & Hin). apply list_elem_of_In in Hin.
    rewrite Hid in Hi' |- *. destruct (decide (g_id e = g_id pr)) as [Heq|Hne]; [exact Heq|].
    exfalso. apply Hk. rewrite Hkey. apply list_elem_of_In, in_map, list_elem_of_In. by apply Hsec.
Qed.

(** Witness: merging "k1" and "k2" of the store of three signals. *)
Lemma merge_group_primary_witness :
  2 <= length ["Golden_Entities/k1"; "Golden_Entities/k2"] /\
  exists s' n, merge_group fuzzy_store ["Golden_Entities/k1"; "Golden_Entities/k2"] = Some (s', n) /\
  exists p, p ∈ gs_entities s' /\ g_id p ∈ ["Golden_Entities/k1"; "Golden_Entities/k2"] /\
    g_merge_count p = Some n /\
    NoDup (g_aliases p) /\ (g_name p ∉ g_aliases p) /\
    (forall e, e ∈ gs_entities fuzzy_store -> g_id e ∈ ["Golden_Entities/k1"; "Golden_Entities/k2"] ->
       String.length (g_name e) <= String.length (g_name p) /\
       (g_id e <> g_id p -> g_name e <> g_name p -> g_name e ∈ g_aliases p)) /\
    (forall e, e ∈ gs_entities s' -> g_id e ∈ ["Golden_Entities/k1"; "Golden_Entities/k2"] ->
       g_id e = g_id p).
Proof.
  assert (Hl : 2 <= length ["Golden_Entities/k1"; "Golden_Entities/k2"]) by (simpl; lia).
  split; [exact Hl|].
  assert (Hr : is_Some (merge_group fuzzy_store ["Golden_Entities/k1"; "Golden_Entities/k2"]))
    by (vm_compute; eexists; reflexivity).
  destruct (merge_group fuzzy_store ["Golden_Entities/k1"; "Golden_Entities/k2"])
    as [[s' n]|] eqn:E; [|destruct Hr as [? Hr]; discriminate Hr].
  exists s', n. split; [reflexivity|].
  exact (merge_group_primary _ _ _ _ Hl E).
Defined.

End XFuzzy.
